(** * WestTechHA email chooser: [src/js/email-chooser.js]

    A shallow embedding of the widget's logic and of the JavaScript
    built-ins it calls, followed by the properties of the decomposer
    [parseMailto], the link builder [buildLinks] and the dialog controller
    [openModal] / [closeModal].

    Data model.  A JavaScript string is a sequence of 16-bit code units,
    here a [list N].  An operation that can throw returns a [result].  The
    page is a [document] that may or may not have a body yet, and may or
    may not hold the dialog element. *)

From Stdlib Require Import String Ascii List NArith ZArith Lia Bool.
Import ListNotations.
Local Open Scope N_scope.

(** ** Strings and completions *)

Abbreviation code_unit := N (only parsing).
Abbreviation jsstring := (list N) (only parsing).

(** A source literal, as the sequence of its code units. *)
Definition lit (s : string) : jsstring :=
  map N_of_ascii (list_ascii_of_string s).

(** The errors the built-ins throw here: [URIError] from
    [encodeURIComponent] and [decodeURIComponent], [TypeError] from a
    property read on null. *)
Inductive exn := URIError | TypeError.

Inductive result (A : Type) :=
| Ok (a : A)
| Throw (e : exn).
Arguments Ok {A} a.
Arguments Throw {A} e.

Definition bind {A B} (r : result A) (k : A -> result B) : result B :=
  match r with
  | Ok a => k a
  | Throw e => Throw e
  end.

Notation "'let*' x ':=' r 'in' k" := (bind r (fun x => k))
  (at level 10, x name, r at level 100, k at level 200).

(** A value handed to [parseMailto]: the guard
    [!href || typeof href !== 'string'] only tells strings from the rest. *)
Inductive value :=
| VUndefined
| VNull
| VString (s : jsstring)
| VOther.

Fixpoint eqs (a b : jsstring) : bool :=
  match a, b with
  | [], [] => true
  | x :: a', y :: b' => (x =? y) && eqs a' b'
  | _, _ => false
  end.

(** ** The JavaScript built-ins the widget calls *)

Module JS.

(** [between lo hi c]: lo <= c <= hi. *)
Definition between (lo hi c : N) : bool := (lo <=? c) && (c <=? hi).

(** WhiteSpace and LineTerminator code points (ECMA-262, 12.2 and 12.3):
    what [String.prototype.trim] strips.  All are in the BMP. *)
Definition isWhiteSpace (c : code_unit) : bool :=
  between 0x09 0x0D c || (c =? 0x20) || (c =? 0xA0) || (c =? 0x1680)
  || between 0x2000 0x200A c || (c =? 0x2028) || (c =? 0x2029)
  || (c =? 0x202F) || (c =? 0x205F) || (c =? 0x3000) || (c =? 0xFEFF).

Fixpoint trimStart (s : jsstring) : jsstring :=
  match s with
  | c :: t => if isWhiteSpace c then trimStart t else s
  | [] => []
  end.

Definition trimEnd (s : jsstring) : jsstring := rev (trimStart (rev s)).

Definition trim (s : jsstring) : jsstring := trimEnd (trimStart s).

(** [String.prototype.toLowerCase], as far as an ASCII literal can
    observe it.  The code units whose lower-case form starts with an
    ASCII letter are 'A'..'Z', U+0130 (to 'i' U+0307) and U+212A (to
    'k'); every other unit maps to units outside ASCII, and is kept as it
    is here.  The widget only ever compares the result with 'mailto:'. *)
Definition lowerUnit (c : code_unit) : jsstring :=
  if between 0x41 0x5A c then [c + 32]
  else if c =? 0x130 then [0x69; 0x307]
  else if c =? 0x212A then [0x6B]
  else [c].

Definition toLowerCase (s : jsstring) : jsstring := flat_map lowerUnit s.

Fixpoint startsWith (s p : jsstring) {struct p} : bool :=
  match p, s with
  | [], _ => true
  | x :: p', c :: s' => (c =? x) && startsWith s' p'
  | _ :: _, [] => false
  end.

(** [s.indexOf(c)] for a one-unit search string: -1 when absent. *)
Fixpoint indexOf (s : jsstring) (c : code_unit) : Z :=
  match s with
  | [] => (-1)%Z
  | x :: t =>
      if x =? c then 0%Z
      else let i := indexOf t c in
           if (i <? 0)%Z then (-1)%Z else (i + 1)%Z
  end.

(** [s.slice(start, end)]; a negative index counts from the end, and
    [None] is an omitted [end]. *)
Definition clampIndex (len i : Z) : Z :=
  if (i <? 0)%Z then Z.max (len + i) 0 else Z.min i len.

Definition slice (s : jsstring) (start : Z) (stop : option Z) : jsstring :=
  let len := Z.of_nat (length s) in
  let from := clampIndex len start in
  let to := match stop with
            | None => len
            | Some e => clampIndex len e
            end in
  firstn (Z.to_nat (Z.max (to - from) 0)) (skipn (Z.to_nat from) s).

(** *** UTF-16 and UTF-8 *)

Definition isHighSurrogate (c : N) : bool := between 0xD800 0xDBFF c.
Definition isLowSurrogate (c : N) : bool := between 0xDC00 0xDFFF c.
Definition isSurrogate (c : N) : bool := between 0xD800 0xDFFF c.

(** UTF16SurrogatePairToCodePoint. *)
Definition pairToCodePoint (hi lo : N) : N :=
  (hi - 0xD800) * 0x400 + (lo - 0xDC00) + 0x10000.

(** UTF16EncodeCodePoint. *)
Definition utf16 (cp : N) : jsstring :=
  if cp <=? 0xFFFF then [cp]
  else [ (cp - 0x10000) / 0x400 + 0xD800; (cp - 0x10000) mod 0x400 + 0xDC00 ].

(** The UTF-8 transformation of a code point. *)
Definition utf8 (cp : N) : list N :=
  if cp <? 0x80 then [cp]
  else if cp <? 0x800 then [0xC0 + cp / 0x40; 0x80 + cp mod 0x40]
  else if cp <? 0x10000 then
    [0xE0 + cp / 0x1000; 0x80 + (cp / 0x40) mod 0x40; 0x80 + cp mod 0x40]
  else
    [0xF0 + cp / 0x40000; 0x80 + (cp / 0x1000) mod 0x40;
     0x80 + (cp / 0x40) mod 0x40; 0x80 + cp mod 0x40].

(** Well-formed UTF-8 byte sequences (Unicode, table 3-7) and the code
    point they stand for. *)
Definition isCont (b : N) : bool := between 0x80 0xBF b.

Definition utf8Value (octets : list N) : option N :=
  match octets with
  | [b0] => if b0 <? 0x80 then Some b0 else None
  | [b0; b1] =>
      if between 0xC2 0xDF b0 && isCont b1
      then Some ((b0 - 0xC0) * 0x40 + (b1 - 0x80)) else None
  | [b0; b1; b2] =>
      if between 0xE0 0xEF b0
         && between (if b0 =? 0xE0 then 0xA0 else 0x80)
                    (if b0 =? 0xED then 0x9F else 0xBF) b1
         && isCont b2
      then Some ((b0 - 0xE0) * 0x1000 + (b1 - 0x80) * 0x40 + (b2 - 0x80))
      else None
  | [b0; b1; b2; b3] =>
      if between 0xF0 0xF4 b0
         && between (if b0 =? 0xF0 then 0x90 else 0x80)
                    (if b0 =? 0xF4 then 0x8F else 0xBF) b1
         && isCont b2 && isCont b3
      then Some ((b0 - 0xF0) * 0x40000 + (b1 - 0x80) * 0x1000
                 + (b2 - 0x80) * 0x40 + (b3 - 0x80))
      else None
  | _ => None
  end.

(** *** encodeURIComponent (ECMA-262, Encode) *)

Definition isAlpha (c : N) : bool := between 0x41 0x5A c || between 0x61 0x7A c.
Definition isDigit (c : N) : bool := between 0x30 0x39 c.

(** uriUnreserved: letters, digits and [-_.!~*'()]. *)
Definition uriUnreserved (c : N) : bool :=
  isAlpha c || isDigit c
  || existsb (N.eqb c) (lit "-_.!~*'()").

Definition hexDigit (n : N) : N :=
  if n <? 10 then 0x30 + n else 0x41 + (n - 10).

(** "%XX", upper-case hexadecimal. *)
Definition escape (b : N) : jsstring :=
  [0x25; hexDigit (b / 16); hexDigit (b mod 16)].

Definition escapeCodePoint (cp : N) : jsstring := flat_map escape (utf8 cp).

Fixpoint Encode (s : jsstring) : result jsstring :=
  match s with
  | [] => Ok []
  | c :: t =>
      if uriUnreserved c then
        let* r := Encode t in Ok (c :: r)
      else if isHighSurrogate c then
        match t with
        | d :: t' =>
            if isLowSurrogate d then
              let* r := Encode t' in
              Ok (escapeCodePoint (pairToCodePoint c d) ++ r)
            else Throw URIError
        | [] => Throw URIError
        end
      else if isLowSurrogate c then Throw URIError
      else
        let* r := Encode t in Ok (escapeCodePoint c ++ r)
  end.

Definition encodeURIComponent (s : jsstring) : result jsstring := Encode s.

(** *** decodeURIComponent (ECMA-262, Decode with an empty reserved set) *)

Definition hexValue (c : N) : option N :=
  if isDigit c then Some (c - 0x30)
  else if between 0x41 0x46 c then Some (c - 0x41 + 10)
  else if between 0x61 0x66 c then Some (c - 0x61 + 10)
  else None.

Definition ParseHexOctet (c1 c2 : N) : option N :=
  match hexValue c1, hexValue c2 with
  | Some h, Some l => Some (16 * h + l)
  | _, _ => None
  end.

(** The number of leading 1 bits of an octet. *)
Definition leadingOnes (b : N) : nat :=
  if b <? 0x80 then 0
  else if b <? 0xC0 then 1
  else if b <? 0xE0 then 2
  else if b <? 0xF0 then 3
  else if b <? 0xF8 then 4
  else 5.

(** Reads [n] escapes "%XX" from the front of [s]. *)
Fixpoint readEscapes (n : nat) (s : jsstring) : option (list N) :=
  match n with
  | O => Some []
  | S n' =>
      match s with
      | p :: c1 :: c2 :: t =>
          if p =? 0x25 then
            match ParseHexOctet c1 c2, readEscapes n' t with
            | Some b, Some l => Some (b :: l)
            | _, _ => None
            end
          else None
      | _ => None
      end
  end.

(** One '%' at the front of [s]: the string it decodes to and the number
    of code units of [s] it takes. *)
Definition decodeEscape (s : jsstring) : result (jsstring * nat) :=
  match readEscapes 1 s with
  | Some [b] =>
      let n := leadingOnes b in
      match n with
      | O => Ok ([b], 3%nat)
      | 1%nat => Throw URIError
      | _ =>
          if (4 <? n)%nat then Throw URIError
          else
            match readEscapes n s with
            | Some octets =>
                match utf8Value octets with
                | Some v => Ok (utf16 v, (3 * n)%nat)
                | None => Throw URIError
                end
            | None => Throw URIError
            end
      end
  | _ => Throw URIError
  end.

(** The loop of Decode; [skip] counts the code units of the current
    escape sequence that are still to be stepped over. *)
Fixpoint DecodeFrom (skip : nat) (s : jsstring) : result jsstring :=
  match s with
  | [] => Ok []
  | c :: t =>
      match skip with
      | S k => DecodeFrom k t
      | O =>
          if c =? 0x25 then
            let* d := decodeEscape s in
            let* r := DecodeFrom (snd d - 1) t in
            Ok (fst d ++ r)
          else
            let* r := DecodeFrom 0 t in Ok (c :: r)
      end
  end.

Definition Decode (s : jsstring) : result jsstring := DecodeFrom 0 s.

Definition decodeURIComponent (s : jsstring) : result jsstring := Decode s.

End JS.

(** ** URLSearchParams (WHATWG URL and Encoding standards) *)

Module URL.

(** Conversion to a scalar value string: an unpaired surrogate becomes
    U+FFFD. *)
Fixpoint scalarValues (s : jsstring) : list N :=
  match s with
  | [] => []
  | c :: t =>
      if JS.isHighSurrogate c then
        match t with
        | d :: t' =>
            if JS.isLowSurrogate d
            then JS.pairToCodePoint c d :: scalarValues t'
            else 0xFFFD :: scalarValues t
        | [] => [0xFFFD]
        end
      else if JS.isLowSurrogate c then 0xFFFD :: scalarValues t
      else c :: scalarValues t
  end.

Definition utf8Encode (s : jsstring) : list N :=
  flat_map JS.utf8 (scalarValues s).

(** Strictly split on a delimiter byte. *)
Fixpoint split (d : N) (bs : list N) : list (list N) :=
  match bs with
  | [] => [[]]
  | b :: t =>
      if b =? d then [] :: split d t
      else match split d t with
           | h :: r => (b :: h) :: r
           | [] => [[b]]
           end
  end.

(** Name up to the first '=', value after it; no '=': the value is empty. *)
Fixpoint nameValue (bs : list N) : list N * list N :=
  match bs with
  | [] => ([], [])
  | b :: t =>
      if b =? 0x3D then ([], t)
      else let (n, v) := nameValue t in (b :: n, v)
  end.

Definition plusToSpace (bs : list N) : list N :=
  map (fun b => if b =? 0x2B then 0x20 else b) bs.

(** Percent-decode a byte sequence: a '%' not followed by two hexadecimal
    digits stays as it is. *)
Fixpoint percentDecode (bs : list N) : list N :=
  match bs with
  | [] => []
  | b :: t =>
      if b =? 0x25 then
        match t with
        | h1 :: h2 :: t' =>
            match JS.ParseHexOctet h1 h2 with
            | Some v => v :: percentDecode t'
            | None => b :: percentDecode t
            end
        | _ => b :: percentDecode t
        end
      else b :: percentDecode t
  end.

(** The UTF-8 decoder of the Encoding standard, with error mode
    "replacement". *)
Record decoder := {
  codePoint : N;
  bytesSeen : nat;
  bytesNeeded : nat;
  lowerBoundary : N;
  upperBoundary : N
}.

Definition initial : decoder :=
  {| codePoint := 0; bytesSeen := 0; bytesNeeded := 0;
     lowerBoundary := 0x80; upperBoundary := 0xBF |}.

Inductive outcome :=
| Continue (d : decoder)
| CodePoint (cp : N)
| Error.

(** Step 3 of the handler: bytes needed is 0. *)
Definition lead (b : N) : outcome :=
  if JS.between 0x00 0x7F b then CodePoint b
  else if JS.between 0xC2 0xDF b then
    Continue {| codePoint := N.land b 0x1F; bytesSeen := 0; bytesNeeded := 1;
                lowerBoundary := 0x80; upperBoundary := 0xBF |}
  else if JS.between 0xE0 0xEF b then
    Continue {| codePoint := N.land b 0xF; bytesSeen := 0; bytesNeeded := 2;
                lowerBoundary := if b =? 0xE0 then 0xA0 else 0x80;
                upperBoundary := if b =? 0xED then 0x9F else 0xBF |}
  else if JS.between 0xF0 0xF4 b then
    Continue {| codePoint := N.land b 0x7; bytesSeen := 0; bytesNeeded := 3;
                lowerBoundary := if b =? 0xF0 then 0x90 else 0x80;
                upperBoundary := if b =? 0xF4 then 0x8F else 0xBF |}
  else Error.

(** Steps 5 to 9: a continuation byte within the boundaries. *)
Definition trail (d : decoder) (b : N) : outcome :=
  let cp := N.lor (N.shiftl (codePoint d) 6) (N.land b 0x3F) in
  let seen := S (bytesSeen d) in
  if Nat.eqb seen (bytesNeeded d) then CodePoint cp
  else Continue {| codePoint := cp; bytesSeen := seen;
                   bytesNeeded := bytesNeeded d;
                   lowerBoundary := 0x80; upperBoundary := 0xBF |}.

Definition emit (o : outcome) (k : decoder -> list N) : list N :=
  match o with
  | Continue d => k d
  | CodePoint cp => cp :: k initial
  | Error => 0xFFFD :: k initial
  end.

Fixpoint decode (d : decoder) (bs : list N) : list N :=
  match bs with
  | [] => if Nat.eqb (bytesNeeded d) 0 then [] else [0xFFFD]
  | b :: t =>
      if Nat.eqb (bytesNeeded d) 0 then
        emit (lead b) (fun d' => decode d' t)
      else if JS.between (lowerBoundary d) (upperBoundary d) b then
        emit (trail d b) (fun d' => decode d' t)
      else
        (* error; the byte is restored and read again from the start *)
        0xFFFD :: emit (lead b) (fun d' => decode d' t)
  end.

(** UTF-8 decode without BOM, then back to code units. *)
Definition utf8Decode (bs : list N) : jsstring :=
  flat_map JS.utf16 (decode initial bs).

Definition decodeComponent (bs : list N) : jsstring :=
  utf8Decode (percentDecode (plusToSpace bs)).

(** The application/x-www-form-urlencoded parser. *)
Definition parseBytes (input : list N) : list (jsstring * jsstring) :=
  flat_map
    (fun bytes =>
       match bytes with
       | [] => []
       | _ => let (n, v) := nameValue bytes in
              [(decodeComponent n, decodeComponent v)]
       end)
    (split 0x26 input).

Definition stripQuestionMark (s : jsstring) : jsstring :=
  match s with
  | c :: t => if c =? 0x3F then t else s
  | [] => []
  end.

(** [new URLSearchParams(init)] for a string [init].  It never throws;
    the result type keeps the shape of the call site's try block. *)
Definition URLSearchParams (init : jsstring) : result (list (jsstring * jsstring)) :=
  Ok (parseBytes (utf8Encode (stripQuestionMark init))).

(** [params.get(name)]: the first value under [name], or null. *)
Fixpoint get (params : list (jsstring * jsstring)) (name : jsstring)
  : option jsstring :=
  match params with
  | [] => None
  | (n, v) :: r => if eqs n name then Some v else get r name
  end.

End URL.

(** ** The widget *)

Definition DEFAULT_TO : jsstring := lit "support@WestTechHA.com".

(** The object [{ to, subject, body }] that [parseMailto] returns. *)
Record EmailRequest := {
  to : jsstring;
  subject : jsstring;
  body : jsstring
}.

(** [a || b] where [a] is a string. *)
Definition orElse (a b : jsstring) : jsstring :=
  match a with
  | [] => b
  | _ :: _ => a
  end.

(** [a || b] where [a] is a string or null / undefined. *)
Definition orDefault (a : option jsstring) (b : jsstring) : jsstring :=
  match a with
  | Some s => orElse s b
  | None => b
  end.

Definition enc (v : jsstring) : result jsstring :=
  JS.encodeURIComponent (orElse v []).

Definition parseMailto (href : value) : result EmailRequest :=
  let out := {| to := []; subject := []; body := [] |} in
  match href with
  | VString [] => Ok out
  | VString s =>
      let raw := JS.trim s in
      if negb (JS.startsWith (JS.toLowerCase raw) (lit "mailto:")) then Ok out
      else
        let rest := JS.slice raw 7 None in
        let qIndex := JS.indexOf rest 0x3F in
        let toPart := if (0 <=? qIndex)%Z
                      then JS.slice rest 0 (Some qIndex) else rest in
        let query := if (0 <=? qIndex)%Z
                     then JS.slice rest (qIndex + 1) None else [] in
        let* decoded := JS.decodeURIComponent (orElse toPart []) in
        let to' := orElse (JS.trim decoded) DEFAULT_TO in
        match query with
        | [] => Ok {| to := to'; subject := []; body := [] |}
        | _ :: _ =>
            match URL.URLSearchParams query with
            | Ok params =>
                Ok {| to := to';
                      subject := orDefault (URL.get params (lit "subject"))
                                   (orDefault (URL.get params (lit "su")) []);
                      body := orDefault (URL.get params (lit "body")) [] |}
            | Throw _ =>
                (* catch (e): ignore *)
                Ok {| to := to'; subject := []; body := [] |}
            end
        end
  | _ => Ok out
  end.

(** *** The dialog in the page *)

(** The element [#wtEmailModal] with what the script reads and writes of
    it: its class list, its [aria-hidden] attribute, the [href] of the
    three anchors and the text of [#wtEmailToText].  The element is the one
    [ensureModal] creates, so the anchors and the text node are there; an
    anchor without [href] is [None]. *)
Record modal := {
  classList : list jsstring;
  ariaHidden : jsstring;
  gmailHref : option jsstring;
  outlookHref : option jsstring;
  mailtoHref : option jsstring;
  toText : jsstring
}.

(** The page: whether [document.body] is there (it is null while the
    parser has not reached the body), and the element with the id
    [wtEmailModal], if any. *)
Record document := {
  hasBody : bool;
  wtEmailModal : option modal
}.

(** [document.body.appendChild(wrap)] throws a TypeError when
    [document.body] is null. *)
Definition ensureModal (doc : document) : result document :=
  match wtEmailModal doc with
  | Some _ => Ok doc
  | None =>
      if hasBody doc then
        Ok {| hasBody := true;
              wtEmailModal :=
                Some {| classList := [lit "wt-email-modal"];
                        ariaHidden := lit "true";
                        gmailHref := None;
                        outlookHref := None;
                        mailtoHref := None;
                        toText := DEFAULT_TO |} |}
      else Throw TypeError
  end.

Definition getEls (doc : document) : option modal := wtEmailModal doc.

Definition nonEmpty (s : jsstring) : bool :=
  match s with
  | [] => false
  | _ :: _ => true
  end.

Definition GMAIL_COMPOSE : jsstring :=
  lit "https://mail.google.com/mail/?view=cm&fs=1&to=".

Definition OUTLOOK_COMPOSE : jsstring :=
  lit "https://outlook.office.com/mail/deeplink/compose?to=".

Definition buildLinks (els : modal) (to subject body : jsstring) : result modal :=
  let* toEnc := enc to in
  let* suEnc := enc subject in
  let* bodyEnc := enc body in
  Ok {| classList := classList els;
        ariaHidden := ariaHidden els;
        gmailHref := Some
          (GMAIL_COMPOSE ++ toEnc
           ++ (if nonEmpty subject then lit "&su=" ++ suEnc else [])
           ++ (if nonEmpty body then lit "&body=" ++ bodyEnc else []));
        outlookHref := Some
          (OUTLOOK_COMPOSE ++ toEnc
           ++ (if nonEmpty subject then lit "&subject=" ++ suEnc else [])
           ++ (if nonEmpty body then lit "&body=" ++ bodyEnc else []));
        mailtoHref := Some
          (lit "mailto:" ++ to
           ++ (if nonEmpty subject || nonEmpty body then lit "?" else [])
           ++ (if nonEmpty subject then lit "subject=" ++ suEnc else [])
           ++ (if nonEmpty subject && nonEmpty body then lit "&" else [])
           ++ (if nonEmpty body then lit "body=" ++ bodyEnc else []));
        toText := to |}.

(** The argument of [WTEmail.open]: every property may be missing. *)
Record payload := {
  p_to : option jsstring;
  p_subject : option jsstring;
  p_body : option jsstring
}.

Definition payloadOf (r : EmailRequest) : payload :=
  {| p_to := Some (to r); p_subject := Some (subject r); p_body := Some (body r) |}.

(** [payload && payload.f ? payload.f : d] *)
Definition field (p : option payload) (f : payload -> option jsstring)
  (d : jsstring) : jsstring :=
  match p with
  | Some o => orDefault (f o) d
  | None => d
  end.

Definition classListAdd (c : jsstring) (l : list jsstring) : list jsstring :=
  if existsb (eqs c) l then l else l ++ [c].

Definition classListRemove (c : jsstring) (l : list jsstring) : list jsstring :=
  filter (fun x => negb (eqs c x)) l.

Definition setClassList (f : list jsstring -> list jsstring) (m : modal) : modal :=
  {| classList := f (classList m); ariaHidden := ariaHidden m;
     gmailHref := gmailHref m; outlookHref := outlookHref m;
     mailtoHref := mailtoHref m; toText := toText m |}.

Definition setAriaHidden (v : jsstring) (m : modal) : modal :=
  {| classList := classList m; ariaHidden := v;
     gmailHref := gmailHref m; outlookHref := outlookHref m;
     mailtoHref := mailtoHref m; toText := toText m |}.

Definition openModal (p : option payload) (doc : document) : result document :=
  let* doc := ensureModal doc in
  match getEls doc with
  | None => Ok doc
  | Some els =>
      let to := field p p_to DEFAULT_TO in
      let subject := field p p_subject [] in
      let body := field p p_body [] in
      let* els := buildLinks els to subject body in
      Ok {| hasBody := hasBody doc;
            wtEmailModal :=
              Some (setAriaHidden (lit "false")
                      (setClassList (classListAdd (lit "is-open")) els)) |}
  end.

Definition closeModal (doc : document) : result document :=
  match getEls doc with
  | None => Ok doc
  | Some els =>
      Ok {| hasBody := hasBody doc;
            wtEmailModal :=
              Some (setAriaHidden (lit "true")
                      (setClassList (classListRemove (lit "is-open")) els)) |}
  end.

(** The handler of a click on [<a href="mailto:...">]. *)
Definition onMailtoClick (href : value) (doc : document) : result document :=
  let* r := parseMailto href in
  openModal (Some (payloadOf r)) doc.

(** ** Notions used to state the properties *)

(** 16-bit code units, every surrogate paired. *)
Fixpoint wellFormed (s : jsstring) : bool :=
  match s with
  | [] => true
  | c :: t =>
      if JS.isHighSurrogate c then
        match t with
        | d :: t' => JS.isLowSurrogate d && wellFormed t'
        | [] => false
        end
      else negb (JS.isLowSurrogate c) && (c <? 0x10000) && wellFormed t
  end.

(** A Unicode scalar value. *)
Definition isScalar (cp : N) : bool :=
  (cp <? 0x110000) && negb (JS.isSurrogate cp).

(** [p] is a prefix of [s] up to the case of the ASCII letters of [s]. *)
Definition sameLetter (c x : N) : bool :=
  (c =? x) || (JS.between 0x41 0x5A c && (c + 32 =? x)).

Fixpoint startsWithCI (s p : jsstring) {struct p} : bool :=
  match p, s with
  | [], _ => true
  | x :: p', c :: s' => sameLetter c x && startsWithCI s' p'
  | _ :: _, [] => false
  end.

(** [pat] occurs in [s]. *)
Fixpoint contains (s pat : jsstring) : bool :=
  JS.startsWith s pat
  || match s with
     | [] => false
     | _ :: t => contains t pat
     end.

(** The URL carries a query parameter called [name]. *)
Definition hasParam (name url : jsstring) : bool :=
  contains url (0x3F :: name ++ [0x3D]) || contains url (0x26 :: name ++ [0x3D]).

(** The last code unit, if any, is not white space: [trimEnd] keeps it. *)
Definition endsClean (s : jsstring) : bool :=
  match rev s with
  | c :: _ => negb (JS.isWhiteSpace c)
  | [] => true
  end.

(** "k1=v1&k2=v2&..." *)
Fixpoint joinQuery (kvs : list (jsstring * jsstring)) : jsstring :=
  match kvs with
  | [] => []
  | [(k, v)] => k ++ 0x3D :: v
  | (k, v) :: r => k ++ 0x3D :: v ++ 0x26 :: joinQuery r
  end.

(** What URLSearchParams makes of an ASCII name or value. *)
Definition formDecode (v : jsstring) : jsstring := URL.decodeComponent v.

(** [ensureModal] has what it needs: the dialog is there, or there is a
    body to append it to. *)
Definition canRender (doc : document) : bool :=
  hasBody doc
  || match wtEmailModal doc with
     | Some _ => true
     | None => false
     end.

(** The two states of the dialog; a page without the element shows none. *)
Inductive dialogState := OPEN | CLOSED.

Definition stateOf (doc : document) : dialogState :=
  match wtEmailModal doc with
  | Some m => if existsb (eqs (lit "is-open")) (classList m) then OPEN else CLOSED
  | None => CLOSED
  end.

(** The request [openModal] works with, by cases on what is missing. *)
Definition requestOf (p : option payload) : EmailRequest :=
  match p with
  | None => {| to := DEFAULT_TO; subject := []; body := [] |}
  | Some o =>
      {| to := match p_to o with
               | Some (c :: s) => c :: s
               | _ => DEFAULT_TO
               end;
         subject := match p_subject o with Some s => s | None => [] end;
         body := match p_body o with Some s => s | None => [] end |}
  end.

(** A search pattern that [toLowerCase] cannot produce from anything but
    the same ASCII letters: no upper-case letter, no 'k' (U+212A lowers to
    it), and no 'i' at the end or before U+0307 (U+0130 lowers to that
    pair). *)
Fixpoint plainPattern (p : jsstring) : bool :=
  match p with
  | [] => true
  | x :: p' =>
      (x <? 0x80) && negb (JS.between 0x41 0x5A x) && negb (x =? 0x6B)
      && (negb (x =? 0x69)
          || match p' with
             | y :: _ => negb (y =? 0x307)
             | [] => false
             end)
      && plainPattern p'
  end.

(** Subject and body as [parseMailto] reads them from a query string. *)
Definition queryFields (query : jsstring) : jsstring * jsstring :=
  match query with
  | [] => ([], [])
  | _ :: _ =>
      match URL.URLSearchParams query with
      | Ok params =>
          (orDefault (URL.get params (lit "subject"))
             (orDefault (URL.get params (lit "su")) []),
           orDefault (URL.get params (lit "body")) [])
      | Throw _ => ([], [])
      end
  end.

(** [parseMailto] once the address part has been decoded to [d]. *)
Definition requestFrom (d query : jsstring) : EmailRequest :=
  {| to := orElse (JS.trim d) DEFAULT_TO;
     subject := fst (queryFields query);
     body := snd (queryFields query) |}.

Definition noUnit (c : N) (s : jsstring) : bool :=
  forallb (fun x => negb (x =? c)) s.

(** What Encode writes for one scalar value. *)
Definition encodeScalar (cp : N) : jsstring :=
  if JS.uriUnreserved cp then [cp] else JS.escapeCodePoint cp.

(** The code units Encode can write: unreserved ones and '%'. *)
Definition safeUnit (c : N) : bool := JS.uriUnreserved c || (c =? 0x25).

Definition isAscii (s : jsstring) : bool := forallb (fun c => c <? 0x80) s.

(** A name or value of a query string: ASCII without '&'; a name has no
    '=' either. *)
Definition queryValue (v : jsstring) : bool := isAscii v && noUnit 0x26 v.
Definition queryName (k : jsstring) : bool := queryValue k && noUnit 0x3D k.

Definition queryPair (kv : jsstring * jsstring) : bool :=
  queryName (fst kv) && queryValue (snd kv).

Definition formDecodePair (kv : jsstring * jsstring) : jsstring * jsstring :=
  (formDecode (fst kv), formDecode (snd kv)).

(** What the UTF-8 decoder holds in the middle of a sequence: the bits
    read so far and the bounds of the next byte, by bytes needed and bytes
    seen. *)
Definition plainBounds (d : URL.decoder) : Prop :=
  URL.lowerBoundary d = 0x80 /\ URL.upperBoundary d = 0xBF.

Definition pending (d : URL.decoder) : Prop :=
  let cp := URL.codePoint d in
  match URL.bytesNeeded d, URL.bytesSeen d with
  | 1%nat, 0%nat => 2 <= cp < 0x20 /\ plainBounds d
  | 2%nat, 0%nat =>
      cp < 0x10
      /\ (URL.lowerBoundary d = if cp =? 0 then 0xA0 else 0x80)
      /\ (URL.upperBoundary d = if cp =? 13 then 0x9F else 0xBF)
  | 2%nat, 1%nat =>
      0x20 <= cp < 0x400 /\ ~ (0x360 <= cp <= 0x37F) /\ plainBounds d
  | 3%nat, 0%nat =>
      cp <= 4
      /\ (URL.lowerBoundary d = if cp =? 0 then 0x90 else 0x80)
      /\ (URL.upperBoundary d = if cp =? 4 then 0x8F else 0xBF)
  | 3%nat, 1%nat => 0x10 <= cp < 0x110 /\ plainBounds d
  | 3%nat, 2%nat => 0x400 <= cp < 0x4400 /\ plainBounds d
  | _, _ => False
  end.

Definition outcomeOk (o : URL.outcome) : Prop :=
  match o with
  | URL.Continue d => pending d
  | URL.CodePoint cp => isScalar cp = true
  | URL.Error => True
  end.

(** The string starts with a low surrogate. *)
Definition startsLow (s : jsstring) : bool :=
  match s with
  | d :: _ => JS.isLowSurrogate d
  | [] => false
  end.

(** A 16-bit code unit that is not a surrogate. *)
Definition plainUnit (c : N) : bool := (c <? 0x10000) && negb (JS.isSurrogate c).

(** What [parseMailto] returns for anything but a mailto href. *)
Definition emptyRequest : EmailRequest := {| to := []; subject := []; body := [] |}.

(** The byte sequence of a scalar value, by its length. *)
Inductive utf8Shape (cp : N) : list N -> Prop :=
| Shape1 : cp < 0x80 -> utf8Shape cp [cp]
| Shape2 a b :
    cp = a * 0x40 + b -> 2 <= a < 0x20 -> b < 0x40 ->
    utf8Shape cp [0xC0 + a; 0x80 + b]
| Shape3 a b c :
    cp = a * 0x1000 + b * 0x40 + c -> a < 0x10 -> b < 0x40 -> c < 0x40 ->
    0x800 <= cp -> (cp < 0xD800 \/ 0xDFFF < cp) ->
    utf8Shape cp [0xE0 + a; 0x80 + b; 0x80 + c]
| Shape4 a b c d :
    cp = a * 0x40000 + b * 0x1000 + c * 0x40 + d ->
    a <= 4 -> b < 0x40 -> c < 0x40 -> d < 0x40 ->
    0x10000 <= cp < 0x110000 ->
    utf8Shape cp [0xF0 + a; 0x80 + b; 0x80 + c; 0x80 + d].

(** ** The rest of the script: clicks, keys, the copy button and the toast *)

(** An element on the way from the target of a click up to the root, with
    the attributes the click handler reads. *)
Record element := {
  isAnchor : bool;
  hrefAttr : option jsstring;
  isTrigger : bool;
  dataEmail : option jsstring;
  dataSubject : option jsstring;
  dataBody : option jsstring
}.

(** [e.target.closest(selector)]: the path lists the target first, then
    its ancestors. *)
Definition closest (selector : element -> bool) (path : list element)
  : option element :=
  find selector path.

(** The selector [a[href^="mailto:"]]; the attribute value is compared as
    it is written, case and leading white space included. *)
Definition isMailtoAnchor (e : element) : bool :=
  isAnchor e
  && match hrefAttr e with
     | Some h => JS.startsWith h (lit "mailto:")
     | None => false
     end.

(** What a click comes to: whether [preventDefault] was called, and the
    page after the handler, or the error it threw. *)
Record clickOutcome := {
  defaultPrevented : bool;
  after : result document
}.

(** The handler of [document.addEventListener('click', ...)]. *)
Definition onClick (path : list element) (doc : document) : clickOutcome :=
  match closest isTrigger path with
  | Some t =>
      let to := orDefault (dataEmail t) DEFAULT_TO in
      let subject := orDefault (dataSubject t) [] in
      let body := orDefault (dataBody t) [] in
      {| defaultPrevented := true;
         after := openModal
                    (Some {| p_to := Some to; p_subject := Some subject;
                             p_body := Some body |}) doc |}
  | None =>
      match closest isMailtoAnchor path with
      | Some a =>
          {| defaultPrevented := true;
             after := onMailtoClick
                        match hrefAttr a with
                        | Some h => VString h
                        | None => VNull
                        end doc |}
      | None => {| defaultPrevented := false; after := Ok doc |}
      end
  end.

(** The handler of [keydown]. *)
Definition onKeydown (key : jsstring) (doc : document) : result document :=
  if eqs key (lit "Escape") then closeModal doc else Ok doc.

(** What can happen to the page: DOMContentLoaded, which creates the
    dialog, the calls of the public API, a key, a click.  A click first runs
    the listener of the control it hits (the backdrop and the close button
    close the dialog), then bubbles to the click handler of the document.
    The listeners of the keyboard, the backdrop and the close button are
    added by the handler of DOMContentLoaded: while [listening] is false a
    key does nothing and a click reaches the click handler of the document
    only, which is added when the script runs. *)
Inductive control := Backdrop | CloseButton | Elsewhere.

Inductive event :=
| Loaded
| ApiOpen (p : option payload)
| ApiClose
| Keydown (key : jsstring)
| Click (c : control) (path : list element).

Definition dispatch (listening : bool) (ev : event) (doc : document)
  : result document :=
  match ev with
  | Loaded => ensureModal doc
  | ApiOpen p => openModal p doc
  | ApiClose => closeModal doc
  | Keydown key => if listening then onKeydown key doc else Ok doc
  | Click c path =>
      let* doc := match c with
                  | Backdrop | CloseButton =>
                      if listening then closeModal doc else Ok doc
                  | Elsewhere => Ok doc
                  end in
      after (onClick path doc)
  end.

Definition listensAfter (ev : event) (listening : bool) : bool :=
  match ev with
  | Loaded => true
  | _ => listening
  end.

Fixpoint run (evs : list event) (listening : bool) (doc : document)
  : result (bool * document) :=
  match evs with
  | [] => Ok (listening, doc)
  | ev :: rest =>
      let* doc' := dispatch listening ev doc in
      run rest (listensAfter ev listening) doc'
  end.

(** The element [#wtEmailToast], and the page with what the copy button
    reaches: the toast, the timers of [showToast] that have not fired yet,
    the system clipboard and the prompts shown. *)
Record toastEl := {
  toastText : jsstring;
  toastClassList : list jsstring
}.

Record page := {
  dom : document;
  wtEmailToast : option toastEl;
  pendingTimers : nat;
  clipboard : option jsstring;
  prompts : list (jsstring * jsstring)
}.

Definition showToast (msg : jsstring) (pg : page) : page :=
  match getEls (dom pg), wtEmailToast pg with
  | Some _, Some t =>
      {| dom := dom pg;
         wtEmailToast := Some {| toastText := msg;
                                 toastClassList :=
                                   classListAdd (lit "show") (toastClassList t) |};
         pendingTimers := S (pendingTimers pg);
         clipboard := clipboard pg;
         prompts := prompts pg |}
  | _, _ => pg
  end.

(** One timer of [showToast] fires: its callback removes the class. *)
Definition timerFires (pg : page) : page :=
  match pendingTimers pg with
  | O => pg
  | S n =>
      {| dom := dom pg;
         wtEmailToast :=
           match wtEmailToast pg with
           | Some t => Some {| toastText := toastText t;
                               toastClassList :=
                                 classListRemove (lit "show") (toastClassList t) |}
           | None => None
           end;
         pendingTimers := n;
         clipboard := clipboard pg;
         prompts := prompts pg |}
  end.

(** The copy button, in its two halves: the address read when the button
    is clicked, and what runs once [navigator.clipboard.writeText] has
    settled, on the page as it is by then. *)
Definition copyEmail (doc : document) : jsstring :=
  match getEls doc with
  | Some els => orElse (toText els) []
  | None => []
  end.

Definition copySettled (written : bool) (email : jsstring) (pg : page) : page :=
  if written then
    showToast (lit "Copied")
      {| dom := dom pg; wtEmailToast := wtEmailToast pg;
         pendingTimers := pendingTimers pg;
         clipboard := Some email; prompts := prompts pg |}
  else
    {| dom := dom pg; wtEmailToast := wtEmailToast pg;
       pendingTimers := pendingTimers pg; clipboard := clipboard pg;
       prompts := prompts pg ++ [(lit "Copy this email address:", email)] |}.

(** ** Notions used to state further properties *)

(** The part of [s] before the first [c]. *)
Fixpoint upTo (c : N) (s : jsstring) : jsstring :=
  match s with
  | [] => []
  | x :: t => if x =? c then [] else x :: upTo c t
  end.

(** The part of [s] after the first [c]; empty when there is none. *)
Fixpoint afterFirst (c : N) (s : jsstring) : jsstring :=
  match s with
  | [] => []
  | x :: t => if x =? c then t else afterFirst c t
  end.

(** A click on this path is taken over by the click handler. *)
Definition intercepted (path : list element) : bool :=
  existsb isTrigger path || existsb isMailtoAnchor path.

(** The two-state machine of the dialog, with the flag that says whether
    the listeners of DOMContentLoaded are in place. *)
Definition nextState (ev : event) (st : bool * dialogState)
  : bool * dialogState :=
  let (listening, d) := st in
  (listensAfter ev listening,
   match ev with
   | Loaded => d
   | ApiOpen _ => OPEN
   | ApiClose => CLOSED
   | Keydown key => if listening && eqs key (lit "Escape") then CLOSED else d
   | Click c path =>
       if intercepted path then OPEN
       else match c with
            | Backdrop | CloseButton => if listening then CLOSED else d
            | Elsewhere => d
            end
   end).

(** [aria-hidden] says what the class list says. *)
Definition ariaConsistent (doc : document) : Prop :=
  match wtEmailModal doc with
  | Some m =>
      ariaHidden m = if existsb (eqs (lit "is-open")) (classList m)
                     then lit "false" else lit "true"
  | None => True
  end.

(** What URLSearchParams makes of a name or a value written in a query
    string, whatever its code units: the UTF-8 bytes of the text, with
    every '+' read as a space and every escape "%XX" as its byte, read
    back as UTF-8.  On ASCII text this is [formDecode]. *)
Definition formValue (v : jsstring) : jsstring :=
  URL.decodeComponent (URL.utf8Encode v).

Definition formValuePair (kv : jsstring * jsstring) : jsstring * jsstring :=
  (formValue (fst kv), formValue (snd kv)).

(** The UTF-8 bytes of a name and of a value. *)
Definition bytesPair (kv : jsstring * jsstring) : list N * list N :=
  (URL.utf8Encode (fst kv), URL.utf8Encode (snd kv)).

(** A pair that "name=value" between '&' stands for: no '&' in the name
    and in the value, no '=' in the name. *)
Definition delimited (kv : jsstring * jsstring) : bool :=
  noUnit 0x26 (fst kv) && noUnit 0x3D (fst kv) && noUnit 0x26 (snd kv).

(** A pair of a query string that can stand anywhere in it: delimited,
    the name does not start with '?' (URLSearchParams drops a leading
    '?'), and the value does not end in white space ([trim] drops it at
    the end of the link). *)
Definition tidyPair (kv : jsstring * jsstring) : bool :=
  delimited kv && negb (JS.startsWith (fst kv) [0x3F]) && endsClean (snd kv).

(** The names [parseMailto] asks URLSearchParams for. *)
Definition knownName (n : jsstring) : bool :=
  eqs n (lit "subject") || eqs n (lit "su") || eqs n (lit "body").

(** * Properties *)

(** ** Tactics *)

Ltac dlia := zify; Z.to_euclidean_division_equations; lia.

(** Turns the comparisons of the hypotheses and of the goal into
    propositions. *)
Ltac unbool :=
  unfold isScalar in *;
  unfold JS.isCont, JS.isHighSurrogate, JS.isLowSurrogate,
    JS.isSurrogate, JS.isDigit, JS.isAlpha in *;
  unfold JS.between in *;
  repeat match goal with
         | H : _ && _ = true |- _ => apply andb_true_iff in H; destruct H
         | H : _ || _ = false |- _ => apply orb_false_iff in H; destruct H
         | H : _ && _ = false |- _ => apply andb_false_iff in H; destruct H
         | H : _ || _ = true |- _ => apply orb_true_iff in H; destruct H
         | H : negb _ = true |- _ => apply negb_true_iff in H
         | H : negb _ = false |- _ => apply negb_false_iff in H
         | H : (_ <=? _) = true |- _ => apply N.leb_le in H
         | H : (_ <=? _) = false |- _ => apply N.leb_gt in H
         | H : (_ <? _) = true |- _ => apply N.ltb_lt in H
         | H : (_ <? _) = false |- _ => apply N.ltb_ge in H
         | H : (_ =? _) = true |- _ => apply N.eqb_eq in H
         | H : (_ =? _) = false |- _ => apply N.eqb_neq in H
         end.

(** Decides the comparisons under an [if] or a boolean connective of the
    goal, one at a time, by linear arithmetic. *)
Ltac decide_cmp :=
  repeat match goal with
         | |- context [?a <=? ?b] =>
             first [ replace (a <=? b) with true by (symmetry; apply N.leb_le; dlia)
                   | replace (a <=? b) with false by (symmetry; apply N.leb_gt; dlia) ]
         | |- context [?a <? ?b] =>
             first [ replace (a <? b) with true by (symmetry; apply N.ltb_lt; dlia)
                   | replace (a <? b) with false by (symmetry; apply N.ltb_ge; dlia) ]
         | |- context [?a =? ?b] =>
             first [ replace (a =? b) with true by (symmetry; apply N.eqb_eq; dlia)
                   | replace (a =? b) with false by (symmetry; apply N.eqb_neq; dlia) ]
         end.

(** Replaces the source literals of the goal by their code units. *)
Ltac lits :=
  repeat match goal with
         | |- context [lit ?s] =>
             let v := eval vm_compute in (lit s) in change (lit s) with v
         end.

(** ** Strings *)

Lemma eqs_refl (a : jsstring) : eqs a a = true.
Proof. induction a; simpl; [reflexivity | now rewrite N.eqb_refl]. Qed.

Lemma eqs_eq (a b : jsstring) : eqs a b = true <-> a = b.
Proof.
  split; [| intros ->; apply eqs_refl].
  revert b; induction a as [| x a IH]; destruct b as [| y b]; simpl; try easy.
  intros H; apply andb_true_iff in H as [H1 H2].
  apply N.eqb_eq in H1; subst; f_equal; auto.
Qed.

Lemma orElse_nil (s : jsstring) : orElse s [] = s.
Proof. now destruct s. Qed.

Lemma enc_eq (v : jsstring) : enc v = JS.Encode v.
Proof. unfold enc, JS.encodeURIComponent; now rewrite orElse_nil. Qed.

Lemma trimStart_clean (c : N) (s : jsstring) :
  JS.isWhiteSpace c = false -> JS.trimStart (c :: s) = c :: s.
Proof. intros H; simpl; now rewrite H. Qed.

Lemma trimEnd_clean (s : jsstring) :
  endsClean s = true -> JS.trimEnd s = s.
Proof.
  unfold endsClean, JS.trimEnd; intros H.
  destruct (rev s) as [| c r] eqn:E.
  - simpl. apply (f_equal (@rev N)) in E; rewrite rev_involutive in E; now subst.
  - apply negb_true_iff in H. rewrite trimStart_clean by assumption.
    transitivity (rev (rev s)); [now rewrite E | apply rev_involutive].
Qed.

Lemma endsClean_app (a b : jsstring) :
  b <> [] -> endsClean b = true -> endsClean (a ++ b) = true.
Proof.
  unfold endsClean; intros Hb H. rewrite rev_app_distr.
  destruct (rev b) as [| c r] eqn:E; [| exact H].
  apply (f_equal (@rev N)) in E; rewrite rev_involutive in E; now subst.
Qed.

Lemma trim_clean (c : N) (s : jsstring) :
  JS.isWhiteSpace c = false -> endsClean (c :: s) = true ->
  JS.trim (c :: s) = c :: s.
Proof.
  intros Hc He; unfold JS.trim.
  rewrite trimStart_clean by assumption. now apply trimEnd_clean.
Qed.

Lemma indexOf_range (s : jsstring) (c : N) :
  (-1 <= JS.indexOf s c)%Z.
Proof.
  induction s as [| x s IH]; simpl; [lia |].
  destruct (x =? c); [lia |].
  destruct (Z.ltb_spec (JS.indexOf s c) 0); lia.
Qed.

Lemma indexOf_absent (s : jsstring) (c : N) :
  forallb (fun x => negb (x =? c)) s = true -> JS.indexOf s c = (-1)%Z.
Proof.
  induction s as [| x s IH]; simpl; [reflexivity |].
  intros H; apply andb_true_iff in H as [H1 H2].
  apply negb_true_iff in H1; rewrite H1, (IH H2); reflexivity.
Qed.

Lemma indexOf_first (a b : jsstring) (c : N) :
  forallb (fun x => negb (x =? c)) a = true ->
  JS.indexOf (a ++ c :: b) c = Z.of_nat (length a).
Proof.
  induction a as [| x a IH]; simpl.
  - now rewrite N.eqb_refl.
  - intros H; apply andb_true_iff in H as [H1 H2].
    apply negb_true_iff in H1; rewrite H1, (IH H2).
    destruct (Z.ltb_spec (Z.of_nat (length a)) 0); lia.
Qed.

Lemma slice_from (a b : jsstring) :
  JS.slice (a ++ b) (Z.of_nat (length a)) None = b.
Proof.
  unfold JS.slice, JS.clampIndex. rewrite length_app.
  destruct (Z.ltb_spec (Z.of_nat (length a)) 0); [lia |].
  rewrite Z.min_l by lia. rewrite Nat2Z.id, skipn_app, skipn_all.
  rewrite Nat.sub_diag; simpl.
  apply firstn_all2; lia.
Qed.

Lemma slice_upto (a b : jsstring) :
  JS.slice (a ++ b) 0 (Some (Z.of_nat (length a))) = a.
Proof.
  unfold JS.slice, JS.clampIndex. rewrite length_app; simpl.
  destruct (Z.ltb_spec (Z.of_nat (length a)) 0); [lia |].
  rewrite Z.min_l by lia. rewrite Z.min_l by lia.
  rewrite Z.sub_0_r, Z.max_l by lia. rewrite Nat2Z.id.
  change (Z.to_nat 0) with 0%nat; rewrite skipn_O.
  rewrite firstn_app, firstn_all, Nat.sub_diag; simpl. apply app_nil_r.
Qed.

(** ** The prefix test of [parseMailto] *)

Lemma startsWith_lower_step (c x : N) (s p : jsstring) :
  plainPattern (x :: p) = true ->
  JS.startsWith (JS.toLowerCase (c :: s)) (x :: p)
  = sameLetter c x && JS.startsWith (JS.toLowerCase s) p.
Proof.
  simpl plainPattern; intros H.
  repeat (apply andb_true_iff in H; destruct H as [H ?]).
  unfold JS.toLowerCase; simpl flat_map; fold (JS.toLowerCase s).
  unfold JS.lowerUnit, sameLetter.
  assert (Hx : forall k, 128 <= k -> (k =? x) = false)
    by (intros k Hk; apply N.eqb_neq; apply N.ltb_lt in H; lia).
  destruct (JS.between 65 90 c) eqn:Eu; cbn [app JS.startsWith orb andb].
  - replace (c =? x) with false; [reflexivity |].
    symmetry; apply N.eqb_neq; intros E; subst.
    rewrite Eu in *; discriminate.
  - rewrite orb_false_r.
    destruct (N.eqb_spec c 0x130) as [-> | N1];
      [| destruct (N.eqb_spec c 0x212A) as [-> | N2]];
      cbn [app JS.startsWith];
      rewrite ?(Hx 0x130), ?(Hx 0x212A) by lia; cbn [andb]; try reflexivity.
    + destruct (N.eqb_spec 0x69 x) as [<- | N2]; [| reflexivity].
      destruct p as [| y p]; [discriminate |].
      cbn [JS.startsWith andb].
      rewrite N.eqb_refl in H1; cbn [negb orb] in H1.
      apply negb_true_iff in H1. rewrite N.eqb_sym, H1. reflexivity.
    + apply negb_true_iff in H2. rewrite N.eqb_sym, H2. reflexivity.
Qed.

Lemma plainPattern_tail (x : N) (p : jsstring) :
  plainPattern (x :: p) = true -> plainPattern p = true.
Proof. simpl; intros H; now apply andb_true_iff in H as [_ H]. Qed.

(** Lower-casing and comparing with a plain pattern is comparing up to the
    case of ASCII letters. *)
Lemma startsWith_lower (p s : jsstring) :
  plainPattern p = true ->
  JS.startsWith (JS.toLowerCase s) p = startsWithCI s p.
Proof.
  revert s; induction p as [| x p IH]; intros s Hp.
  - reflexivity.
  - destruct s as [| c s]; [reflexivity |].
    rewrite startsWith_lower_step by assumption.
    simpl startsWithCI. f_equal. apply IH. eapply plainPattern_tail; eauto.
Qed.

Lemma mailto_prefix_test (s : jsstring) :
  JS.startsWith (JS.toLowerCase s) (lit "mailto:") = startsWithCI s (lit "mailto:").
Proof. now apply startsWith_lower. Qed.

(** ** The shape of [parseMailto] *)

Lemma parseMailto_not_mailto (s : jsstring) :
  startsWithCI (JS.trim s) (lit "mailto:") = false ->
  parseMailto (VString s) = Ok emptyRequest.
Proof.
  intros H. destruct s as [| c s]; [reflexivity |].
  unfold parseMailto. now rewrite mailto_prefix_test, H.
Qed.

Lemma startsWithCI_app (p rest pat : jsstring) :
  startsWithCI p pat = true -> startsWithCI (p ++ rest) pat = true.
Proof.
  revert p; induction pat as [| x pat IH]; intros p H; [reflexivity |].
  destruct p as [| c p]; [discriminate |]. cbn [app startsWithCI] in *.
  apply andb_true_iff in H as [H1 H2]. now rewrite H1, IH.
Qed.

Lemma parseMailto_rest (s p rest : jsstring) :
  JS.trim s = p ++ rest -> length p = 7%nat ->
  startsWithCI p (lit "mailto:") = true ->
  parseMailto (VString s)
  = let qIndex := JS.indexOf rest 0x3F in
    let toPart := if (0 <=? qIndex)%Z
                  then JS.slice rest 0 (Some qIndex) else rest in
    let query := if (0 <=? qIndex)%Z
                 then JS.slice rest (qIndex + 1) None else [] in
    let* d := JS.decodeURIComponent toPart in
    Ok (requestFrom d query).
Proof.
  intros H L C. destruct s as [| c s]; [now destruct p |].
  unfold parseMailto. rewrite mailto_prefix_test, H.
  rewrite startsWithCI_app by assumption.
  cbv beta iota zeta delta [negb].
  change 7%Z with (Z.of_nat 7). rewrite <- L, slice_from.
  rewrite orElse_nil.
  destruct (JS.decodeURIComponent _) as [d | e]; [| reflexivity].
  unfold bind, requestFrom, queryFields.
  destruct (if (0 <=? JS.indexOf rest 0x3F%N)%Z then _ else _) as [| q query];
    [reflexivity |].
  unfold URL.URLSearchParams; reflexivity.
Qed.

Lemma trim_mailto (X : jsstring) :
  endsClean X = true ->
  JS.trim (lit "mailto:" ++ X) = lit "mailto:" ++ X.
Proof.
  intros H.
  change (lit "mailto:" ++ X) with (109 :: (lit "ailto:" ++ X)).
  apply trim_clean; [reflexivity |].
  destruct X as [| x X]; [reflexivity |].
  change (109 :: lit "ailto:" ++ x :: X) with (lit "mailto:" ++ x :: X).
  apply endsClean_app; [discriminate | assumption].
Qed.

(** "mailto:" ++ A, without a query. *)
Lemma parseMailto_address (A : jsstring) :
  noUnit 0x3F A = true ->
  endsClean A = true ->
  parseMailto (VString (lit "mailto:" ++ A))
  = let* d := JS.decodeURIComponent A in Ok (requestFrom d []).
Proof.
  intros HA Hc.
  rewrite (parseMailto_rest _ (lit "mailto:") A)
    by (reflexivity || now apply trim_mailto).
  cbv zeta. now rewrite indexOf_absent.
Qed.

(** "mailto:" ++ A ++ "?" ++ Q. *)
Lemma parseMailto_query (A Q : jsstring) :
  noUnit 0x3F A = true ->
  endsClean (0x3F :: Q) = true ->
  parseMailto (VString (lit "mailto:" ++ A ++ 0x3F :: Q))
  = let* d := JS.decodeURIComponent A in Ok (requestFrom d Q).
Proof.
  intros HA Hc.
  rewrite (parseMailto_rest _ (lit "mailto:") (A ++ 0x3F :: Q)); try reflexivity.
  - cbv zeta. rewrite indexOf_first by assumption.
    destruct (Z.leb_spec 0 (Z.of_nat (length A))); [| lia].
    rewrite slice_upto.
    replace (A ++ 0x3F :: Q) with ((A ++ [0x3F]) ++ Q) by now rewrite <- app_assoc.
    replace (Z.of_nat (length A) + 1)%Z with (Z.of_nat (length (A ++ [0x3F])))
      by (rewrite length_app; simpl; lia).
    now rewrite slice_from.
  - apply trim_mailto, endsClean_app; [discriminate | assumption].
Qed.

(** ** Hexadecimal escapes *)

Lemma hexValue_hexDigit (h : N) : h < 16 -> JS.hexValue (JS.hexDigit h) = Some h.
Proof.
  intros H. unfold JS.hexValue, JS.hexDigit, JS.isDigit, JS.between.
  destruct (N.ltb_spec h 10); decide_cmp; cbn [andb]; f_equal; lia.
Qed.

Lemma ParseHexOctet_escape (b : N) :
  b < 256 -> JS.ParseHexOctet (JS.hexDigit (b / 16)) (JS.hexDigit (b mod 16)) = Some b.
Proof.
  intros H. unfold JS.ParseHexOctet.
  rewrite !hexValue_hexDigit by dlia. f_equal. dlia.
Qed.

Lemma hexDigit_unreserved (h : N) : h < 16 -> JS.uriUnreserved (JS.hexDigit h) = true.
Proof.
  intros H. unfold JS.uriUnreserved, JS.hexDigit, JS.isAlpha, JS.isDigit, JS.between.
  destruct (N.ltb_spec h 10); decide_cmp; reflexivity.
Qed.

Lemma uriUnreserved_ascii (c : N) : JS.uriUnreserved c = true -> c < 0x80.
Proof.
  unfold JS.uriUnreserved; intros H.
  apply orb_true_iff in H as [H | H]; [apply orb_true_iff in H as [H | H] |].
  - unfold JS.isAlpha in H. apply orb_true_iff in H as [H | H]; unbool; lia.
  - unbool; lia.
  - vm_compute lit in H. cbn [existsb] in H.
    repeat (apply orb_true_iff in H as [H | H]; [apply N.eqb_eq in H; lia |]).
    discriminate.
Qed.

Lemma length_escapes (bs : list N) :
  length (flat_map JS.escape bs) = (3 * length bs)%nat.
Proof. induction bs; simpl; lia. Qed.

Lemma readEscapes_escapes (bs : list N) (r : jsstring) :
  Forall (fun b => b < 256) bs ->
  JS.readEscapes (length bs) (flat_map JS.escape bs ++ r) = Some bs.
Proof.
  induction 1 as [| b bs Hb _ IH]; [reflexivity |].
  cbn [length flat_map JS.escape app JS.readEscapes].
  rewrite N.eqb_refl, ParseHexOctet_escape, IH by assumption. reflexivity.
Qed.

Lemma readEscapes_first (b : N) (r : jsstring) :
  b < 256 -> JS.readEscapes 1 (JS.escape b ++ r) = Some [b].
Proof.
  intros H. cbn [JS.escape app JS.readEscapes].
  now rewrite N.eqb_refl, ParseHexOctet_escape.
Qed.

Lemma DecodeFrom_skip (p s : jsstring) (k : nat) :
  JS.DecodeFrom (length p + k) (p ++ s) = JS.DecodeFrom k s.
Proof.
  induction p as [| c p IH]; [reflexivity | exact IH].
Qed.

(** ** UTF-8 *)

Lemma utf8_shape (cp : N) : isScalar cp = true -> utf8Shape cp (JS.utf8 cp).
Proof.
  intros H; unfold JS.utf8; unbool.
  all: destruct (N.ltb_spec cp 0x80); [now constructor |].
  all: destruct (N.ltb_spec cp 0x800); [apply Shape2; dlia |].
  all: destruct (N.ltb_spec cp 0x10000); [apply Shape3; dlia |].
  all: apply Shape4; dlia.
Qed.

Lemma utf8_bytes (cp : N) :
  isScalar cp = true -> Forall (fun b => b < 256) (JS.utf8 cp).
Proof.
  intros H; destruct (utf8_shape cp H); repeat constructor; lia.
Qed.

Lemma utf8Value_utf8 (cp : N) :
  isScalar cp = true -> JS.utf8Value (JS.utf8 cp) = Some cp.
Proof.
  intros H; destruct (utf8_shape cp H); unfold JS.utf8Value, JS.isCont, JS.between.
  - now replace (cp <? 0x80) with true by (symmetry; apply N.ltb_lt; lia).
  - decide_cmp. cbn [andb]. f_equal; lia.
  - destruct (N.eqb_spec (0xE0 + a) 0xE0), (N.eqb_spec (0xE0 + a) 0xED);
      decide_cmp; cbn [andb]; f_equal; lia.
  - destruct (N.eqb_spec (0xF0 + a) 0xF0), (N.eqb_spec (0xF0 + a) 0xF4);
      decide_cmp; cbn [andb]; f_equal; lia.
Qed.

Lemma leadingOnes_utf8 (cp : N) :
  isScalar cp = true ->
  match JS.utf8 cp with
  | b0 :: _ =>
      JS.leadingOnes b0 = if cp <? 0x80 then 0%nat else length (JS.utf8 cp)
  | [] => False
  end.
Proof.
  intros H; destruct (utf8_shape cp H); unfold JS.leadingOnes; decide_cmp; reflexivity.
Qed.

Lemma readEscapes_head (b : N) (bs : list N) (r : jsstring) :
  b < 256 -> JS.readEscapes 1 (flat_map JS.escape (b :: bs) ++ r) = Some [b].
Proof.
  intros H. cbn [flat_map]. rewrite <- app_assoc. now apply readEscapes_first.
Qed.

(** ** UTF-16 *)

Lemma utf16_bmp (c : N) : c < 0x10000 -> JS.utf16 c = [c].
Proof. intros H; unfold JS.utf16; now decide_cmp. Qed.

Lemma utf16_pair (hi lo : N) :
  JS.isHighSurrogate hi = true -> JS.isLowSurrogate lo = true ->
  JS.utf16 (JS.pairToCodePoint hi lo) = [hi; lo].
Proof.
  intros H1 H2; unbool. unfold JS.utf16, JS.pairToCodePoint.
  decide_cmp. repeat f_equal; dlia.
Qed.

Lemma pair_scalar (hi lo : N) :
  JS.isHighSurrogate hi = true -> JS.isLowSurrogate lo = true ->
  isScalar (JS.pairToCodePoint hi lo) = true.
Proof.
  intros H1 H2; unbool. unfold isScalar, JS.isSurrogate, JS.between, JS.pairToCodePoint.
  decide_cmp. reflexivity.
Qed.

Lemma pair_of_utf16 (cp : N) :
  isScalar cp = true -> 0x10000 <= cp ->
  exists hi lo, JS.utf16 cp = [hi; lo]
    /\ JS.isHighSurrogate hi = true /\ JS.isLowSurrogate lo = true
    /\ JS.pairToCodePoint hi lo = cp.
Proof.
  intros H1 H2. unfold JS.utf16. decide_cmp.
  eexists _, _; split; [reflexivity |].
  unbool; unfold JS.isHighSurrogate, JS.isLowSurrogate, JS.between, JS.pairToCodePoint.
  all: repeat split; decide_cmp; try reflexivity; dlia.
Qed.

(** ** Decode after Encode *)

Lemma decodeEscape_scalar (cp : N) (r : jsstring) :
  isScalar cp = true ->
  JS.decodeEscape (JS.escapeCodePoint cp ++ r)
  = Ok (JS.utf16 cp, (3 * length (JS.utf8 cp))%nat).
Proof.
  intros H. unfold JS.decodeEscape, JS.escapeCodePoint.
  pose proof (utf8Value_utf8 cp H) as HV.
  pose proof (utf8_bytes cp H) as HB.
  pose proof (leadingOnes_utf8 cp H) as HL.
  pose proof (readEscapes_escapes (JS.utf8 cp) r HB) as HR.
  destruct (JS.utf8 cp) as [| b0 bs] eqn:E; [contradiction |].
  rewrite readEscapes_head by (now inversion HB).
  rewrite HL. destruct (N.ltb_spec cp 0x80) as [Hlt | Hge].
  - unfold JS.utf8 in E. replace (cp <? 0x80) with true in E
      by (symmetry; now apply N.ltb_lt).
    injection E as <- <-. rewrite utf16_bmp by lia. reflexivity.
  - assert (2 <= length (b0 :: bs) <= 4)%nat as Hn.
    { rewrite <- E. destruct (utf8_shape cp H); cbn [length]; lia. }
    rewrite HR, HV.
    destruct (length (b0 :: bs)) as [| [| [| [| [| n]]]]]; try lia; reflexivity.
Qed.

Lemma escapeCodePoint_cons (cp : N) :
  isScalar cp = true ->
  exists t, JS.escapeCodePoint cp = 0x25 :: t
            /\ length t = (3 * length (JS.utf8 cp) - 1)%nat.
Proof.
  intros H. unfold JS.escapeCodePoint.
  pose proof (leadingOnes_utf8 cp H) as HL.
  destruct (JS.utf8 cp) as [| b0 bs]; [contradiction |].
  cbn [flat_map JS.escape app]. eexists; split; [reflexivity |].
  cbn [length]. rewrite length_escapes. lia.
Qed.

Lemma Decode_escapeCodePoint (cp : N) (r : jsstring) :
  isScalar cp = true ->
  JS.DecodeFrom 0 (JS.escapeCodePoint cp ++ r)
  = let* x := JS.DecodeFrom 0 r in Ok (JS.utf16 cp ++ x).
Proof.
  intros H.
  pose proof (decodeEscape_scalar cp r H) as HD.
  destruct (escapeCodePoint_cons cp H) as (t & Et & Lt).
  rewrite Et in *. cbn [app JS.DecodeFrom]. rewrite N.eqb_refl.
  cbn [app] in HD. rewrite HD. cbn [bind fst snd].
  rewrite <- Lt, <- (Nat.add_0_r (length t)), DecodeFrom_skip.
  reflexivity.
Qed.

Lemma unreserved_not_percent (c : N) : JS.uriUnreserved c = true -> (c =? 0x25) = false.
Proof.
  intros H. apply N.eqb_neq; intros ->. discriminate.
Qed.

Lemma Decode_scalars (cps : list N) :
  Forall (fun cp => isScalar cp = true) cps ->
  JS.Decode (flat_map encodeScalar cps) = Ok (flat_map JS.utf16 cps).
Proof.
  unfold JS.Decode. induction 1 as [| cp cps Hcp _ IH]; [reflexivity |].
  cbn [flat_map]. unfold encodeScalar at 1.
  destruct (JS.uriUnreserved cp) eqn:U.
  - cbn [app JS.DecodeFrom]. rewrite (unreserved_not_percent _ U), IH.
    cbn [bind]. rewrite utf16_bmp by (apply uriUnreserved_ascii in U; lia).
    reflexivity.
  - rewrite Decode_escapeCodePoint, IH by assumption. reflexivity.
Qed.

Lemma Encode_scalars (cps : list N) :
  Forall (fun cp => isScalar cp = true) cps ->
  JS.Encode (flat_map JS.utf16 cps) = Ok (flat_map encodeScalar cps).
Proof.
  induction 1 as [| cp cps Hcp _ IH]; [reflexivity |].
  cbn [flat_map]. unfold encodeScalar at 1.
  destruct (N.ltb_spec cp 0x10000) as [Hlt | Hge].
  - rewrite utf16_bmp by assumption. cbn [app JS.Encode].
    destruct (JS.uriUnreserved cp); [now rewrite IH |].
    unfold isScalar, JS.isSurrogate, JS.between in Hcp.
    unfold JS.isHighSurrogate, JS.isLowSurrogate, JS.between.
    destruct (N.leb_spec 0xD800 cp), (N.leb_spec cp 0xDBFF),
      (N.leb_spec 0xDC00 cp), (N.leb_spec cp 0xDFFF);
      cbn [andb]; try (now rewrite IH); exfalso; unbool; lia.
  - destruct (pair_of_utf16 cp Hcp Hge) as (hi & lo & E & Hhi & Hlo & Ecp).
    rewrite E. cbn [app JS.Encode].
    replace (JS.uriUnreserved hi) with false.
    + rewrite Hhi, Hlo, IH, Ecp. cbn [bind].
      replace (JS.uriUnreserved cp) with false; [reflexivity |].
      symmetry; apply not_true_iff_false; intros U.
      apply uriUnreserved_ascii in U; lia.
    + symmetry; apply not_true_iff_false; intros U.
      apply uriUnreserved_ascii in U; unbool; lia.
Qed.

(** ** Well-formed strings are sequences of scalar values *)

Lemma wellFormed_scalars_upto (n : nat) (s : jsstring) :
  (length s <= n)%nat -> wellFormed s = true ->
  Forall (fun cp => isScalar cp = true) (URL.scalarValues s)
  /\ flat_map JS.utf16 (URL.scalarValues s) = s.
Proof.
  revert s; induction n as [| n IH]; intros [| c t] Hn Hw; cbn [length] in Hn;
    try lia; try (split; [constructor | reflexivity]).
  cbn [wellFormed URL.scalarValues] in *.
  destruct (JS.isHighSurrogate c) eqn:Hh.
  - destruct t as [| d t']; [discriminate |].
    apply andb_true_iff in Hw as [Hl Hw]. rewrite Hl.
    destruct (IH t') as [F E]; [cbn [length] in Hn; lia | assumption |].
    split; [constructor; [now apply pair_scalar | assumption] |].
    cbn [flat_map]. rewrite utf16_pair, E by assumption. reflexivity.
  - apply andb_true_iff in Hw as [Hc Hw]. apply andb_true_iff in Hc as [Hl Hc].
    apply negb_true_iff in Hl. rewrite Hl.
    destruct (IH t) as [F E]; [lia | assumption |].
    split.
    + constructor; [| assumption]. unbool; unfold isScalar, JS.isSurrogate, JS.between.
      all: try (exfalso; lia); decide_cmp; reflexivity.
    + cbn [flat_map]. rewrite utf16_bmp, E by (unbool; lia). reflexivity.
Qed.

Lemma wellFormed_scalars (s : jsstring) :
  wellFormed s = true ->
  Forall (fun cp => isScalar cp = true) (URL.scalarValues s)
  /\ flat_map JS.utf16 (URL.scalarValues s) = s.
Proof. now apply (wellFormed_scalars_upto (length s)). Qed.

(** Encode succeeds on every well-formed string. *)
Lemma Encode_wellFormed (s : jsstring) :
  wellFormed s = true ->
  JS.Encode s = Ok (flat_map encodeScalar (URL.scalarValues s)).
Proof.
  intros H; destruct (wellFormed_scalars s H) as [F E].
  rewrite <- E at 1. now apply Encode_scalars.
Qed.

(** One decoding undoes one encoding. *)
Lemma Decode_Encode (s e : jsstring) :
  wellFormed s = true -> JS.Encode s = Ok e -> JS.Decode e = Ok s.
Proof.
  intros H He. rewrite Encode_wellFormed in He by assumption.
  injection He as <-. destruct (wellFormed_scalars s H) as [F E].
  rewrite Decode_scalars by assumption. now rewrite E.
Qed.

Lemma escape_safe (b : N) : b < 256 -> forallb safeUnit (JS.escape b) = true.
Proof.
  intros H. cbn [JS.escape forallb]. unfold safeUnit at 1.
  unfold safeUnit. rewrite !hexDigit_unreserved by dlia. reflexivity.
Qed.

Lemma escapes_safe (bs : list N) :
  Forall (fun b => b < 256) bs -> forallb safeUnit (flat_map JS.escape bs) = true.
Proof.
  induction 1 as [| b bs Hb _ IH]; [reflexivity |].
  cbn [flat_map]. rewrite forallb_app, escape_safe, IH by assumption. reflexivity.
Qed.

Lemma encodeScalar_safe (cp : N) :
  isScalar cp = true -> forallb safeUnit (encodeScalar cp) = true.
Proof.
  intros H. unfold encodeScalar. destruct (JS.uriUnreserved cp) eqn:U.
  - cbn [forallb]. unfold safeUnit. now rewrite U.
  - apply escapes_safe, utf8_bytes, H.
Qed.

Lemma Encode_safe (s e : jsstring) :
  wellFormed s = true -> JS.Encode s = Ok e -> forallb safeUnit e = true.
Proof.
  intros H He. rewrite Encode_wellFormed in He by assumption.
  injection He as <-. destruct (wellFormed_scalars s H) as [F _].
  induction F as [| cp cps Hcp _ IH]; [reflexivity |].
  cbn [flat_map]. rewrite forallb_app, encodeScalar_safe, IH by assumption. reflexivity.
Qed.

Lemma Encode_nonEmpty (s e : jsstring) :
  JS.Encode s = Ok e -> nonEmpty e = nonEmpty s.
Proof.
  destruct s as [| c t]; cbn [JS.Encode]; [now intros [= <-] |].
  assert (forall b r, nonEmpty (JS.escape b ++ r) = true) as Hesc by reflexivity.
  assert (forall cp r, nonEmpty (JS.escapeCodePoint cp ++ r) = true) as Hcp.
  { intros cp r. unfold JS.escapeCodePoint, JS.utf8.
    repeat match goal with |- context [if ?b then _ else _] => destruct b end;
      reflexivity. }
  destruct (JS.uriUnreserved c).
  - destruct (JS.Encode t); cbn [bind]; [now intros [= <-] | discriminate].
  - destruct (JS.isHighSurrogate c).
    + destruct t as [| d t']; [discriminate |].
      destruct (JS.isLowSurrogate d); [| discriminate].
      destruct (JS.Encode t'); cbn [bind]; [intros [= <-]; apply Hcp | discriminate].
    + destruct (JS.isLowSurrogate c); [discriminate |].
      destruct (JS.Encode t); cbn [bind]; [intros [= <-]; apply Hcp | discriminate].
Qed.

(** ** The UTF-8 decoder of URLSearchParams *)

Lemma land_ones_mod (x : N) (k : N) : N.land x (N.ones k) = x mod 2 ^ k.
Proof. apply N.land_ones. Qed.

Lemma lor_shiftl6 (a b : N) :
  N.lor (N.shiftl a 6) (N.land b 0x3F) = a * 64 + b mod 64.
Proof.
  change 0x3F with (N.ones 6). rewrite N.land_ones, N.shiftl_mul_pow2.
  change (2 ^ 6) with 64.
  rewrite <- N.lxor_lor, <- N.add_nocarry_lxor; auto.
  all: apply N.bits_inj_0; intros n; rewrite N.land_spec;
    change 64 with (2 ^ 6);
    destruct (N.lt_ge_cases n 6) as [Hn | Hn];
    [ rewrite N.mul_pow2_bits_low by assumption; reflexivity
    | rewrite N.mod_pow2_bits_high by assumption; apply andb_false_r ].
Qed.

Ltac decoder_step :=
  cbn [URL.decode URL.emit URL.bytesNeeded URL.bytesSeen URL.codePoint
       URL.lowerBoundary URL.upperBoundary URL.initial Nat.eqb app].

Lemma lead_ascii (b : N) : b < 0x80 -> URL.lead b = URL.CodePoint b.
Proof. intros H; unfold URL.lead, JS.between; now decide_cmp. Qed.

Lemma lead_two (a : N) :
  2 <= a < 0x20 ->
  URL.lead (0xC0 + a)
  = URL.Continue {| URL.codePoint := a; URL.bytesSeen := 0; URL.bytesNeeded := 1;
                    URL.lowerBoundary := 0x80; URL.upperBoundary := 0xBF |}.
Proof.
  intros H; unfold URL.lead, JS.between; decide_cmp; cbn [andb].
  change 0x1F with (N.ones 5); rewrite land_ones_mod.
  do 2 f_equal. change (2 ^ 5) with 32. dlia.
Qed.

Lemma lead_three (a : N) :
  a < 0x10 ->
  URL.lead (0xE0 + a)
  = URL.Continue {| URL.codePoint := a; URL.bytesSeen := 0; URL.bytesNeeded := 2;
                    URL.lowerBoundary := if a =? 0 then 0xA0 else 0x80;
                    URL.upperBoundary := if a =? 13 then 0x9F else 0xBF |}.
Proof.
  intros H; unfold URL.lead, JS.between.
  destruct (N.eqb_spec a 0), (N.eqb_spec a 13); try lia; decide_cmp; cbn [andb].
  all: change 0xF with (N.ones 4); rewrite land_ones_mod; change (2 ^ 4) with 16.
  all: do 2 f_equal; dlia.
Qed.

Lemma lead_four (a : N) :
  a <= 4 ->
  URL.lead (0xF0 + a)
  = URL.Continue {| URL.codePoint := a; URL.bytesSeen := 0; URL.bytesNeeded := 3;
                    URL.lowerBoundary := if a =? 0 then 0x90 else 0x80;
                    URL.upperBoundary := if a =? 4 then 0x8F else 0xBF |}.
Proof.
  intros H; unfold URL.lead, JS.between.
  destruct (N.eqb_spec a 0), (N.eqb_spec a 4); try lia; decide_cmp; cbn [andb].
  all: change 0x7 with (N.ones 3); rewrite land_ones_mod; change (2 ^ 3) with 8.
  all: do 2 f_equal; dlia.
Qed.

Lemma trail_value (x b : N) :
  b < 0x40 ->
  N.lor (N.shiftl x 6) (N.land (0x80 + b) 0x3F) = x * 64 + b.
Proof. intros H. rewrite lor_shiftl6. dlia. Qed.

(** The decoder reads back the bytes of one scalar value. *)
Lemma decode_utf8 (cp : N) (rest : list N) :
  isScalar cp = true ->
  URL.decode URL.initial (JS.utf8 cp ++ rest) = cp :: URL.decode URL.initial rest.
Proof.
  intros H. destruct (utf8_shape cp H) as [H1 | a b E Ha Hb | a b c E Ha Hb Hc Hlo Hs
                                             | a b c d E Ha Hb Hc Hd Hr].
  - decoder_step. now rewrite lead_ascii.
  - decoder_step. rewrite lead_two by assumption. decoder_step.
    unfold JS.between; decide_cmp; cbn [andb].
    unfold URL.trail; decoder_step. rewrite trail_value by assumption.
    decoder_step. f_equal. lia.
  - decoder_step. rewrite lead_three by assumption. decoder_step.
    unfold JS.between.
    destruct (N.eqb_spec a 0), (N.eqb_spec a 13); try lia; decide_cmp; cbn [andb].
    all: unfold URL.trail; decoder_step; rewrite trail_value by assumption.
    all: decoder_step; unfold JS.between; decide_cmp; cbn [andb].
    all: unfold URL.trail; decoder_step; rewrite trail_value by assumption.
    all: decoder_step; f_equal; lia.
  - decoder_step. rewrite lead_four by assumption. decoder_step.
    unfold JS.between.
    destruct (N.eqb_spec a 0), (N.eqb_spec a 4); try lia; decide_cmp; cbn [andb].
    all: unfold URL.trail; decoder_step; rewrite trail_value by assumption.
    all: decoder_step; unfold JS.between; decide_cmp; cbn [andb].
    all: unfold URL.trail; decoder_step; rewrite trail_value by assumption.
    all: decoder_step; unfold JS.between; decide_cmp; cbn [andb].
    all: unfold URL.trail; decoder_step; rewrite trail_value by assumption.
    all: decoder_step; f_equal; lia.
Qed.

Lemma decode_scalars (cps : list N) :
  Forall (fun cp => isScalar cp = true) cps ->
  URL.decode URL.initial (flat_map JS.utf8 cps) = cps.
Proof.
  induction 1 as [| cp cps Hcp _ IH]; [reflexivity |].
  cbn [flat_map]. rewrite decode_utf8, IH by assumption. reflexivity.
Qed.

(** ** Form decoding *)

Lemma scalarValues_ascii (s : jsstring) :
  isAscii s = true -> URL.scalarValues s = s.
Proof.
  unfold isAscii. induction s as [| c t IH]; [reflexivity |].
  cbn [forallb URL.scalarValues]; intros H.
  apply andb_true_iff in H as [Hc Ht]. apply N.ltb_lt in Hc.
  unfold JS.isHighSurrogate, JS.isLowSurrogate, JS.between.
  decide_cmp. cbn [andb]. now rewrite IH.
Qed.

Lemma utf8_ascii (s : jsstring) :
  isAscii s = true -> flat_map JS.utf8 s = s.
Proof.
  unfold isAscii. induction s as [| c t IH]; [reflexivity |].
  cbn [forallb flat_map]; intros H.
  apply andb_true_iff in H as [Hc Ht].
  unfold JS.utf8 at 1. rewrite Hc, IH by assumption. reflexivity.
Qed.

Lemma utf8Encode_ascii (s : jsstring) :
  isAscii s = true -> URL.utf8Encode s = s.
Proof.
  intros H. unfold URL.utf8Encode. rewrite scalarValues_ascii by assumption.
  now apply utf8_ascii.
Qed.



Lemma percentDecode_escapes (bs r : list N) :
  Forall (fun b => b < 256) bs ->
  URL.percentDecode (flat_map JS.escape bs ++ r) = bs ++ URL.percentDecode r.
Proof.
  induction 1 as [| b bs Hb _ IH]; [reflexivity |].
  cbn [flat_map JS.escape app URL.percentDecode].
  rewrite N.eqb_refl, ParseHexOctet_escape, IH by assumption. reflexivity.
Qed.

Lemma percentDecode_scalars (cps : list N) :
  Forall (fun cp => isScalar cp = true) cps ->
  URL.percentDecode (flat_map encodeScalar cps) = flat_map JS.utf8 cps.
Proof.
  induction 1 as [| cp cps Hcp _ IH]; [reflexivity |].
  cbn [flat_map]. unfold encodeScalar at 1.
  destruct (JS.uriUnreserved cp) eqn:U.
  - cbn [app URL.percentDecode].
    rewrite (unreserved_not_percent _ U), IH.
    unfold JS.utf8. apply uriUnreserved_ascii in U.
    now replace (cp <? 0x80) with true by (symmetry; now apply N.ltb_lt).
  - unfold JS.escapeCodePoint.
    rewrite percentDecode_escapes, IH by (now apply utf8_bytes). reflexivity.
Qed.

Lemma plusToSpace_id (s : list N) :
  noUnit 0x2B s = true -> URL.plusToSpace s = s.
Proof.
  unfold noUnit, URL.plusToSpace. induction s as [| c t IH]; [reflexivity |].
  cbn [forallb map]; intros H. apply andb_true_iff in H as [Hc Ht].
  apply negb_true_iff in Hc. now rewrite Hc, IH.
Qed.

Lemma forallb_impl {A} (P Q : A -> bool) (l : list A) :
  (forall x, P x = true -> Q x = true) ->
  forallb P l = true -> forallb Q l = true.
Proof.
  intros HPQ. induction l as [| x l IH]; [reflexivity |].
  cbn [forallb]; intros H. apply andb_true_iff in H as [Hx Hl].
  now rewrite (HPQ x Hx), IH.
Qed.

Lemma safeUnit_ascii (c : N) : safeUnit c = true -> (c <? 0x80) = true.
Proof.
  unfold safeUnit; intros H. apply orb_true_iff in H as [H | H].
  - apply N.ltb_lt. now apply uriUnreserved_ascii.
  - apply N.eqb_eq in H; now subst.
Qed.

Lemma safeUnit_not (c x : N) :
  safeUnit x = false -> safeUnit c = true -> negb (c =? x) = true.
Proof.
  intros Hx Hc. apply negb_true_iff, N.eqb_neq; intros ->; congruence.
Qed.

Lemma safe_isAscii (e : jsstring) : forallb safeUnit e = true -> isAscii e = true.
Proof. apply forallb_impl, safeUnit_ascii. Qed.

Lemma safe_noUnit (x : N) (e : jsstring) :
  safeUnit x = false -> forallb safeUnit e = true -> noUnit x e = true.
Proof. intros Hx. apply forallb_impl. intros c. now apply safeUnit_not. Qed.

Lemma safe_endsClean (e : jsstring) : forallb safeUnit e = true -> endsClean e = true.
Proof.
  intros H. unfold endsClean. destruct (rev e) as [| c r] eqn:E; [reflexivity |].
  assert (In c e) as Hin by (apply in_rev; rewrite E; now left).
  rewrite forallb_forall in H. specialize (H c Hin).
  apply negb_true_iff, not_true_iff_false; intros W.
  pose proof (safeUnit_ascii c H) as Ha. apply N.ltb_lt in Ha.
  unfold JS.isWhiteSpace, JS.between in W.
  unfold safeUnit, JS.uriUnreserved, JS.isAlpha, JS.isDigit, JS.between in H.
  vm_compute lit in H. cbn [existsb] in H.
  repeat (apply orb_true_iff in W; destruct W as [W | W]);
    unbool; try lia; subst; discriminate.
Qed.

(** URLSearchParams gives back what encodeURIComponent was given. *)
Lemma formDecode_Encode (s e : jsstring) :
  wellFormed s = true -> JS.Encode s = Ok e -> formDecode e = s.
Proof.
  intros H He. pose proof (Encode_safe s e H He) as Hs.
  rewrite Encode_wellFormed in He by assumption. injection He as <-.
  destruct (wellFormed_scalars s H) as [F E].
  unfold formDecode, URL.decodeComponent, URL.utf8Decode.
  rewrite plusToSpace_id by (now apply safe_noUnit).
  rewrite percentDecode_scalars, decode_scalars by assumption. exact E.
Qed.

Lemma percentDecode_plain (s : list N) :
  noUnit 0x25 s = true -> URL.percentDecode s = s.
Proof.
  unfold noUnit. induction s as [| c t IH]; [reflexivity |].
  cbn [forallb URL.percentDecode]; intros H. apply andb_true_iff in H as [Hc Ht].
  apply negb_true_iff in Hc. now rewrite Hc, IH.
Qed.



(** ** The query string parser *)

Lemma split_single (d : N) (a : list N) :
  noUnit d a = true -> URL.split d a = [a].
Proof.
  unfold noUnit. induction a as [| c t IH]; [reflexivity |].
  cbn [forallb URL.split]; intros H. apply andb_true_iff in H as [Hc Ht].
  apply negb_true_iff in Hc. now rewrite Hc, IH.
Qed.

Lemma split_app (d : N) (a b : list N) :
  noUnit d a = true -> URL.split d (a ++ d :: b) = a :: URL.split d b.
Proof.
  unfold noUnit. induction a as [| c t IH]; intros H.
  - cbn [app URL.split]. now rewrite N.eqb_refl.
  - cbn [forallb] in H. apply andb_true_iff in H as [Hc Ht].
    apply negb_true_iff in Hc. cbn [app URL.split]. now rewrite Hc, IH.
Qed.

Lemma nameValue_app (k v : list N) :
  noUnit 0x3D k = true -> URL.nameValue (k ++ 0x3D :: v) = (k, v).
Proof.
  unfold noUnit. induction k as [| c t IH]; intros H; [reflexivity |].
  cbn [forallb] in H. apply andb_true_iff in H as [Hc Ht].
  apply negb_true_iff in Hc. cbn [app URL.nameValue]. now rewrite Hc, IH.
Qed.

Lemma noUnit_app (d : N) (a b : list N) :
  noUnit d (a ++ b) = noUnit d a && noUnit d b.
Proof. apply forallb_app. Qed.

Lemma isAscii_app (a b : list N) : isAscii (a ++ b) = isAscii a && isAscii b.
Proof. apply forallb_app. Qed.

Lemma queryPair_parts (k v : jsstring) :
  queryPair (k, v) = true ->
  isAscii k = true /\ noUnit 0x26 k = true /\ noUnit 0x3D k = true
  /\ isAscii v = true /\ noUnit 0x26 v = true.
Proof.
  unfold queryPair, queryName, queryValue; cbn [fst snd]; intros H.
  apply andb_true_iff in H as [Hk Hv].
  apply andb_true_iff in Hk as [Hk Hk3]. apply andb_true_iff in Hk as [Hk1 Hk2].
  apply andb_true_iff in Hv as [Hv1 Hv2]. repeat split; assumption.
Qed.

Lemma pair_segment (k v : jsstring) :
  queryPair (k, v) = true ->
  isAscii (k ++ 0x3D :: v) = true /\ noUnit 0x26 (k ++ 0x3D :: v) = true.
Proof.
  intros H; destruct (queryPair_parts k v H) as (A1 & A2 & A3 & A4 & A5).
  rewrite isAscii_app, noUnit_app. cbn [isAscii noUnit forallb] in *.
  fold (isAscii v); fold (noUnit 0x26 v). now rewrite A1, A2, A4, A5.
Qed.

Lemma joinQuery_ascii (kvs : list (jsstring * jsstring)) :
  forallb queryPair kvs = true -> isAscii (joinQuery kvs) = true.
Proof.
  induction kvs as [| [k v] r IH]; [reflexivity |].
  cbn [forallb]; intros H. apply andb_true_iff in H as [Hp Hr].
  destruct (pair_segment k v Hp) as [S1 _]. specialize (IH Hr).
  destruct r as [| p r]; [exact S1 |].
  change (joinQuery ((k, v) :: p :: r))
    with (k ++ 0x3D :: v ++ 0x26 :: joinQuery (p :: r)).
  replace (k ++ 0x3D :: v ++ 0x26 :: joinQuery (p :: r))
    with ((k ++ 0x3D :: v) ++ 0x26 :: joinQuery (p :: r))
    by (now rewrite <- app_assoc).
  rewrite isAscii_app, S1. cbn [isAscii forallb andb] in *. exact IH.
Qed.

Lemma parseSegment (k v : jsstring) :
  noUnit 0x3D k = true ->
  match k ++ 0x3D :: v with
  | [] => []
  | _ :: _ => let (n, w) := URL.nameValue (k ++ 0x3D :: v) in
              [(URL.decodeComponent n, URL.decodeComponent w)]
  end = [formDecodePair (k, v)].
Proof.
  intros H. rewrite nameValue_app by assumption.
  destruct k; reflexivity.
Qed.

(** The parser splits "k1=v1&k2=v2&..." back into its pairs. *)
Lemma parseBytes_joinQuery (kvs : list (jsstring * jsstring)) :
  forallb queryPair kvs = true ->
  URL.parseBytes (joinQuery kvs) = map formDecodePair kvs.
Proof.
  unfold URL.parseBytes.
  induction kvs as [| [k v] r IH]; [reflexivity |].
  cbn [forallb]; intros H. apply andb_true_iff in H as [Hp Hr].
  destruct (pair_segment k v Hp) as [_ S2].
  destruct (queryPair_parts k v Hp) as (_ & _ & A3 & _ & _).
  specialize (IH Hr). destruct r as [| p r].
  - cbn [joinQuery map]. rewrite split_single by assumption.
    cbn [flat_map]. rewrite parseSegment by assumption. reflexivity.
  - change (joinQuery ((k, v) :: p :: r))
      with (k ++ 0x3D :: v ++ 0x26 :: joinQuery (p :: r)).
    replace (k ++ 0x3D :: v ++ 0x26 :: joinQuery (p :: r))
      with ((k ++ 0x3D :: v) ++ 0x26 :: joinQuery (p :: r))
      by (now rewrite <- app_assoc).
    rewrite split_app by assumption. cbn [flat_map map].
    rewrite parseSegment, IH by assumption. reflexivity.
Qed.

(** The parameters [parseMailto] sees for the query "k1=v1&k2=v2&...". *)
Lemma URLSearchParams_joinQuery (kvs : list (jsstring * jsstring)) :
  forallb queryPair kvs = true ->
  JS.startsWith (joinQuery kvs) [0x3F] = false ->
  URL.URLSearchParams (joinQuery kvs) = Ok (map formDecodePair kvs).
Proof.
  intros H Hq. unfold URL.URLSearchParams. f_equal.
  assert (URL.stripQuestionMark (joinQuery kvs) = joinQuery kvs) as ->.
  { destruct (joinQuery kvs) as [| c t]; [reflexivity |].
    cbn [JS.startsWith] in Hq. rewrite andb_true_r in Hq.
    unfold URL.stripQuestionMark. now rewrite Hq. }
  rewrite utf8Encode_ascii by (now apply joinQuery_ascii).
  now apply parseBytes_joinQuery.
Qed.

(** ** The decoder only yields scalar values *)

Lemma lead_ok (b : N) : outcomeOk (URL.lead b).
Proof.
  unfold URL.lead, JS.between.
  destruct (N.leb_spec 0 b), (N.leb_spec b 0x7F); cbn [andb]; try lia.
  { unfold outcomeOk, isScalar, JS.isSurrogate, JS.between. now decide_cmp. }
  destruct (N.leb_spec 0xC2 b), (N.leb_spec b 0xDF); cbn [andb outcomeOk].
  { unfold pending, plainBounds; cbn.
    change 31 with (N.ones 5); rewrite land_ones_mod; change (2 ^ 5) with 32.
    repeat split; dlia. }
  all: destruct (N.leb_spec 0xE0 b), (N.leb_spec b 0xEF); cbn [andb outcomeOk]; try lia.
  all: try (unfold pending, plainBounds;
            cbn [URL.bytesNeeded URL.bytesSeen URL.codePoint URL.lowerBoundary
                 URL.upperBoundary];
            change 0xF with (N.ones 4); rewrite land_ones_mod; change (2 ^ 4) with 16;
            destruct (N.eqb_spec b 0xE0), (N.eqb_spec b 0xED); try lia;
            repeat split; try dlia; decide_cmp; reflexivity).
  all: destruct (N.leb_spec 0xF0 b), (N.leb_spec b 0xF4); cbn [andb outcomeOk]; try lia;
    try exact I.
  all: unfold pending, plainBounds;
    cbn [URL.bytesNeeded URL.bytesSeen URL.codePoint URL.lowerBoundary
         URL.upperBoundary];
    change 0x7 with (N.ones 3); rewrite land_ones_mod; change (2 ^ 3) with 8;
    destruct (N.eqb_spec b 0xF0), (N.eqb_spec b 0xF4); try lia;
    repeat split; try dlia; decide_cmp; reflexivity.
Qed.

Lemma trail_ok (d : URL.decoder) (b : N) :
  pending d ->
  JS.between (URL.lowerBoundary d) (URL.upperBoundary d) b = true ->
  outcomeOk (URL.trail d b).
Proof.
  destruct d as [cp seen needed lo hi].
  unfold pending, plainBounds, URL.trail, JS.between.
  cbn [URL.bytesNeeded URL.bytesSeen URL.codePoint URL.lowerBoundary
       URL.upperBoundary].
  intros P B. apply andb_true_iff in B as [B1 B2].
  apply N.leb_le in B1, B2. rewrite lor_shiftl6.
  destruct needed as [| [| [| [| n]]]]; try contradiction;
    destruct seen as [| [| [| k]]]; try contradiction;
    cbn [Nat.eqb outcomeOk]; unfold pending, plainBounds, isScalar, JS.isSurrogate,
      JS.between;
    cbn [URL.bytesNeeded URL.bytesSeen URL.codePoint URL.lowerBoundary
         URL.upperBoundary].
  - destruct P as (P1 & -> & ->). decide_cmp. reflexivity.
  - destruct P as (P1 & -> & ->).
    destruct (N.eqb_spec cp 0), (N.eqb_spec cp 13); try lia;
      repeat split; dlia.
  - destruct P as (P1 & P2 & -> & ->).
    assert (0x800 <= cp * 64 + b mod 64 < 0x10000
            /\ ~ (0xD800 <= cp * 64 + b mod 64 <= 0xDFFF)) as [R1 R2] by dlia.
    decide_cmp; cbn [andb negb]; try reflexivity.
    all: destruct (N.leb_spec 55296 (cp * 64 + b mod 64)),
           (N.leb_spec (cp * 64 + b mod 64) 57343); try reflexivity; lia.
  - destruct P as (P1 & -> & ->).
    destruct (N.eqb_spec cp 0), (N.eqb_spec cp 4); try lia;
      repeat split; dlia.
  - destruct P as (P1 & -> & ->). repeat split; dlia.
  - destruct P as (P1 & -> & ->). decide_cmp. reflexivity.
Qed.

Lemma emit_ok (o : URL.outcome) (k : URL.decoder -> list N) :
  outcomeOk o ->
  (forall d, pending d -> Forall (fun cp => isScalar cp = true) (k d)) ->
  Forall (fun cp => isScalar cp = true) (k URL.initial) ->
  Forall (fun cp => isScalar cp = true) (URL.emit o k).
Proof.
  destruct o as [d | cp |]; cbn [outcomeOk URL.emit]; intros Ho Hk Hi.
  - now apply Hk.
  - now constructor.
  - now constructor.
Qed.

Lemma pending_needed (d : URL.decoder) :
  pending d -> Nat.eqb (URL.bytesNeeded d) 0 = false.
Proof.
  unfold pending. destruct (URL.bytesNeeded d); [contradiction | reflexivity].
Qed.

Lemma decode_ok (bs : list N) :
  Forall (fun cp => isScalar cp = true) (URL.decode URL.initial bs)
  /\ forall d, pending d -> Forall (fun cp => isScalar cp = true) (URL.decode d bs).
Proof.
  induction bs as [| b bs [IH0 IH]]; split.
  - constructor.
  - intros d Hd. cbn [URL.decode]. rewrite pending_needed by assumption.
    now repeat constructor.
  - cbn [URL.decode URL.initial URL.bytesNeeded Nat.eqb].
    apply emit_ok; [apply lead_ok | exact IH | exact IH0].
  - intros d Hd. cbn [URL.decode]. rewrite pending_needed by assumption.
    destruct (JS.between _ _ b) eqn:B.
    + apply emit_ok; [now apply trail_ok | exact IH | exact IH0].
    + constructor; [reflexivity |].
      apply emit_ok; [apply lead_ok | exact IH | exact IH0].
Qed.

Lemma wellFormed_utf16s (cps : list N) :
  Forall (fun cp => isScalar cp = true) cps ->
  wellFormed (flat_map JS.utf16 cps) = true.
Proof.
  induction 1 as [| cp cps Hcp _ IH]; [reflexivity |].
  cbn [flat_map]. destruct (N.ltb_spec cp 0x10000) as [Hlt | Hge].
  - rewrite utf16_bmp by assumption. cbn [app wellFormed]. rewrite IH.
    unfold isScalar, JS.isSurrogate, JS.between in Hcp.
    unfold JS.isHighSurrogate, JS.isLowSurrogate, JS.between.
    destruct (N.leb_spec 0xD800 cp), (N.leb_spec cp 0xDBFF),
      (N.leb_spec 0xDC00 cp), (N.leb_spec cp 0xDFFF);
      cbn [andb negb] in *; try (exfalso; unbool; lia);
      decide_cmp; reflexivity.
  - destruct (pair_of_utf16 cp Hcp Hge) as (hi & lo & E & Hhi & Hlo & Ecp).
    rewrite E. cbn [app wellFormed]. now rewrite Hhi, Hlo, IH.
Qed.

(** Whatever URLSearchParams decodes is well-formed. *)
Lemma utf8Decode_wellFormed (bs : list N) : wellFormed (URL.utf8Decode bs) = true.
Proof. apply wellFormed_utf16s. exact (proj1 (decode_ok bs)). Qed.

Lemma parseBytes_wellFormed (input : list N) :
  Forall (fun kv => wellFormed (snd kv) = true) (URL.parseBytes input).
Proof.
  unfold URL.parseBytes. induction (URL.split 0x26 input) as [| seg segs IH];
    [constructor |].
  cbn [flat_map]. apply Forall_app; split; [| exact IH].
  destruct seg as [| c seg]; [constructor |].
  destruct (URL.nameValue (c :: seg)) as [n v].
  repeat constructor. apply utf8Decode_wellFormed.
Qed.

Lemma get_wellFormed (params : list (jsstring * jsstring)) (name v : jsstring) :
  Forall (fun kv => wellFormed (snd kv) = true) params ->
  URL.get params name = Some v -> wellFormed v = true.
Proof.
  induction 1 as [| [k w] r Hw _ IH]; [discriminate |].
  cbn [URL.get]. destruct (eqs k name); [now intros [= <-] | exact IH].
Qed.

Lemma orDefault_wellFormed (o : option jsstring) (d : jsstring) :
  (forall v, o = Some v -> wellFormed v = true) -> wellFormed d = true ->
  wellFormed (orDefault o d) = true.
Proof.
  intros Ho Hd. destruct o as [[| c v] |]; cbn [orDefault orElse]; auto.
Qed.

Lemma queryFields_wellFormed (query : jsstring) :
  wellFormed (fst (queryFields query)) = true
  /\ wellFormed (snd (queryFields query)) = true.
Proof.
  unfold queryFields. destruct query as [| c q]; [now split |].
  unfold URL.URLSearchParams. cbn [fst snd].
  pose proof (parseBytes_wellFormed
                (URL.utf8Encode (URL.stripQuestionMark (c :: q)))) as F.
  split; repeat apply orDefault_wellFormed;
    try reflexivity; intros v; now apply get_wellFormed.
Qed.

(** ** Well-formed strings under the string operations *)

Lemma plainUnit_spec (c : N) :
  plainUnit c = true ->
  JS.isHighSurrogate c = false /\ JS.isLowSurrogate c = false /\ (c <? 0x10000) = true.
Proof.
  unfold plainUnit, JS.isSurrogate, JS.isHighSurrogate, JS.isLowSurrogate, JS.between.
  intros H. apply andb_true_iff in H as [H1 H2]. apply negb_true_iff in H2.
  rewrite H1. apply N.ltb_lt in H1.
  destruct (N.leb_spec 0xD800 c), (N.leb_spec c 0xDFFF); try discriminate;
    decide_cmp; auto.
Qed.

Lemma wellFormed_plain_cons (c : N) (s : jsstring) :
  plainUnit c = true -> wellFormed (c :: s) = wellFormed s.
Proof.
  intros H. destruct (plainUnit_spec c H) as (H1 & H2 & H3).
  cbn [wellFormed]. now rewrite H1, H2, H3.
Qed.

Lemma wellFormed_plain_app (p s : jsstring) :
  forallb plainUnit p = true -> wellFormed (p ++ s) = wellFormed s.
Proof.
  induction p as [| c p IH]; [reflexivity |].
  cbn [forallb app]; intros H. apply andb_true_iff in H as [Hc Hp].
  rewrite wellFormed_plain_cons by assumption. now apply IH.
Qed.

Lemma wellFormed_app_l_upto (n : nat) (a b : jsstring) :
  (length a <= n)%nat ->
  wellFormed (a ++ b) = true -> startsLow b = false -> wellFormed a = true.
Proof.
  revert a; induction n as [| n IH]; intros [| c a] Hn Hw Hb; cbn [length] in Hn;
    try lia; try reflexivity.
  cbn [app wellFormed] in *. destruct (JS.isHighSurrogate c).
  - destruct a as [| d a]; cbn [app] in Hw.
    + destruct b as [| d b]; [discriminate |]. cbn [startsLow] in Hb.
      now rewrite Hb in Hw.
    + apply andb_true_iff in Hw as [Hd Hw]. rewrite Hd. cbn [andb].
      apply IH; [cbn [length] in Hn; lia | assumption | assumption].
  - apply andb_true_iff in Hw as [Hc Hw]. rewrite Hc. cbn [andb].
    apply IH; [lia | assumption | assumption].
Qed.

Lemma wellFormed_app_l (a b : jsstring) :
  wellFormed (a ++ b) = true -> startsLow b = false -> wellFormed a = true.
Proof. now apply (wellFormed_app_l_upto (length a)). Qed.

Lemma whiteSpace_plain (c : N) : JS.isWhiteSpace c = true -> plainUnit c = true.
Proof.
  unfold JS.isWhiteSpace, JS.between; intros W.
  unfold plainUnit, JS.isSurrogate, JS.between.
  repeat (apply orb_true_iff in W; destruct W as [W | W]);
    unbool; subst; decide_cmp; reflexivity.
Qed.

Lemma trimStart_suffix (s : jsstring) :
  exists w, s = w ++ JS.trimStart s /\ forallb JS.isWhiteSpace w = true.
Proof.
  induction s as [| c s (w & E & W)]; [now exists [] |].
  cbn [JS.trimStart]. destruct (JS.isWhiteSpace c) eqn:Hc.
  - exists (c :: w). cbn [app forallb]. now rewrite Hc, W, <- E.
  - now exists [].
Qed.

Lemma trimEnd_prefix (s : jsstring) :
  exists w, s = JS.trimEnd s ++ w /\ forallb JS.isWhiteSpace w = true.
Proof.
  unfold JS.trimEnd. destruct (trimStart_suffix (rev s)) as (w & E & W).
  exists (rev w). split.
  - rewrite <- rev_app_distr, <- E. symmetry; apply rev_involutive.
  - rewrite forallb_forall in *. intros x Hx. apply W. now apply in_rev.
Qed.

Lemma whiteSpace_startsLow (w : jsstring) :
  forallb JS.isWhiteSpace w = true -> startsLow w = false.
Proof.
  destruct w as [| c w]; [reflexivity |]. cbn [forallb startsLow]; intros H.
  apply andb_true_iff in H as [H _].
  now destruct (plainUnit_spec c (whiteSpace_plain c H)) as (_ & ? & _).
Qed.

Lemma trim_wellFormed (s : jsstring) :
  wellFormed s = true -> wellFormed (JS.trim s) = true.
Proof.
  intros H. unfold JS.trim.
  destruct (trimStart_suffix s) as (w & E & W).
  destruct (trimEnd_prefix (JS.trimStart s)) as (w' & E' & W').
  rewrite E, wellFormed_plain_app in H
    by (eapply forallb_impl; [apply whiteSpace_plain | exact W]).
  rewrite E' in H. eapply wellFormed_app_l; [exact H |].
  now apply whiteSpace_startsLow.
Qed.

Lemma wellFormed_app_upto (n : nat) (a b : jsstring) :
  (length a <= n)%nat ->
  wellFormed a = true -> wellFormed (a ++ b) = wellFormed b.
Proof.
  revert a; induction n as [| n IH]; intros [| c a] Hn Hw; cbn [length] in Hn;
    try lia; try reflexivity.
  cbn [app wellFormed] in *. destruct (JS.isHighSurrogate c).
  - destruct a as [| d a]; [discriminate |]. cbn [app].
    apply andb_true_iff in Hw as [Hd Hw]. rewrite Hd. cbn [andb].
    apply IH; [cbn [length] in Hn; lia | assumption].
  - apply andb_true_iff in Hw as [Hc Hw]. rewrite Hc. cbn [andb].
    apply IH; [lia | assumption].
Qed.

Lemma wellFormed_app (a b : jsstring) :
  wellFormed a = true -> wellFormed (a ++ b) = wellFormed b.
Proof. now apply (wellFormed_app_upto (length a)). Qed.

Lemma DecodeFrom_skipn (k : nat) (t : jsstring) :
  JS.DecodeFrom k t = JS.DecodeFrom 0 (skipn k t).
Proof.
  revert t; induction k as [| k IH]; intros t; [reflexivity |].
  destruct t as [| c t]; [reflexivity |]. cbn [JS.DecodeFrom skipn]. apply IH.
Qed.

Lemma hexValue_plain (c v : N) : JS.hexValue c = Some v -> plainUnit c = true.
Proof.
  intros H. assert (c < 0x80) as Hc.
  { unfold JS.hexValue, JS.isDigit, JS.between in H.
    destruct (N.leb_spec 0x30 c), (N.leb_spec c 0x39),
      (N.leb_spec 0x41 c), (N.leb_spec c 0x46),
      (N.leb_spec 0x61 c), (N.leb_spec c 0x66); cbn [andb] in H;
      try discriminate; lia. }
  unfold plainUnit, JS.isSurrogate, JS.between. decide_cmp. reflexivity.
Qed.

Lemma readEscapes_prefix (n : nat) (s : jsstring) (bs : list N) :
  JS.readEscapes n s = Some bs ->
  exists p rest, s = p ++ rest /\ length p = (3 * n)%nat
                 /\ forallb plainUnit p = true.
Proof.
  revert s bs; induction n as [| n IH]; intros s bs H.
  - now exists [], s.
  - cbn [JS.readEscapes] in H.
    destruct s as [| c [| c1 [| c2 t]]]; try discriminate.
    destruct (N.eqb_spec c 0x25) as [-> |]; [| discriminate].
    unfold JS.ParseHexOctet in H.
    destruct (JS.hexValue c1) as [h |] eqn:E1; [| discriminate].
    destruct (JS.hexValue c2) as [l |] eqn:E2; [| discriminate].
    destruct (JS.readEscapes n t) as [bs' |] eqn:E; [| discriminate].
    destruct (IH t bs' E) as (p & rest & -> & L & P).
    exists (0x25 :: c1 :: c2 :: p), rest. repeat split.
    + cbn [length]. lia.
    + cbn [forallb]. rewrite (hexValue_plain _ _ E1), (hexValue_plain _ _ E2), P.
      reflexivity.
Qed.

Lemma isScalar_intro (v : N) :
  v < 0x110000 -> (v < 0xD800 \/ 0xDFFF < v) -> isScalar v = true.
Proof.
  intros H1 H2. unfold isScalar, JS.isSurrogate, JS.between.
  apply andb_true_iff; split; [now apply N.ltb_lt |].
  apply negb_true_iff, andb_false_iff.
  destruct H2; [left; apply N.leb_gt | right; apply N.leb_gt]; lia.
Qed.

Lemma utf8Value_scalar (octets : list N) (v : N) :
  JS.utf8Value octets = Some v -> isScalar v = true.
Proof.
  unfold JS.utf8Value.
  destruct octets as [| b0 [| b1 [| b2 [| b3 [| b4 r]]]]]; try discriminate.
  - destruct (N.ltb_spec b0 0x80); [| discriminate]. intros [= <-].
    apply isScalar_intro; lia.
  - destruct (_ && _) eqn:C; [| discriminate]. intros [= <-]. unbool.
    apply isScalar_intro; lia.
  - destruct (_ && _) eqn:C; [| discriminate]. intros [= <-].
    destruct (N.eqb_spec b0 0xE0), (N.eqb_spec b0 0xED); unbool;
      apply isScalar_intro; lia.
  - destruct (_ && _) eqn:C; [| discriminate]. intros [= <-].
    destruct (N.eqb_spec b0 0xF0), (N.eqb_spec b0 0xF4); unbool;
      apply isScalar_intro; lia.
Qed.

Lemma wellFormed_utf16 (v : N) : isScalar v = true -> wellFormed (JS.utf16 v) = true.
Proof.
  intros H. rewrite <- (app_nil_r (JS.utf16 v)).
  apply (wellFormed_utf16s [v]). now constructor.
Qed.

Lemma decodeEscape_ok (s str : jsstring) (k : nat) :
  JS.decodeEscape s = Ok (str, k) ->
  wellFormed str = true
  /\ exists p rest, s = p ++ rest /\ length p = k /\ (1 <= k)%nat
                    /\ forallb plainUnit p = true.
Proof.
  unfold JS.decodeEscape.
  destruct (JS.readEscapes 1 s) as [[| b [| b' l]] |] eqn:E1; try discriminate.
  destruct (JS.leadingOnes b) as [| [| n]] eqn:L; try discriminate.
  - intros [= <- <-]. split.
    + unfold JS.leadingOnes in L. destruct (N.ltb_spec b 0x80) as [Hb |].
      * rewrite <- (utf16_bmp b) by lia.
        apply wellFormed_utf16, isScalar_intro; lia.
      * repeat match type of L with
               | (if ?c then _ else _) = _ => destruct c; try discriminate
               end.
    + destruct (readEscapes_prefix _ _ _ E1) as (p & rest & -> & Lp & P).
      exists p, rest. repeat split; auto; lia.
  - destruct (4 <? S (S n))%nat; [discriminate |].
    destruct (JS.readEscapes (S (S n)) s) as [octets |] eqn:E2; [| discriminate].
    destruct (JS.utf8Value octets) as [v |] eqn:V; [| discriminate].
    intros [= <- <-]. split.
    + eapply wellFormed_utf16, utf8Value_scalar; eauto.
    + destruct (readEscapes_prefix _ _ _ E2) as (p & rest & -> & Lp & P).
      exists p, rest. repeat split; auto; lia.
Qed.

Lemma Decode_wellFormed_upto (n : nat) (s d : jsstring) :
  (length s <= n)%nat ->
  wellFormed s = true -> JS.DecodeFrom 0 s = Ok d -> wellFormed d = true.
Proof.
  revert s d; induction n as [| n IH]; intros [| c t] d Hn Hw Hd;
    cbn [length] in Hn; try lia; try (injection Hd as <-; reflexivity).
  cbn [JS.DecodeFrom] in Hd.
  destruct (N.eqb_spec c 0x25) as [-> | Hc].
  - destruct (JS.decodeEscape (0x25 :: t)) as [[str k] | e] eqn:E; [| discriminate].
    cbn [bind fst snd] in Hd.
    destruct (decodeEscape_ok _ _ _ E) as (Ws & p & rest & Ep & Lp & Hk & P).
    destruct p as [| x p]; [cbn [length] in Lp; lia |].
    cbn [app] in Ep. injection Ep as <- ->.
    cbn [length] in Lp. subst k. cbn [Nat.sub] in Hd.
    rewrite Nat.sub_0_r, DecodeFrom_skipn, skipn_app, skipn_all, Nat.sub_diag in Hd.
    cbn [skipn app] in Hd.
    destruct (JS.DecodeFrom 0 rest) as [r |] eqn:R; [| discriminate].
    injection Hd as <-. rewrite wellFormed_app by assumption.
    apply (IH rest); [rewrite length_app in Hn; lia | | assumption].
    change (37 :: p ++ rest) with ((37 :: p) ++ rest) in Hw.
    now rewrite wellFormed_plain_app in Hw.
  - cbn [wellFormed] in Hw. destruct (JS.isHighSurrogate c) eqn:Hh.
    + destruct t as [| c' t']; [discriminate |].
      apply andb_true_iff in Hw as [Hl Hw].
      cbn [JS.DecodeFrom] in Hd.
      replace (c' =? 0x25) with false in Hd
        by (symmetry; apply N.eqb_neq; intros ->; discriminate).
      destruct (JS.DecodeFrom 0 t') as [r |] eqn:R; [| discriminate].
      injection Hd as <-. cbn [wellFormed]. rewrite Hh, Hl. cbn [andb].
      apply (IH t'); [cbn [length] in Hn; lia | assumption | assumption].
    + apply andb_true_iff in Hw as [Hp Hw].
      destruct (JS.DecodeFrom 0 t) as [r |] eqn:R; [| discriminate].
      injection Hd as <-. cbn [wellFormed]. rewrite Hh, Hp. cbn [andb].
      apply (IH t); [lia | assumption | assumption].
Qed.

(** decodeURIComponent keeps a well-formed string well-formed. *)
Lemma Decode_wellFormed (s d : jsstring) :
  wellFormed s = true -> JS.Decode s = Ok d -> wellFormed d = true.
Proof. apply (Decode_wellFormed_upto (length s)). lia. Qed.

(** ** What [parseMailto] returns is well-formed *)

Lemma sameLetter_ascii (c x : N) :
  sameLetter c x = true -> x < 0x80 -> c < 0x80.
Proof.
  unfold sameLetter, JS.between; intros H Hx. unbool; subst; lia.
Qed.

Lemma startsWithCI_split (pat s : jsstring) :
  startsWithCI s pat = true -> isAscii pat = true ->
  exists p rest, s = p ++ rest /\ length p = length pat
                 /\ isAscii p = true /\ startsWithCI p pat = true.
Proof.
  revert s; induction pat as [| x pat IH]; intros s H Ha.
  - now exists [], s.
  - destruct s as [| c s]; [discriminate |]. cbn [startsWithCI] in H.
    apply andb_true_iff in H as [H1 H2].
    unfold isAscii in Ha; cbn [forallb] in Ha.
    apply andb_true_iff in Ha as [Hx Ha]. apply N.ltb_lt in Hx.
    destruct (IH s H2 Ha) as (p & rest & -> & L & P & C).
    exists (c :: p), rest. repeat split.
    + cbn [length]. now rewrite L.
    + unfold isAscii in *. cbn [forallb]. rewrite P, andb_true_r.
      apply N.ltb_lt. eapply sameLetter_ascii; eauto.
    + cbn [startsWithCI]. now rewrite H1, C.
Qed.

Lemma indexOf_found (s : jsstring) (c : N) :
  (0 <= JS.indexOf s c)%Z ->
  exists a b, s = a ++ c :: b /\ noUnit c a = true.
Proof.
  induction s as [| x s IH]; cbn [JS.indexOf]; [lia |].
  destruct (N.eqb_spec x c) as [-> | Hx].
  - intros _. now exists [], s.
  - destruct (Z.ltb_spec (JS.indexOf s c) 0); [lia |]. intros _.
    destruct IH as (a & b & -> & Ha); [assumption |].
    exists (x :: a), b. split; [reflexivity |].
    unfold noUnit in *. cbn [forallb]. rewrite Ha, andb_true_r.
    now apply negb_true_iff, N.eqb_neq.
Qed.

Lemma indexOf_missing (s : jsstring) (c : N) :
  (JS.indexOf s c < 0)%Z -> noUnit c s = true.
Proof.
  induction s as [| x s IH]; cbn [JS.indexOf]; [reflexivity |].
  destruct (N.eqb_spec x c) as [-> | Hx]; [lia |].
  destruct (Z.ltb_spec (JS.indexOf s c) 0); [| lia]. intros _.
  unfold noUnit in *. cbn [forallb]. rewrite IH, andb_true_r by assumption.
  now apply negb_true_iff, N.eqb_neq.
Qed.

(** Every result of [parseMailto] on a string: the empty request, or the
    request read from an address part and a query. *)
Lemma parseMailto_cases (s : jsstring) (r : EmailRequest) :
  parseMailto (VString s) = Ok r ->
  r = emptyRequest
  \/ exists p A Q d,
       isAscii p = true /\ noUnit 0x3F A = true
       /\ (JS.trim s = p ++ A /\ Q = [] \/ JS.trim s = p ++ A ++ 0x3F :: Q)
       /\ JS.decodeURIComponent A = Ok d /\ r = requestFrom d Q.
Proof.
  intros H.
  destruct (startsWithCI (JS.trim s) (lit "mailto:")) eqn:C.
  2:{ rewrite parseMailto_not_mailto in H by assumption. left; congruence. }
  right. destruct (startsWithCI_split _ _ C eq_refl) as (p & rest & E & L & P & Cp).
  rewrite (parseMailto_rest s p rest E L Cp) in H. cbv zeta in H.
  destruct (Z.leb_spec 0 (JS.indexOf rest 0x3F)) as [Hi | Hi].
  - destruct (indexOf_found rest 0x3F Hi) as (A & Q & -> & HA).
    rewrite indexOf_first, slice_upto in H by assumption.
    replace (A ++ 0x3F :: Q) with ((A ++ [0x3F]) ++ Q) in H
      by now rewrite <- app_assoc.
    replace (Z.of_nat (length A) + 1)%Z with (Z.of_nat (length (A ++ [0x3F]))) in H
      by (rewrite length_app; simpl; lia).
    rewrite slice_from in H.
    destruct (JS.decodeURIComponent A) as [d | e] eqn:D; [| discriminate].
    exists p, A, Q, d. injection H as <-. repeat split; auto.
  - destruct (JS.decodeURIComponent rest) as [d | e] eqn:D; [| discriminate].
    exists p, rest, [], d. injection H as <-. repeat split; auto.
    now apply indexOf_missing.
Qed.

Lemma ascii_plain (p : jsstring) : isAscii p = true -> forallb plainUnit p = true.
Proof.
  apply forallb_impl. intros c H. apply N.ltb_lt in H.
  unfold plainUnit, JS.isSurrogate, JS.between. decide_cmp. reflexivity.
Qed.

Lemma requestFrom_wellFormed (d Q : jsstring) :
  wellFormed d = true ->
  wellFormed (to (requestFrom d Q)) = true
  /\ wellFormed (subject (requestFrom d Q)) = true
  /\ wellFormed (body (requestFrom d Q)) = true.
Proof.
  intros H. unfold requestFrom; cbn [to subject body].
  split; [| apply queryFields_wellFormed].
  pose proof (trim_wellFormed d H) as T.
  destruct (JS.trim d); [reflexivity | exact T].
Qed.

Lemma parseMailto_wellFormed (s : jsstring) (r : EmailRequest) :
  wellFormed s = true -> parseMailto (VString s) = Ok r ->
  wellFormed (to r) = true /\ wellFormed (subject r) = true
  /\ wellFormed (body r) = true.
Proof.
  intros W H. apply trim_wellFormed in W.
  destruct (parseMailto_cases s r H) as [-> | (p & A & Q & d & P & HA & E & D & ->)];
    [now repeat split |].
  apply requestFrom_wellFormed. apply (Decode_wellFormed A); [| exact D].
  destruct E as [[E _] | E]; rewrite E, wellFormed_plain_app in W
    by (now apply ascii_plain); [exact W |].
  now apply (wellFormed_app_l A (0x3F :: Q)).
Qed.

(** ** Hrefs with a query "k1=v1&k2=v2&..." *)

Lemma endsClean_snoc (a : jsstring) (c : N) :
  JS.isWhiteSpace c = false -> endsClean (a ++ [c]) = true.
Proof.
  intros H. unfold endsClean. rewrite rev_app_distr. cbn [rev app]. now rewrite H.
Qed.

Lemma endsClean_app_clean (a b : jsstring) :
  endsClean a = true -> endsClean b = true -> endsClean (a ++ b) = true.
Proof.
  intros Ha Hb. destruct b as [| c b]; [now rewrite app_nil_r |].
  apply endsClean_app; [discriminate | assumption].
Qed.

Lemma joinQuery_cons (k v : jsstring) (p : jsstring * jsstring)
  (r : list (jsstring * jsstring)) :
  joinQuery ((k, v) :: p :: r) = (k ++ 0x3D :: v) ++ 0x26 :: joinQuery (p :: r).
Proof. cbn [joinQuery]. destruct p. now rewrite <- app_assoc. Qed.

Lemma endsClean_joinQuery (a : jsstring) (kvs : list (jsstring * jsstring)) :
  kvs <> [] -> endsClean (snd (last kvs ([], []))) = true ->
  endsClean (a ++ joinQuery kvs) = true.
Proof.
  revert a; induction kvs as [| [k v] r IH]; intros a Hne Hl; [contradiction |].
  destruct r as [| p r].
  - cbn [joinQuery last snd] in *.
    replace (a ++ k ++ 0x3D :: v) with ((a ++ k ++ [0x3D]) ++ v)
      by (now rewrite <- !app_assoc).
    apply endsClean_app_clean; [| assumption].
    rewrite app_assoc. now apply endsClean_snoc.
  - rewrite joinQuery_cons.
    replace (a ++ (k ++ 0x3D :: v) ++ 0x26 :: joinQuery (p :: r))
      with ((a ++ (k ++ 0x3D :: v) ++ [0x26]) ++ joinQuery (p :: r))
      by (now rewrite <- !app_assoc).
    apply IH; [discriminate | exact Hl].
Qed.

Lemma joinQuery_nonEmpty (kvs : list (jsstring * jsstring)) :
  kvs <> [] -> joinQuery kvs <> [].
Proof.
  destruct kvs as [| [k v] [| p r]]; [contradiction | |]; intros _.
  - cbn [joinQuery]. now destruct k.
  - rewrite joinQuery_cons. now destruct k.
Qed.

(** The fields [parseMailto] reads from parsed parameters. *)
Lemma queryFields_joinQuery (kvs : list (jsstring * jsstring)) :
  kvs <> [] -> forallb queryPair kvs = true ->
  JS.startsWith (joinQuery kvs) [0x3F] = false ->
  queryFields (joinQuery kvs)
  = let params := map formDecodePair kvs in
    (orDefault (URL.get params (lit "subject"))
       (orDefault (URL.get params (lit "su")) []),
     orDefault (URL.get params (lit "body")) []).
Proof.
  intros Hne Hq Hs. unfold queryFields.
  pose proof (joinQuery_nonEmpty kvs Hne) as Hj.
  rewrite URLSearchParams_joinQuery by assumption.
  now destruct (joinQuery kvs).
Qed.

Lemma parseMailto_joinQuery (A d : jsstring) (kvs : list (jsstring * jsstring)) :
  noUnit 0x3F A = true -> JS.decodeURIComponent A = Ok d ->
  kvs <> [] -> forallb queryPair kvs = true ->
  JS.startsWith (joinQuery kvs) [0x3F] = false ->
  endsClean (snd (last kvs ([], []))) = true ->
  parseMailto (VString (lit "mailto:" ++ A ++ 0x3F :: joinQuery kvs))
  = let params := map formDecodePair kvs in
    Ok {| to := orElse (JS.trim d) DEFAULT_TO;
          subject := orDefault (URL.get params (lit "subject"))
                       (orDefault (URL.get params (lit "su")) []);
          body := orDefault (URL.get params (lit "body")) [] |}.
Proof.
  intros HA HD Hne Hq Hs Hl.
  rewrite parseMailto_query, HD; [| assumption |].
  - cbn [bind]. unfold requestFrom. now rewrite queryFields_joinQuery.
  - now apply (endsClean_joinQuery [0x3F]).
Qed.

Lemma orElse_if (a b : jsstring) : orElse a b = if nonEmpty a then a else b.
Proof. now destruct a. Qed.

Lemma formDecode_names :
  formDecode (lit "subject") = lit "subject"
  /\ formDecode (lit "su") = lit "su"
  /\ formDecode (lit "body") = lit "body".
Proof. now vm_compute. Qed.

(** Evaluates the look-ups of [URL.get] among literal names. *)
Ltac lookup :=
  unfold formDecodePair; cbn [map fst snd URL.get];
  rewrite ?(proj1 formDecode_names), ?(proj1 (proj2 formDecode_names)),
    ?(proj2 (proj2 formDecode_names));
  repeat match goal with
         | |- context [eqs (lit ?a) (lit ?b)] =>
             let v := eval vm_compute in (eqs (lit a) (lit b)) in
             change (eqs (lit a) (lit b)) with v
         end;
  cbn [orDefault]; rewrite ?orElse_nil.

(** ** Searching a built link *)

Lemma contains_skip (c : N) (q x s : jsstring) :
  noUnit c x = true -> contains (x ++ s) (c :: q) = contains s (c :: q).
Proof.
  unfold noUnit. induction x as [| a x IH]; [reflexivity |].
  cbn [forallb]; intros H. apply andb_true_iff in H as [Ha Hx].
  apply negb_true_iff in Ha.
  cbn [app contains JS.startsWith]. rewrite Ha, IH by assumption. reflexivity.
Qed.

Lemma contains_absent (c : N) (q x : jsstring) :
  noUnit c x = true -> contains x (c :: q) = false.
Proof.
  intros H. rewrite <- (app_nil_r x), contains_skip by assumption. reflexivity.
Qed.

(** * The decomposer: claims C3 and C10 *)

Lemma href_subject_body (A S B : jsstring) :
  lit "mailto:" ++ A ++ lit "?subject=" ++ S ++ lit "&body=" ++ B
  = lit "mailto:" ++ A ++ 0x3F :: joinQuery [(lit "subject", S); (lit "body", B)].
Proof.
  cbn [joinQuery]. change (lit "?subject=") with (0x3F :: lit "subject" ++ [0x3D]).
  change (lit "&body=") with (0x26 :: lit "body" ++ [0x3D]).
  cbn [app]. now rewrite <- !app_assoc.
Qed.

Lemma href_su_body (A U B : jsstring) :
  lit "mailto:" ++ A ++ lit "?su=" ++ U ++ lit "&body=" ++ B
  = lit "mailto:" ++ A ++ 0x3F :: joinQuery [(lit "su", U); (lit "body", B)].
Proof.
  cbn [joinQuery]. change (lit "?su=") with (0x3F :: lit "su" ++ [0x3D]).
  change (lit "&body=") with (0x26 :: lit "body" ++ [0x3D]).
  cbn [app]. now rewrite <- !app_assoc.
Qed.

Lemma href_subject_su_body (A S U B : jsstring) :
  lit "mailto:" ++ A ++ lit "?subject=" ++ S ++ lit "&su=" ++ U ++ lit "&body=" ++ B
  = lit "mailto:" ++ A
    ++ 0x3F :: joinQuery [(lit "subject", S); (lit "su", U); (lit "body", B)].
Proof.
  cbn [joinQuery]. change (lit "?subject=") with (0x3F :: lit "subject" ++ [0x3D]).
  change (lit "&su=") with (0x26 :: lit "su" ++ [0x3D]).
  change (lit "&body=") with (0x26 :: lit "body" ++ [0x3D]).
  cbn [app]. now rewrite <- !app_assoc.
Qed.

Lemma href_subject (A S : jsstring) :
  lit "mailto:" ++ A ++ lit "?subject=" ++ S
  = lit "mailto:" ++ A ++ 0x3F :: joinQuery [(lit "subject", S)].
Proof.
  cbn [joinQuery]. change (lit "?subject=") with (0x3F :: lit "subject" ++ [0x3D]).
  cbn [app]. now rewrite <- !app_assoc.
Qed.

Lemma queryPair_named (k v : jsstring) :
  queryName k = true -> queryValue v = true -> queryPair (k, v) = true.
Proof. intros Hk Hv. unfold queryPair; cbn [fst snd]. now rewrite Hk, Hv. Qed.

(** "mailto:A?subject=S&body=B" *)
Lemma parseMailto_subject_body (A d S B : jsstring) :
  noUnit 0x3F A = true -> JS.decodeURIComponent A = Ok d ->
  queryValue S = true -> queryValue B = true -> endsClean B = true ->
  parseMailto (VString (lit "mailto:" ++ A ++ lit "?subject=" ++ S ++ lit "&body=" ++ B))
  = Ok {| to := orElse (JS.trim d) DEFAULT_TO;
          subject := formDecode S; body := formDecode B |}.
Proof.
  intros HA HD HS HB HE. rewrite href_subject_body.
  rewrite (parseMailto_joinQuery A d); try assumption; try discriminate;
    try reflexivity.
  - cbv zeta. lookup. reflexivity.
  - cbn [forallb]. now rewrite !queryPair_named.
Qed.

(** "mailto:A?su=U&body=B" *)
Lemma parseMailto_su_body (A d U B : jsstring) :
  noUnit 0x3F A = true -> JS.decodeURIComponent A = Ok d ->
  queryValue U = true -> queryValue B = true -> endsClean B = true ->
  parseMailto (VString (lit "mailto:" ++ A ++ lit "?su=" ++ U ++ lit "&body=" ++ B))
  = Ok {| to := orElse (JS.trim d) DEFAULT_TO;
          subject := formDecode U; body := formDecode B |}.
Proof.
  intros HA HD HS HB HE. rewrite href_su_body.
  rewrite (parseMailto_joinQuery A d); try assumption; try discriminate;
    try reflexivity.
  - cbv zeta. lookup. reflexivity.
  - cbn [forallb]. now rewrite !queryPair_named.
Qed.

(** "mailto:A?subject=S&su=U&body=B" *)
Lemma parseMailto_subject_su_body (A d S U B : jsstring) :
  noUnit 0x3F A = true -> JS.decodeURIComponent A = Ok d ->
  queryValue S = true -> queryValue U = true -> queryValue B = true ->
  endsClean B = true ->
  parseMailto
    (VString (lit "mailto:" ++ A ++ lit "?subject=" ++ S ++ lit "&su=" ++ U
              ++ lit "&body=" ++ B))
  = Ok {| to := orElse (JS.trim d) DEFAULT_TO;
          subject := if nonEmpty (formDecode S) then formDecode S else formDecode U;
          body := formDecode B |}.
Proof.
  intros HA HD HS HU HB HE. rewrite href_subject_su_body.
  rewrite (parseMailto_joinQuery A d); try assumption; try discriminate;
    try reflexivity.
  - cbv zeta. lookup. now rewrite (orElse_if (formDecode S)).
  - cbn [forallb]. now rewrite !queryPair_named.
Qed.

(** "mailto:A?subject=S" *)
Lemma parseMailto_subject (A d S : jsstring) :
  noUnit 0x3F A = true -> JS.decodeURIComponent A = Ok d ->
  queryValue S = true -> endsClean S = true ->
  parseMailto (VString (lit "mailto:" ++ A ++ lit "?subject=" ++ S))
  = Ok {| to := orElse (JS.trim d) DEFAULT_TO;
          subject := formDecode S; body := [] |}.
Proof.
  intros HA HD HS HE. rewrite href_subject.
  rewrite (parseMailto_joinQuery A d); try assumption; try discriminate;
    try reflexivity.
  - cbv zeta. lookup. reflexivity.
  - cbn [forallb]. now rewrite !queryPair_named.
Qed.

Lemma Encode_queryValue (s e : jsstring) :
  wellFormed s = true -> JS.Encode s = Ok e ->
  queryValue e = true /\ endsClean e = true.
Proof.
  intros H He. pose proof (Encode_safe s e H He) as Hs.
  unfold queryValue. rewrite safe_isAscii, safe_noUnit, safe_endsClean by
    (assumption || reflexivity). now split.
Qed.

(** Claim C1, as stated, fails: for the input "hello", which does not start
    with "mailto:", [parseMailto] returns the empty string as recipient,
    not the default address. *)
Lemma C1_counterexample :
  startsWithCI (JS.trim (lit "hello")) (lit "mailto:") = false
  /\ parseMailto (VString (lit "hello"))
     = Ok {| to := []; subject := []; body := [] |}
  /\ parseMailto (VString (lit "hello"))
     <> Ok {| to := DEFAULT_TO; subject := []; body := [] |}.
Proof. repeat split. vm_compute. discriminate. Qed.

(** Claim C1, amended: for every input string that does not start, after
    trimming and up to the case of ASCII letters, with "mailto:",
    [parseMailto] returns the request whose recipient, subject and body are
    all the empty string.  The default address only comes in afterwards:
    the click handler passes the request to [openModal], which shows the
    default address for an empty recipient, on every page that can hold
    the dialog. *)
Theorem C1_other_scheme_gives_empty_request (s : jsstring) :
  startsWithCI (JS.trim s) (lit "mailto:") = false ->
  parseMailto (VString s) = Ok {| to := []; subject := []; body := [] |}
  /\ forall doc, canRender doc = true ->
       exists doc' m,
         onMailtoClick (VString s) doc = Ok doc'
         /\ wtEmailModal doc' = Some m /\ toText m = DEFAULT_TO.
Proof.
  intros H. pose proof (parseMailto_not_mailto s H) as E. split; [exact E |].
  intros doc R. unfold onMailtoClick. rewrite E. cbn [bind].
  destruct doc as [b [m |]]; [| destruct b; [| discriminate]];
    eexists _, _; (split; [vm_compute; reflexivity | split; reflexivity]).
Qed.

Lemma C1_witness :
  startsWithCI (JS.trim (lit "https://example.com/")) (lit "mailto:") = false
  /\ parseMailto (VString (lit "https://example.com/"))
     = Ok {| to := []; subject := []; body := [] |}.
Proof.
  split; [reflexivity |].
  exact (proj1 (C1_other_scheme_gives_empty_request
                  (lit "https://example.com/") eq_refl)).
Defined.

(** Claim C2: the code does not do what the claim says.  On the href
    "mailto:%" the address part "%" is not a valid escape,
    [decodeURIComponent] throws a URIError outside of any try block, and
    [parseMailto] passes it on to the click handler instead of falling
    back to the default address. *)
Theorem C2_decode_failure_is_thrown :
  JS.decodeURIComponent (lit "%") = Throw URIError
  /\ parseMailto (VString (lit "mailto:%")) = Throw URIError
  /\ forall doc, onMailtoClick (VString (lit "mailto:%")) doc = Throw URIError.
Proof. repeat split. Qed.

(** Claim C3, as stated, fails: in "mailto:a@b.c?subject=a+b&body=c" the
    subject value is "a+b", which holds no escape and so is its own
    percent-decoding, but the subject returned is "a b". *)
Lemma C3_counterexample :
  JS.decodeURIComponent (lit "a+b") = Ok (lit "a+b")
  /\ parseMailto (VString (lit "mailto:a@b.c?subject=a+b&body=c"))
     = Ok {| to := lit "a@b.c"; subject := lit "a b"; body := lit "c" |}
  /\ lit "a b" <> lit "a+b".
Proof. repeat split. vm_compute. discriminate. Qed.



(** * The link builder: claims C5 and C6 *)

Lemma buildLinks_inv (els els' : modal) (to subject body : jsstring) :
  buildLinks els to subject body = Ok els' ->
  exists toEnc suEnc bodyEnc,
    enc to = Ok toEnc /\ enc subject = Ok suEnc /\ enc body = Ok bodyEnc
    /\ gmailHref els' = Some
         (GMAIL_COMPOSE ++ toEnc
          ++ (if nonEmpty subject then lit "&su=" ++ suEnc else [])
          ++ (if nonEmpty body then lit "&body=" ++ bodyEnc else []))
    /\ outlookHref els' = Some
         (OUTLOOK_COMPOSE ++ toEnc
          ++ (if nonEmpty subject then lit "&subject=" ++ suEnc else [])
          ++ (if nonEmpty body then lit "&body=" ++ bodyEnc else []))
    /\ mailtoHref els' = Some
         (lit "mailto:" ++ to
          ++ (if nonEmpty subject || nonEmpty body then lit "?" else [])
          ++ (if nonEmpty subject then lit "subject=" ++ suEnc else [])
          ++ (if nonEmpty subject && nonEmpty body then lit "&" else [])
          ++ (if nonEmpty body then lit "body=" ++ bodyEnc else []))
    /\ toText els' = to
    /\ classList els' = classList els /\ ariaHidden els' = ariaHidden els.
Proof.
  unfold buildLinks.
  destruct (enc to) as [a |]; [| discriminate].
  destruct (enc subject) as [b |]; [| discriminate].
  destruct (enc body) as [c |]; [| discriminate].
  cbn [bind]. intros [= <-]. exists a, b, c. now repeat split.
Qed.

Lemma enc_wellFormed (v : jsstring) :
  wellFormed v = true -> exists e, enc v = Ok e.
Proof.
  intros H. rewrite enc_eq, Encode_wellFormed by assumption. now eexists.
Qed.

(** On well-formed strings the builder returns. *)
Lemma buildLinks_total (els : modal) (to subject body : jsstring) :
  wellFormed to = true -> wellFormed subject = true -> wellFormed body = true ->
  exists els', buildLinks els to subject body = Ok els'.
Proof.
  intros H1 H2 H3. unfold buildLinks.
  destruct (enc_wellFormed to H1) as (a & ->).
  destruct (enc_wellFormed subject H2) as (b & ->).
  destruct (enc_wellFormed body H3) as (c & ->).
  cbn [bind]. now eexists.
Qed.

(** An unpaired surrogate makes [encodeURIComponent], and with it the
    builder, throw. *)
Lemma buildLinks_lone_surrogate (els : modal) :
  buildLinks els [0xD800] [] [] = Throw URIError.
Proof. reflexivity. Qed.

(** The round trip of the specification, in full. *)
Example round_trip_scenario (doc : document) :
  canRender doc = true ->
  exists doc' m,
    onMailtoClick
      (VString (lit "mailto:sales@example.com?subject=Hi%20there&body=Hello")) doc
    = Ok doc'
    /\ wtEmailModal doc' = Some m
    /\ gmailHref m = Some
         (lit "https://mail.google.com/mail/?view=cm&fs=1&to=sales%40example.com&su=Hi%20there&body=Hello")
    /\ outlookHref m = Some
         (lit "https://outlook.office.com/mail/deeplink/compose?to=sales%40example.com&subject=Hi%20there&body=Hello")
    /\ mailtoHref m = Some
         (lit "mailto:sales@example.com?subject=Hi%20there&body=Hello").
Proof.
  intros R. destruct doc as [b [m |]]; [| destruct b; [| discriminate]];
    eexists _, _;
    (split; [vm_compute; reflexivity | repeat split; reflexivity]).
Qed.



(** Looks for a parameter in a link made of literals and encoded values. *)
Ltac search :=
  unfold hasParam, GMAIL_COMPOSE, OUTLOOK_COMPOSE; lits;
  repeat (cbn;
          rewrite ?contains_skip, ?contains_absent by (now apply safe_noUnit));
  rewrite ?orb_true_r; try reflexivity.

Lemma gmail_params (a b c subject body : jsstring) :
  forallb safeUnit a = true -> forallb safeUnit b = true ->
  forallb safeUnit c = true ->
  let g := GMAIL_COMPOSE ++ a
           ++ (if nonEmpty subject then lit "&su=" ++ b else [])
           ++ (if nonEmpty body then lit "&body=" ++ c else []) in
  hasParam (lit "to") g = true
  /\ hasParam (lit "su") g = nonEmpty subject
  /\ hasParam (lit "body") g = nonEmpty body.
Proof.
  intros Ha Hb Hc. destruct subject, body; cbn [nonEmpty]; cbv zeta;
    repeat split; search.
Qed.

Lemma outlook_params (a b c subject body : jsstring) :
  forallb safeUnit a = true -> forallb safeUnit b = true ->
  forallb safeUnit c = true ->
  let o := OUTLOOK_COMPOSE ++ a
           ++ (if nonEmpty subject then lit "&subject=" ++ b else [])
           ++ (if nonEmpty body then lit "&body=" ++ c else []) in
  hasParam (lit "to") o = true
  /\ hasParam (lit "subject") o = nonEmpty subject
  /\ hasParam (lit "body") o = nonEmpty body.
Proof.
  intros Ha Hb Hc. destruct subject, body; cbn [nonEmpty]; cbv zeta;
    repeat split; search.
Qed.

(** Claim C6: the Gmail and the Outlook link are their compose endpoint
    followed by the encoded recipient as "to", then "&su=" (Gmail) or
    "&subject=" (Outlook) with the encoded subject when the subject is not
    empty, then "&body=" with the encoded body when the body is not empty.
    For well-formed strings the links are built; searching them finds "to"
    always, the subject parameter exactly when the subject is not empty and
    "body" exactly when the body is not empty; and a parameter that is
    there has a non-empty value. *)
Theorem C6_webmail_links (els : modal) (to subject body : jsstring) :
  (forall els', buildLinks els to subject body = Ok els' ->
     exists toEnc suEnc bodyEnc,
       JS.encodeURIComponent to = Ok toEnc
       /\ JS.encodeURIComponent subject = Ok suEnc
       /\ JS.encodeURIComponent body = Ok bodyEnc
       /\ nonEmpty suEnc = nonEmpty subject
       /\ nonEmpty bodyEnc = nonEmpty body
       /\ gmailHref els' = Some
            (lit "https://mail.google.com/mail/?view=cm&fs=1&to=" ++ toEnc
             ++ match subject with [] => [] | _ :: _ => lit "&su=" ++ suEnc end
             ++ match body with [] => [] | _ :: _ => lit "&body=" ++ bodyEnc end)
       /\ outlookHref els' = Some
            (lit "https://outlook.office.com/mail/deeplink/compose?to=" ++ toEnc
             ++ match subject with [] => [] | _ :: _ => lit "&subject=" ++ suEnc end
             ++ match body with [] => [] | _ :: _ => lit "&body=" ++ bodyEnc end))
  /\ (wellFormed to = true -> wellFormed subject = true ->
      wellFormed body = true ->
      exists els' g o,
        buildLinks els to subject body = Ok els'
        /\ gmailHref els' = Some g /\ outlookHref els' = Some o
        /\ hasParam (lit "to") g = true
        /\ hasParam (lit "su") g = nonEmpty subject
        /\ hasParam (lit "body") g = nonEmpty body
        /\ hasParam (lit "to") o = true
        /\ hasParam (lit "subject") o = nonEmpty subject
        /\ hasParam (lit "body") o = nonEmpty body).
Proof.
  split.
  - intros els' B.
    destruct (buildLinks_inv _ _ _ _ _ B) as (a & b & c & Ea & Eb & Ec & G & O & _).
    rewrite enc_eq in Ea, Eb, Ec. exists a, b, c.
    repeat split; try assumption; try (now apply Encode_nonEmpty).
    + rewrite G. now destruct subject, body.
    + rewrite O. now destruct subject, body.
  - intros W1 W2 W3.
    destruct (buildLinks_total els _ _ _ W1 W2 W3) as (els' & B).
    destruct (buildLinks_inv _ _ _ _ _ B) as (a & b & c & Ea & Eb & Ec & G & O & _).
    rewrite enc_eq in Ea, Eb, Ec.
    pose proof (Encode_safe _ _ W1 Ea) as Sa.
    pose proof (Encode_safe _ _ W2 Eb) as Sb.
    pose proof (Encode_safe _ _ W3 Ec) as Sc.
    destruct (gmail_params a b c subject body Sa Sb Sc) as (G1 & G2 & G3).
    destruct (outlook_params a b c subject body Sa Sb Sc) as (O1 & O2 & O3).
    eexists els', _, _. repeat split; eassumption.
Qed.

Lemma C6_witness :
  exists els' g o,
    buildLinks
      {| classList := []; ariaHidden := lit "true"; gmailHref := None;
         outlookHref := None; mailtoHref := None; toText := DEFAULT_TO |}
      (lit "sales@example.com") [] (lit "Hello") = Ok els'
    /\ gmailHref els' = Some g /\ outlookHref els' = Some o
    /\ hasParam (lit "to") g = true
    /\ hasParam (lit "su") g = false
    /\ hasParam (lit "body") g = true
    /\ hasParam (lit "to") o = true
    /\ hasParam (lit "subject") o = false
    /\ hasParam (lit "body") o = true.
Proof.
  exact (proj2 (C6_webmail_links _ (lit "sales@example.com") [] (lit "Hello"))
           eq_refl eq_refl eq_refl).
Defined.

(** * The dialog controller: claim C8 *)

Lemma classListRemove_absent (c : jsstring) (l : list jsstring) :
  existsb (eqs c) (classListRemove c l) = false.
Proof.
  unfold classListRemove. induction l as [| x l IH]; [reflexivity |].
  cbn [filter]. destruct (eqs c x) eqn:E; cbn [negb]; [exact IH |].
  cbn [existsb]. now rewrite E, IH.
Qed.

Lemma classListRemove_idem (c : jsstring) (l : list jsstring) :
  classListRemove c (classListRemove c l) = classListRemove c l.
Proof.
  unfold classListRemove. induction l as [| x l IH]; [reflexivity |].
  cbn [filter]. destruct (eqs c x) eqn:E; cbn [negb]; [exact IH |].
  cbn [filter]. now rewrite E, IH.
Qed.

Lemma classListAdd_present (c : jsstring) (l : list jsstring) :
  existsb (eqs c) (classListAdd c l) = true.
Proof.
  unfold classListAdd. destruct (existsb (eqs c) l) eqn:E; [exact E |].
  rewrite existsb_app. cbn [existsb]. now rewrite eqs_refl, orb_true_r.
Qed.

(** Claim C8: [closeModal] never throws and leaves the dialog closed,
    whatever the state before: open, closed, or not rendered yet.  A second
    call changes nothing, and a call before the element exists leaves the
    page as it is. *)
Theorem C8_close_is_total_and_idempotent (doc : document) :
  exists doc',
    closeModal doc = Ok doc'
    /\ stateOf doc' = CLOSED
    /\ closeModal doc' = Ok doc'
    /\ (wtEmailModal doc = None -> doc' = doc)
    /\ (forall m, wtEmailModal doc = Some m ->
          exists m', wtEmailModal doc' = Some m'
                     /\ ariaHidden m' = lit "true"
                     /\ gmailHref m' = gmailHref m
                     /\ outlookHref m' = outlookHref m
                     /\ mailtoHref m' = mailtoHref m
                     /\ toText m' = toText m).
Proof.
  destruct doc as [b [m |]]; unfold closeModal, getEls; cbn [wtEmailModal].
  - eexists; split; [reflexivity |]. repeat split.
    + unfold stateOf; cbn [wtEmailModal setAriaHidden setClassList classList].
      now rewrite classListRemove_absent.
    + unfold closeModal, getEls, setAriaHidden, setClassList;
        cbn [wtEmailModal classList ariaHidden gmailHref outlookHref mailtoHref
             toText].
      now rewrite classListRemove_idem.
    + discriminate.
    + intros m0 [= <-]. eexists; split; [reflexivity |]. now repeat split.
  - eexists; split; [reflexivity |]. repeat split; discriminate.
Qed.

Lemma C8_witness :
  exists doc',
    closeModal {| hasBody := true; wtEmailModal := None |} = Ok doc'
    /\ stateOf doc' = CLOSED
    /\ closeModal doc' = Ok doc'
    /\ doc' = {| hasBody := true; wtEmailModal := None |}.
Proof.
  destruct (C8_close_is_total_and_idempotent
              {| hasBody := true; wtEmailModal := None |})
    as (doc' & H1 & H2 & H3 & H4 & _).
  exists doc'. repeat split; try assumption. now apply H4.
Defined.

Lemma field_to (p : option payload) :
  field p p_to DEFAULT_TO = to (requestOf p).
Proof. destruct p as [[[[| c s] |] ? ?] |]; reflexivity. Qed.

Lemma field_subject (p : option payload) :
  field p p_subject [] = subject (requestOf p).
Proof. destruct p as [[? [[| c s] |] ?] |]; reflexivity. Qed.

Lemma field_body (p : option payload) :
  field p p_body [] = body (requestOf p).
Proof. destruct p as [[? ? [[| c s] |]] |]; reflexivity. Qed.

(** With no request the links are those of the default address alone. *)
Example open_without_request (doc : document) :
  canRender doc = true ->
  exists doc' m,
    openModal None doc = Ok doc' /\ wtEmailModal doc' = Some m
    /\ gmailHref m = Some
         (lit "https://mail.google.com/mail/?view=cm&fs=1&to=support%40WestTechHA.com")
    /\ outlookHref m = Some
         (lit "https://outlook.office.com/mail/deeplink/compose?to=support%40WestTechHA.com")
    /\ mailtoHref m = Some (lit "mailto:support@WestTechHA.com")
    /\ toText m = lit "support@WestTechHA.com".
Proof.
  intros R. destruct doc as [b [m |]]; [| destruct b; [| discriminate]];
    eexists _, _;
    (split; [vm_compute; reflexivity | repeat split; reflexivity]).
Qed.

(** * Further properties of the code *)

(** * Further properties of the decomposer *)

Lemma trimStart_app (a b : jsstring) :
  JS.trimStart (a ++ b)
  = match JS.trimStart a with
    | [] => JS.trimStart b
    | c :: t => (c :: t) ++ b
    end.
Proof.
  induction a as [| x a IH]; [reflexivity |].
  cbn [app JS.trimStart]. destruct (JS.isWhiteSpace x); [exact IH | reflexivity].
Qed.

Lemma trimStart_blank (w : jsstring) :
  forallb JS.isWhiteSpace w = true -> JS.trimStart w = [].
Proof.
  induction w as [| x w IH]; [reflexivity |]. cbn [forallb JS.trimStart].
  intros H. apply andb_true_iff in H as [Hx Hw]. now rewrite Hx, IH.
Qed.

Lemma trimStart_head (s : jsstring) (c : N) (t : jsstring) :
  JS.trimStart s = c :: t -> JS.isWhiteSpace c = false.
Proof.
  induction s as [| x s IH]; [discriminate |]. cbn [JS.trimStart].
  destruct (JS.isWhiteSpace x) eqn:E; [exact IH | now intros [= <- <-]].
Qed.

Lemma trimEnd_app_blank (s w : jsstring) :
  forallb JS.isWhiteSpace w = true -> JS.trimEnd (s ++ w) = JS.trimEnd s.
Proof.
  intros H. unfold JS.trimEnd. rewrite rev_app_distr, trimStart_app.
  rewrite trimStart_blank; [reflexivity |].
  rewrite forallb_forall in *. intros x Hx. apply H. now apply in_rev.
Qed.

Lemma trimEnd_nil : JS.trimEnd [] = [].
Proof. reflexivity. Qed.

(** White space around a string does not count. *)
Lemma trim_padding (w1 s w2 : jsstring) :
  forallb JS.isWhiteSpace w1 = true -> forallb JS.isWhiteSpace w2 = true ->
  JS.trim (w1 ++ s ++ w2) = JS.trim s.
Proof.
  intros H1 H2. unfold JS.trim.
  rewrite trimStart_app, (trimStart_blank w1 H1), trimStart_app.
  destruct (JS.trimStart s) as [| c t].
  - now rewrite (trimStart_blank w2 H2).
  - now apply trimEnd_app_blank.
Qed.

Lemma endsClean_trimEnd (s : jsstring) : endsClean (JS.trimEnd s) = true.
Proof.
  unfold endsClean, JS.trimEnd. rewrite rev_involutive.
  destruct (JS.trimStart (rev s)) as [| c t] eqn:E; [reflexivity |].
  apply negb_true_iff. eapply trimStart_head; eauto.
Qed.

Lemma trimEnd_head (c : N) (t : jsstring) :
  JS.isWhiteSpace c = false -> exists t', JS.trimEnd (c :: t) = c :: t'.
Proof.
  intros Hc. destruct (trimEnd_prefix (c :: t)) as (w & E & W).
  destruct (JS.trimEnd (c :: t)) as [| x t'] eqn:T.
  - cbn [app] in E. subst w. cbn [forallb] in W.
    apply andb_true_iff in W as [W _]. congruence.
  - cbn [app] in E. injection E as <- _. now exists t'.
Qed.

(** Trimming twice is trimming once. *)
Lemma trim_idem (s : jsstring) : JS.trim (JS.trim s) = JS.trim s.
Proof.
  unfold JS.trim at 2 3. destruct (JS.trimStart s) as [| c t] eqn:E; [reflexivity |].
  pose proof (trimStart_head _ _ _ E) as Hc.
  pose proof (endsClean_trimEnd (c :: t)) as He.
  destruct (trimEnd_head c t Hc) as (t' & T). rewrite T in *.
  now apply trim_clean.
Qed.

Lemma parseMailto_by_trim (s s' : jsstring) :
  JS.trim s = JS.trim s' -> parseMailto (VString s) = parseMailto (VString s').
Proof.
  intros H.
  assert (forall x, JS.trim x = [] -> parseMailto (VString x) = Ok emptyRequest) as Hnil.
  { intros x Hx. apply parseMailto_not_mailto. now rewrite Hx. }
  destruct s as [| c s], s' as [| c' s']; try reflexivity.
  - rewrite (Hnil (c' :: s')) by (now rewrite <- H). reflexivity.
  - rewrite (Hnil (c :: s)) by (now rewrite H). reflexivity.
  - unfold parseMailto. now rewrite H.
Qed.

(** X1. [parseMailto] trims its argument first: white space before and
    after a link changes nothing, neither the request returned nor the
    error thrown. *)
Theorem X1_surrounding_white_space_is_ignored (w1 s w2 : jsstring) :
  forallb JS.isWhiteSpace w1 = true -> forallb JS.isWhiteSpace w2 = true ->
  parseMailto (VString (w1 ++ s ++ w2)) = parseMailto (VString s).
Proof. intros H1 H2. apply parseMailto_by_trim. now apply trim_padding. Qed.

Lemma X1_witness :
  parseMailto (VString (lit "  " ++ lit "mailto:a@b.c?subject=Hi" ++ [0x0A; 0x09]))
  = parseMailto (VString (lit "mailto:a@b.c?subject=Hi")).
Proof.
  exact (X1_surrounding_white_space_is_ignored
           (lit "  ") (lit "mailto:a@b.c?subject=Hi") [0x0A; 0x09] eq_refl eq_refl).
Defined.

Lemma trimEnd_keep (p rest : jsstring) :
  p <> [] -> endsClean p = true -> JS.trimEnd (p ++ rest) = p ++ JS.trimEnd rest.
Proof.
  intros Hp He. unfold JS.trimEnd. rewrite rev_app_distr, trimStart_app.
  assert (JS.trimStart (rev p) = rev p) as Hr.
  { unfold endsClean in He. destruct (rev p) as [| c r] eqn:E.
    - apply (f_equal (@rev N)) in E. rewrite rev_involutive in E. now subst.
    - apply negb_true_iff in He. now apply trimStart_clean. }
  destruct (JS.trimStart (rev rest)) as [| c t].
  - rewrite Hr, rev_involutive. cbn [rev]. now rewrite app_nil_r.
  - now rewrite rev_app_distr, rev_involutive.
Qed.

Lemma trim_keep (c : N) (p rest : jsstring) :
  JS.isWhiteSpace c = false -> endsClean (c :: p) = true ->
  JS.trim ((c :: p) ++ rest) = (c :: p) ++ JS.trimEnd rest.
Proof.
  intros Hc He. unfold JS.trim. cbn [app]. rewrite trimStart_clean by assumption.
  now apply (trimEnd_keep (c :: p) rest).
Qed.

Lemma sameLetter_cases (c x : N) :
  sameLetter c x = true -> c = x \/ (65 <= c <= 90 /\ c + 32 = x).
Proof.
  unfold sameLetter, JS.between. intros H. unbool; subst; auto.
Qed.

Lemma isWhiteSpace_range (c : N) :
  JS.isWhiteSpace c = true -> c <= 32 \/ 128 <= c.
Proof.
  unfold JS.isWhiteSpace, JS.between. intros W.
  repeat (apply orb_true_iff in W; destruct W as [W | W]); unbool; subst; lia.
Qed.

(** In a match of "mailto:" up to case, no unit is white space or '?'. *)
Lemma scheme_units (p : jsstring) :
  startsWithCI p (lit "mailto:") = true -> length p = 7%nat ->
  forallb (fun c => negb (JS.isWhiteSpace c) && negb (c =? 0x3F)) p = true.
Proof.
  intros H L.
  destruct p as [| c1 [| c2 [| c3 [| c4 [| c5 [| c6 [| c7 [| c8 p]]]]]]]];
    try discriminate.
  vm_compute lit in H. cbn [startsWithCI] in H.
  repeat (apply andb_true_iff in H; destruct H as [? H]).
  cbn [forallb].
  repeat match goal with
         | S : sameLetter ?c _ = true |- _ =>
             apply sameLetter_cases in S;
             assert (JS.isWhiteSpace c = false /\ (c =? 0x3F) = false) as [-> ->]
               by (split;
                   [ apply not_true_iff_false; intros W;
                     apply isWhiteSpace_range in W; lia
                   | apply N.eqb_neq; lia ]);
             clear S
         end.
  reflexivity.
Qed.

Lemma clean_units_endsClean (p : jsstring) :
  forallb (fun c => negb (JS.isWhiteSpace c) && negb (c =? 0x3F)) p = true ->
  endsClean p = true /\ noUnit 0x3F p = true.
Proof.
  intros H. split.
  - unfold endsClean. destruct (rev p) as [| c r] eqn:E; [reflexivity |].
    rewrite forallb_forall in H.
    assert (In c p) as Hin by (apply in_rev; rewrite E; now left).
    apply H in Hin. now apply andb_true_iff in Hin as [? _].
  - eapply forallb_impl; [| exact H]. intros x Hx.
    now apply andb_true_iff in Hx as [_ ?].
Qed.

Lemma scheme_trim (p rest : jsstring) :
  startsWithCI p (lit "mailto:") = true -> length p = 7%nat ->
  JS.trim (p ++ rest) = p ++ JS.trimEnd rest.
Proof.
  intros H L. pose proof (scheme_units p H L) as U.
  destruct (clean_units_endsClean p U) as [He _].
  destruct p as [| c p]; [discriminate |].
  apply trim_keep; [| assumption].
  cbn [forallb] in U. apply andb_true_iff in U as [U _].
  apply andb_true_iff in U as [U _]. now apply negb_true_iff in U.
Qed.

(** X2. The scheme test of [parseMailto] lower-cases the link: any seven
    code units that read "mailto:" up to the case of their letters give
    the result of the lower-case prefix, since the prefix is cut off by
    its length and the rest is taken as it stands. *)
Theorem X2_scheme_case_does_not_matter (p rest : jsstring) :
  length p = 7%nat -> startsWithCI p (lit "mailto:") = true ->
  parseMailto (VString (p ++ rest)) = parseMailto (VString (lit "mailto:" ++ rest)).
Proof.
  intros L H.
  rewrite (parseMailto_rest (p ++ rest) p (JS.trimEnd rest))
    by (assumption || now apply scheme_trim).
  rewrite (parseMailto_rest (lit "mailto:" ++ rest) (lit "mailto:") (JS.trimEnd rest))
    by (reflexivity || now apply scheme_trim).
  reflexivity.
Qed.

Lemma X2_witness :
  parseMailto (VString (lit "MailTo:" ++ lit "a%40b.c?subject=Hi"))
  = parseMailto (VString (lit "mailto:" ++ lit "a%40b.c?subject=Hi")).
Proof.
  exact (X2_scheme_case_does_not_matter (lit "MailTo:") (lit "a%40b.c?subject=Hi")
           eq_refl eq_refl).
Defined.

Lemma DEFAULT_TO_nonEmpty (x : jsstring) : orElse x DEFAULT_TO <> [].
Proof. destruct x; discriminate. Qed.

(** The forward reading of [parseMailto] on a mailto href. *)
Lemma parseMailto_structure (s : jsstring) :
  startsWithCI (JS.trim s) (lit "mailto:") = true ->
  exists p A tl Q,
    JS.trim s = p ++ A ++ tl /\ length p = 7%nat
    /\ startsWithCI p (lit "mailto:") = true
    /\ noUnit 0x3F A = true
    /\ (tl = [] /\ Q = [] \/ tl = 0x3F :: Q)
    /\ parseMailto (VString s)
       = let* d := JS.decodeURIComponent A in Ok (requestFrom d Q).
Proof.
  intros C.
  destruct (startsWithCI_split _ _ C eq_refl) as (p & rest & E & L & P & Cp).
  rewrite (parseMailto_rest s p rest E L Cp). cbv zeta.
  destruct (Z.leb_spec 0 (JS.indexOf rest 0x3F)) as [Hi | Hi].
  - destruct (indexOf_found rest 0x3F Hi) as (A & Q & -> & HA).
    rewrite indexOf_first, slice_upto by assumption.
    replace (A ++ 0x3F :: Q) with ((A ++ [0x3F]) ++ Q)
      by now rewrite <- app_assoc.
    replace (Z.of_nat (length A) + 1)%Z with (Z.of_nat (length (A ++ [0x3F])))
      by (rewrite length_app; simpl; lia).
    rewrite slice_from.
    exists p, A, (0x3F :: Q), Q. repeat split; auto.
  - exists p, rest, [], []. rewrite app_nil_r. repeat split; auto.
    now apply indexOf_missing.
Qed.

(** X3. When [parseMailto] returns, the recipient is empty exactly when
    the trimmed argument does not start with "mailto:" (in any case of
    letters): inside the scheme an empty or blank address is replaced by
    the default recipient. *)
Theorem X3_recipient_is_empty_only_off_scheme (s : jsstring) (r : EmailRequest) :
  parseMailto (VString s) = Ok r ->
  (to r = [] <-> startsWithCI (JS.trim s) (lit "mailto:") = false).
Proof.
  intros H. destruct (startsWithCI (JS.trim s) (lit "mailto:")) eqn:C.
  - destruct (parseMailto_structure s C) as (p & A & tl & Q & _ & _ & _ & _ & _ & E).
    rewrite E in H. destruct (JS.decodeURIComponent A) as [d |]; [| discriminate].
    cbn [bind] in H. injection H as <-. unfold requestFrom; cbn [to].
    split; [intros T; now apply DEFAULT_TO_nonEmpty in T | discriminate].
  - rewrite parseMailto_not_mailto in H by assumption. injection H as <-.
    now split.
Qed.

Lemma X3_witness :
  to {| to := lit "support@WestTechHA.com"; subject := []; body := [] |} = []
  <-> startsWithCI (JS.trim (lit "mailto:")) (lit "mailto:") = false.
Proof.
  exact (X3_recipient_is_empty_only_off_scheme (lit "mailto:")
           {| to := lit "support@WestTechHA.com"; subject := []; body := [] |}
           eq_refl).
Defined.

(** X4. The recipient returned by [parseMailto] has no white space
    around it: trimming it again changes nothing. *)
Theorem X4_recipient_is_trimmed (s : jsstring) (r : EmailRequest) :
  parseMailto (VString s) = Ok r -> JS.trim (to r) = to r.
Proof.
  intros H.
  destruct (parseMailto_cases s r H) as [-> | (p & A & Q & d & _ & _ & _ & _ & ->)];
    [reflexivity |].
  unfold requestFrom; cbn [to].
  destruct (JS.trim d) as [| c t] eqn:T; [reflexivity |].
  cbn [orElse]. rewrite <- T. apply trim_idem.
Qed.

Lemma X4_witness :
  JS.trim (to {| to := lit "a@b.c"; subject := []; body := [] |})
  = to {| to := lit "a@b.c"; subject := []; body := [] |}.
Proof.
  exact (X4_recipient_is_trimmed (lit "mailto:%20a@b.c%09") _ eq_refl).
Defined.

Lemma Decode_plain (s : jsstring) :
  noUnit 0x25 s = true -> JS.Decode s = Ok s.
Proof.
  unfold JS.Decode, noUnit. induction s as [| c t IH]; [reflexivity |].
  cbn [forallb JS.DecodeFrom]. intros H. apply andb_true_iff in H as [Hc Ht].
  apply negb_true_iff in Hc. now rewrite Hc, IH.
Qed.

Lemma upTo_app (c : N) (x y : jsstring) :
  noUnit c x = true -> upTo c (x ++ y) = x ++ upTo c y.
Proof.
  unfold noUnit. induction x as [| a x IH]; [reflexivity |].
  cbn [forallb app upTo]. intros H. apply andb_true_iff in H as [Ha Hx].
  apply negb_true_iff in Ha. now rewrite Ha, IH.
Qed.

Lemma whiteSpace_noUnit (w : jsstring) :
  forallb JS.isWhiteSpace w = true -> noUnit 0x3F w = true.
Proof.
  apply forallb_impl. intros c W. apply negb_true_iff, N.eqb_neq. intros ->.
  discriminate.
Qed.

Lemma trim_within (s : jsstring) :
  exists w w', s = w ++ JS.trim s ++ w' /\ forallb JS.isWhiteSpace w = true.
Proof.
  destruct (trimStart_suffix s) as (w & E & W).
  destruct (trimEnd_prefix (JS.trimStart s)) as (w' & E' & _).
  exists w, w'. split; [| assumption]. unfold JS.trim. now rewrite <- E', <- E.
Qed.

(** X5. The only part of a link that [parseMailto] hands to
    [decodeURIComponent] is its address: a link with no '%' before its
    first '?' is decomposed without an error, whatever its query holds
    (URLSearchParams never throws). *)
Theorem X5_no_escape_before_query_means_no_error (s : jsstring) :
  noUnit 0x25 (upTo 0x3F s) = true -> exists r, parseMailto (VString s) = Ok r.
Proof.
  intros H. destruct (startsWithCI (JS.trim s) (lit "mailto:")) eqn:C.
  2:{ eexists. now apply parseMailto_not_mailto. }
  destruct (parseMailto_structure s C) as (p & A & tl & Q & T & L & Cp & HA & _ & E).
  rewrite E. destruct (trim_within s) as (w & w' & Es & W).
  destruct (clean_units_endsClean p (scheme_units p Cp L)) as [_ Hp].
  rewrite Es, T in H.
  replace (w ++ (p ++ A ++ tl) ++ w') with ((w ++ p ++ A) ++ tl ++ w') in H
    by (now rewrite <- !app_assoc).
  rewrite upTo_app in H
    by (rewrite !noUnit_app, whiteSpace_noUnit, Hp, HA by assumption; reflexivity).
  rewrite !noUnit_app in H.
  apply andb_true_iff in H as [H _]. apply andb_true_iff in H as [_ H].
  apply andb_true_iff in H as [_ H].
  unfold JS.decodeURIComponent. rewrite Decode_plain by assumption.
  now eexists.
Qed.

Lemma X5_witness :
  exists r, parseMailto (VString (lit "mailto:a@b.c?subject=100%&body=%zz")) = Ok r.
Proof.
  exact (X5_no_escape_before_query_means_no_error
           (lit "mailto:a@b.c?subject=100%&body=%zz") eq_refl).
Defined.

(** X6. Subject and body returned by [parseMailto] are well-formed
    UTF-16, whatever the link held (URLSearchParams decodes with
    replacement), so [enc] never throws on them. *)
Theorem X6_subject_and_body_are_well_formed (s : jsstring) (r : EmailRequest) :
  parseMailto (VString s) = Ok r ->
  wellFormed (subject r) = true /\ wellFormed (body r) = true
  /\ exists suEnc bodyEnc, enc (subject r) = Ok suEnc /\ enc (body r) = Ok bodyEnc.
Proof.
  intros H.
  assert (wellFormed (subject r) = true /\ wellFormed (body r) = true) as [W1 W2].
  { destruct (parseMailto_cases s r H)
      as [-> | (p & A & Q & d & _ & _ & _ & _ & ->)]; [now split |].
    apply queryFields_wellFormed. }
  destruct (enc_wellFormed _ W1) as (a & Ea).
  destruct (enc_wellFormed _ W2) as (b & Eb).
  repeat split; try assumption. now exists a, b.
Qed.

Lemma X6_witness :
  wellFormed [0xFFFD; 0x78] = true /\ wellFormed [] = true
  /\ exists suEnc bodyEnc, enc [0xFFFD; 0x78] = Ok suEnc /\ enc [] = Ok bodyEnc.
Proof.
  exact (X6_subject_and_body_are_well_formed
           (lit "mailto:a@b.c?subject=" ++ [0xDC00; 0x78])
           {| to := lit "a@b.c"; subject := [0xFFFD; 0x78]; body := [] |} eq_refl).
Defined.

(** "mailto:" ++ A ++ "?" ++ Q for any query: only its trailing white space
    is lost. *)
Lemma parseMailto_any_query (A Q : jsstring) :
  noUnit 0x3F A = true ->
  parseMailto (VString (lit "mailto:" ++ A ++ 0x3F :: Q))
  = let* d := JS.decodeURIComponent A in Ok (requestFrom d (JS.trimEnd Q)).
Proof.
  intros HA.
  assert (JS.trimEnd (A ++ 0x3F :: Q) = A ++ 0x3F :: JS.trimEnd Q) as T.
  { replace (A ++ 0x3F :: Q) with ((A ++ [0x3F]) ++ Q) by now rewrite <- app_assoc.
    rewrite trimEnd_keep; [now rewrite <- app_assoc | now destruct A |].
    now apply endsClean_snoc. }
  rewrite (parseMailto_rest _ (lit "mailto:") (A ++ 0x3F :: JS.trimEnd Q));
    try reflexivity.
  - cbv zeta. rewrite indexOf_first by assumption.
    destruct (Z.leb_spec 0 (Z.of_nat (length A))); [| lia].
    rewrite slice_upto.
    replace (A ++ 0x3F :: JS.trimEnd Q) with ((A ++ [0x3F]) ++ JS.trimEnd Q)
      by now rewrite <- app_assoc.
    replace (Z.of_nat (length A) + 1)%Z with (Z.of_nat (length (A ++ [0x3F])))
      by (rewrite length_app; simpl; lia).
    now rewrite slice_from.
  - rewrite scheme_trim by reflexivity. now rewrite T.
Qed.

(** ** White space after an address *)

Lemma hexValue_blank (c : N) : JS.isWhiteSpace c = true -> JS.hexValue c = None.
Proof.
  intros W. destruct (JS.hexValue c) as [v |] eqn:E; [| reflexivity].
  exfalso. unfold JS.hexValue, JS.isDigit, JS.between in E.
  unfold JS.isWhiteSpace, JS.between in W.
  destruct (N.leb_spec 0x30 c), (N.leb_spec c 0x39),
    (N.leb_spec 0x41 c), (N.leb_spec c 0x46),
    (N.leb_spec 0x61 c), (N.leb_spec c 0x66); cbn [andb] in E;
    try discriminate;
    repeat (apply orb_true_iff in W; destruct W as [W | W]);
    unbool; lia.
Qed.

Lemma blank_not_percent (c : N) : JS.isWhiteSpace c = true -> (c =? 0x25) = false.
Proof.
  intros W. apply N.eqb_neq. intros ->. discriminate.
Qed.

Lemma blank_noUnit (c : N) (w : jsstring) :
  JS.isWhiteSpace c = false -> forallb JS.isWhiteSpace w = true -> noUnit c w = true.
Proof.
  intros Hc. apply forallb_impl. intros x W. apply negb_true_iff, N.eqb_neq.
  intros ->. congruence.
Qed.

Lemma ParseHexOctet_blank_r (c1 c2 : N) :
  JS.isWhiteSpace c2 = true -> JS.ParseHexOctet c1 c2 = None.
Proof.
  intros W. unfold JS.ParseHexOctet. rewrite (hexValue_blank c2 W).
  now destruct (JS.hexValue c1).
Qed.

Lemma ParseHexOctet_blank_l (c1 c2 : N) :
  JS.isWhiteSpace c1 = true -> JS.ParseHexOctet c1 c2 = None.
Proof.
  intros W. unfold JS.ParseHexOctet. now rewrite (hexValue_blank c1 W).
Qed.

(** An escape sequence cannot reach into white space. *)
Lemma readEscapes_app_blank (n : nat) (s w : jsstring) :
  forallb JS.isWhiteSpace w = true ->
  JS.readEscapes n (s ++ w) = JS.readEscapes n s.
Proof.
  intros W. revert s; induction n as [| n IH]; intros s; [reflexivity |].
  destruct s as [| p [| c1 [| c2 t]]]; cbn [app JS.readEscapes].
  - destruct w as [| x [| y [| z w]]]; try reflexivity.
    cbn [forallb] in W. apply andb_true_iff in W as [Wx _].
    now rewrite (blank_not_percent x Wx).
  - destruct w as [| x [| y w]]; try reflexivity.
    cbn [forallb] in W. apply andb_true_iff in W as [Wx _].
    rewrite (ParseHexOctet_blank_l x y Wx). now destruct (p =? 0x25).
  - destruct w as [| x w]; try reflexivity.
    cbn [forallb] in W. apply andb_true_iff in W as [Wx _].
    rewrite (ParseHexOctet_blank_r c1 x Wx). now destruct (p =? 0x25).
  - now rewrite IH.
Qed.

Lemma decodeEscape_app_blank (s w : jsstring) :
  forallb JS.isWhiteSpace w = true -> JS.decodeEscape (s ++ w) = JS.decodeEscape s.
Proof.
  intros W. unfold JS.decodeEscape. rewrite !readEscapes_app_blank by assumption.
  destruct (JS.readEscapes 1 s) as [[| b [| b' l]] |]; try reflexivity.
  destruct (JS.leadingOnes b) as [| [| n]]; try reflexivity.
  now rewrite readEscapes_app_blank.
Qed.

Lemma decodeEscape_length (s str : jsstring) (n : nat) :
  JS.decodeEscape s = Ok (str, n) -> (1 <= n <= length s)%nat.
Proof.
  unfold JS.decodeEscape.
  destruct (JS.readEscapes 1 s) as [[| b [| b' l]] |] eqn:E1; try discriminate.
  destruct (readEscapes_prefix 1 s _ E1) as (p1 & r1 & -> & L1 & _).
  destruct (JS.leadingOnes b) as [| [| k]] eqn:Lb; try discriminate.
  - intros [= _ <-]. rewrite length_app. lia.
  - destruct (4 <? S (S k))%nat; [discriminate |].
    destruct (JS.readEscapes (S (S k)) (p1 ++ r1)) as [octets |] eqn:E2;
      [| discriminate].
    destruct (readEscapes_prefix _ _ _ E2) as (p2 & r2 & E & L2 & _).
    destruct (JS.utf8Value octets); [| discriminate].
    intros [= _ <-]. rewrite E, length_app. lia.
Qed.

Lemma DecodeFrom_app_blank (s w : jsstring) (k : nat) :
  forallb JS.isWhiteSpace w = true -> (k <= length s)%nat ->
  JS.DecodeFrom k (s ++ w) = let* r := JS.DecodeFrom k s in Ok (r ++ w).
Proof.
  intros W. revert k; induction s as [| c t IH]; intros k Hk.
  - cbn [length] in Hk. replace k with 0%nat by lia. cbn [app JS.DecodeFrom bind].
    apply Decode_plain. now apply blank_noUnit.
  - destruct k as [| k].
    + cbn [app JS.DecodeFrom].
      change (c :: t ++ w) with ((c :: t) ++ w).
      rewrite decodeEscape_app_blank by assumption.
      destruct (c =? 0x25).
      * destruct (JS.decodeEscape (c :: t)) as [[str n] |] eqn:E; [| reflexivity].
        apply decodeEscape_length in E. cbn [length] in E. cbn [bind fst snd].
        rewrite IH by lia.
        destruct (JS.DecodeFrom (n - 1) t) as [r |]; [| reflexivity].
        cbn [bind]. now rewrite app_assoc.
      * rewrite IH by lia.
        destruct (JS.DecodeFrom 0 t) as [r |]; reflexivity.
    + cbn [app JS.DecodeFrom]. apply IH. cbn [length] in Hk. lia.
Qed.

(** White space after the text stays after the decoded text. *)
Lemma Decode_app_blank (s w : jsstring) :
  forallb JS.isWhiteSpace w = true ->
  JS.Decode (s ++ w) = let* r := JS.Decode s in Ok (r ++ w).
Proof.
  intros W. apply DecodeFrom_app_blank; [assumption | lia].
Qed.

Lemma requestFrom_padding (d w query : jsstring) :
  forallb JS.isWhiteSpace w = true -> requestFrom (d ++ w) query = requestFrom d query.
Proof.
  intros W. unfold requestFrom. f_equal.
  now rewrite <- (trim_padding [] d w) by (reflexivity || assumption).
Qed.

(** "mailto:" ++ A without a query, for any address: the white space at
    its end is dropped with the link's or with the decoded address's. *)
Lemma parseMailto_any_address (A : jsstring) :
  noUnit 0x3F A = true ->
  parseMailto (VString (lit "mailto:" ++ A))
  = let* d := JS.decodeURIComponent A in Ok (requestFrom d []).
Proof.
  intros HA. destruct (trimEnd_prefix A) as (w & E & W).
  assert (noUnit 0x3F (JS.trimEnd A) = true) as HT.
  { rewrite E, noUnit_app in HA. now apply andb_true_iff in HA as [HA _]. }
  rewrite (parseMailto_rest _ (lit "mailto:") (JS.trimEnd A))
    by (reflexivity || now apply scheme_trim).
  cbv zeta. rewrite indexOf_absent by exact HT.
  change (0 <=? -1)%Z with false. cbv iota.
  unfold JS.decodeURIComponent. rewrite E at 2.
  rewrite Decode_app_blank by assumption.
  destruct (JS.Decode (JS.trimEnd A)) as [d |]; [| reflexivity].
  cbn [bind]. now rewrite requestFrom_padding.
Qed.

(** X7. An address that decodes to nothing but white space gives the
    default recipient, with a query and without one. *)
Theorem X7_blank_address_gives_default (A Q d : jsstring) :
  noUnit 0x3F A = true -> JS.decodeURIComponent A = Ok d ->
  forallb JS.isWhiteSpace d = true ->
  (exists r, parseMailto (VString (lit "mailto:" ++ A ++ 0x3F :: Q)) = Ok r
             /\ to r = lit "support@WestTechHA.com")
  /\ (exists r, parseMailto (VString (lit "mailto:" ++ A)) = Ok r
                /\ to r = lit "support@WestTechHA.com").
Proof.
  intros HA HD W.
  assert (JS.trim d = []) as T.
  { unfold JS.trim. now rewrite trimStart_blank. }
  split.
  - rewrite parseMailto_any_query, HD by assumption. cbn [bind].
    eexists; split; [reflexivity |]. unfold requestFrom; cbn [to]. now rewrite T.
  - rewrite parseMailto_any_address, HD by assumption. cbn [bind].
    eexists; split; [reflexivity |]. unfold requestFrom; cbn [to]. now rewrite T.
Qed.

Lemma X7_witness :
  (exists r, parseMailto (VString (lit "mailto:%20 ?subject=Hi ")) = Ok r
             /\ to r = lit "support@WestTechHA.com")
  /\ (exists r, parseMailto (VString (lit "mailto:%20 ")) = Ok r
                /\ to r = lit "support@WestTechHA.com").
Proof.
  exact (X7_blank_address_gives_default (lit "%20 ") (lit "subject=Hi ")
           (lit "  ") eq_refl eq_refl eq_refl).
Defined.

(** * Further properties of the link builder *)

Lemma href_body (A B : jsstring) :
  lit "mailto:" ++ A ++ lit "?body=" ++ B
  = lit "mailto:" ++ A ++ 0x3F :: joinQuery [(lit "body", B)].
Proof.
  cbn [joinQuery]. change (lit "?body=") with (0x3F :: lit "body" ++ [0x3D]).
  cbn [app]. now rewrite <- !app_assoc.
Qed.

(** "mailto:A?body=B" *)
Lemma parseMailto_body (A d B : jsstring) :
  noUnit 0x3F A = true -> JS.decodeURIComponent A = Ok d ->
  queryValue B = true -> endsClean B = true ->
  parseMailto (VString (lit "mailto:" ++ A ++ lit "?body=" ++ B))
  = Ok {| to := orElse (JS.trim d) DEFAULT_TO; subject := []; body := formDecode B |}.
Proof.
  intros HA HD HB HE. rewrite href_body.
  rewrite (parseMailto_joinQuery A d); try assumption; try discriminate;
    try reflexivity.
  - cbv zeta. lookup. reflexivity.
  - cbn [forallb]. now rewrite !queryPair_named.
Qed.

Lemma mailto_link_round_trip (els els' : modal) (to subject body h : jsstring) :
  wellFormed subject = true -> wellFormed body = true ->
  to <> [] -> JS.trim to = to ->
  noUnit 0x3F to = true -> noUnit 0x25 to = true ->
  buildLinks els to subject body = Ok els' -> mailtoHref els' = Some h ->
  parseMailto (VString h) = Ok {| to := to; subject := subject; body := body |}.
Proof.
  intros W2 W3 Hne HT HQ HP B M.
  destruct (buildLinks_inv _ _ _ _ _ B) as (a & b & c & _ & Eb & Ec & _ & _ & M' & _).
  rewrite M' in M.
  match type of M with
  | Some ?x = Some h => assert (h = x) as -> by (injection M; intros E; now rewrite <- E)
  end.
  clear M. rewrite enc_eq in Eb, Ec.
  destruct (Encode_queryValue _ _ W2 Eb) as [Qb Cb].
  destruct (Encode_queryValue _ _ W3 Ec) as [Qc Cc].
  pose proof (formDecode_Encode _ _ W2 Eb) as Fb.
  pose proof (formDecode_Encode _ _ W3 Ec) as Fc.
  assert (JS.decodeURIComponent to = Ok to) as HD by (now apply Decode_plain).
  assert (orElse (JS.trim to) DEFAULT_TO = to) as Hto
    by (rewrite HT; destruct to; [contradiction | reflexivity]).
  assert (endsClean to = true) as He.
  { rewrite <- HT. unfold JS.trim. apply endsClean_trimEnd. }
  destruct subject as [| s1 subject], body as [| b1 body];
    cbn [nonEmpty orb andb]; rewrite ?app_nil_l, ?app_nil_r.
  - rewrite parseMailto_address, HD by assumption. cbn [bind].
    unfold requestFrom. now rewrite Hto.
  - change (lit "?" ++ lit "body=" ++ c) with (lit "?body=" ++ c).
    rewrite parseMailto_body with (d := to) by assumption. now rewrite Hto, Fc.
  - change (lit "?" ++ lit "subject=" ++ b) with (lit "?subject=" ++ b).
    rewrite parseMailto_subject with (d := to) by assumption. now rewrite Hto, Fb.
  - replace (lit "?" ++ (lit "subject=" ++ b) ++ lit "&" ++ lit "body=" ++ c)
      with (lit "?subject=" ++ b ++ lit "&body=" ++ c)
      by (rewrite <- !app_assoc; reflexivity).
    rewrite parseMailto_subject_body with (d := to) by assumption.
    now rewrite Hto, Fb, Fc.
Qed.

(** X8. Round trip through the native link: for a recipient that is not
    empty, is trimmed and holds neither '?' nor '%', [parseMailto] of the
    "mailto:" link set by [buildLinks] gives back the recipient, the
    subject and the body the link was built from. *)
Theorem X8_mailto_link_round_trip (els els' : modal) (to subject body h : jsstring) :
  wellFormed subject = true -> wellFormed body = true ->
  to <> [] -> JS.trim to = to ->
  noUnit 0x3F to = true -> noUnit 0x25 to = true ->
  buildLinks els to subject body = Ok els' -> mailtoHref els' = Some h ->
  parseMailto (VString h) = Ok {| to := to; subject := subject; body := body |}.
Proof. apply mailto_link_round_trip. Qed.

Lemma X8_witness :
  parseMailto (VString (lit "mailto:sales@example.com?subject=Hi%20there%20%26%20bye&body=a%2Bb%3Dc"))
  = Ok {| to := lit "sales@example.com"; subject := lit "Hi there & bye";
          body := lit "a+b=c" |}.
Proof.
  assert (lit "sales@example.com" <> []) as Hne by discriminate.
  exact (X8_mailto_link_round_trip
           {| classList := []; ariaHidden := lit "true"; gmailHref := None;
              outlookHref := None; mailtoHref := None; toText := DEFAULT_TO |}
           _ (lit "sales@example.com") (lit "Hi there & bye") (lit "a+b=c") _
           eq_refl eq_refl Hne eq_refl eq_refl eq_refl eq_refl eq_refl).
Defined.

Lemma formDecode_literals :
  formDecode (lit "view") = lit "view" /\ formDecode (lit "cm") = lit "cm"
  /\ formDecode (lit "fs") = lit "fs" /\ formDecode (lit "1") = lit "1"
  /\ formDecode (lit "to") = lit "to".
Proof. now vm_compute. Qed.

Lemma optional_pair (k v raw : jsstring) :
  queryName k = true -> queryValue v = true ->
  forallb queryPair (if nonEmpty raw then [(k, v)] else []) = true.
Proof.
  intros Hk Hv. destruct (nonEmpty raw); [| reflexivity].
  cbn [forallb]. now rewrite queryPair_named.
Qed.

Lemma joinQuery_app_pair (kvs : list (jsstring * jsstring)) (k v : jsstring) :
  kvs <> [] ->
  joinQuery (kvs ++ [(k, v)]) = joinQuery kvs ++ 0x26 :: k ++ 0x3D :: v.
Proof.
  induction kvs as [| [k1 v1] r IH]; [contradiction |]. intros _.
  destruct r as [| p r].
  - cbn [app joinQuery]. now rewrite <- app_assoc.
  - change (((k1, v1) :: p :: r) ++ [(k, v)])
      with ((k1, v1) :: (p :: r) ++ [(k, v)]).
    cbn [app]. rewrite !joinQuery_cons.
    change (p :: r ++ [(k, v)]) with ((p :: r) ++ [(k, v)]).
    rewrite IH by discriminate. now rewrite <- !app_assoc.
Qed.

(** The query that the builder appends to a compose endpoint. *)
Lemma built_query (base : list (jsstring * jsstring)) (sk b c subject body
                   : jsstring) :
  base <> [] ->
  joinQuery base
  ++ (if nonEmpty subject then (0x26 :: sk ++ [0x3D]) ++ b else [])
  ++ (if nonEmpty body then lit "&body=" ++ c else [])
  = joinQuery (base
               ++ (if nonEmpty subject then [(sk, b)] else [])
               ++ (if nonEmpty body then [(lit "body", c)] else [])).
Proof.
  intros Hb.
  destruct (nonEmpty subject), (nonEmpty body);
    rewrite ?app_nil_l, ?app_nil_r; try reflexivity.
  - rewrite (app_assoc base), (joinQuery_app_pair (base ++ [(sk, b)]))
      by (now destruct base).
    rewrite (joinQuery_app_pair base) by assumption.
    rewrite <- ?app_assoc. cbn [app]. rewrite <- ?app_assoc. reflexivity.
  - rewrite (joinQuery_app_pair base) by assumption.
    cbn [app]. rewrite <- ?app_assoc. reflexivity.
  - rewrite (joinQuery_app_pair base) by assumption. reflexivity.
Qed.

Lemma map_optional (k v raw dec : jsstring) :
  formDecode k = k -> formDecode v = dec ->
  map formDecodePair (if nonEmpty raw then [(k, v)] else [])
  = if nonEmpty raw then [(k, dec)] else [].
Proof.
  intros Hk Hv. destruct (nonEmpty raw); [| reflexivity].
  unfold formDecodePair; cbn [map fst snd]. now rewrite Hk, Hv.
Qed.

(** X9. The query strings of the Gmail and Outlook links set by
    [buildLinks], read by URLSearchParams, give back the parameters in
    order with their values as they were passed: view, fs, to, su, body
    for Gmail and to, subject, body for Outlook, where an empty subject or
    body has no parameter. *)
Theorem X9_webmail_links_read_back (els els' : modal)
  (to subject body g o : jsstring) :
  wellFormed to = true -> wellFormed subject = true -> wellFormed body = true ->
  buildLinks els to subject body = Ok els' ->
  gmailHref els' = Some g -> outlookHref els' = Some o ->
  URL.URLSearchParams (afterFirst 0x3F g)
  = Ok ([(lit "view", lit "cm"); (lit "fs", lit "1"); (lit "to", to)]
        ++ (if nonEmpty subject then [(lit "su", subject)] else [])
        ++ (if nonEmpty body then [(lit "body", body)] else []))
  /\ URL.URLSearchParams (afterFirst 0x3F o)
     = Ok ([(lit "to", to)]
           ++ (if nonEmpty subject then [(lit "subject", subject)] else [])
           ++ (if nonEmpty body then [(lit "body", body)] else [])).
Proof.
  intros W1 W2 W3 B G O.
  destruct (buildLinks_inv _ _ _ _ _ B) as (a & b & c & Ea & Eb & Ec & G' & O' & _).
  rewrite G' in G. rewrite O' in O.
  match type of G with
  | Some ?x = Some g => assert (g = x) as -> by (injection G; intros E; now rewrite <- E)
  end.
  match type of O with
  | Some ?x = Some o => assert (o = x) as -> by (injection O; intros E; now rewrite <- E)
  end.
  clear G O. rewrite enc_eq in Ea, Eb, Ec.
  destruct (Encode_queryValue _ _ W1 Ea) as [Qa _].
  destruct (Encode_queryValue _ _ W2 Eb) as [Qb _].
  destruct (Encode_queryValue _ _ W3 Ec) as [Qc _].
  pose proof (formDecode_Encode _ _ W1 Ea) as Fa.
  pose proof (formDecode_Encode _ _ W2 Eb) as Fb.
  pose proof (formDecode_Encode _ _ W3 Ec) as Fc.
  destruct formDecode_literals as (L1 & L2 & L3 & L4 & L5).
  destruct formDecode_names as (N1 & N2 & N3).
  split.
  - change (afterFirst 0x3F (GMAIL_COMPOSE ++ ?x))
      with (joinQuery [(lit "view", lit "cm"); (lit "fs", lit "1"); (lit "to", [])]
            ++ x).
    rewrite app_assoc.
    replace (joinQuery [(lit "view", lit "cm"); (lit "fs", lit "1"); (lit "to", [])]
             ++ a)
      with (joinQuery [(lit "view", lit "cm"); (lit "fs", lit "1"); (lit "to", a)])
      by (cbn [joinQuery]; rewrite <- !app_assoc; reflexivity).
    change (lit "&su=") with (0x26 :: lit "su" ++ [0x3D]).
    rewrite built_query by discriminate.
    rewrite URLSearchParams_joinQuery.
    + f_equal. rewrite !map_app.
      rewrite (map_optional _ _ _ subject N2 Fb), (map_optional _ _ _ body N3 Fc).
      unfold formDecodePair; cbn [map fst snd]. now rewrite L1, L2, L3, L4, L5, Fa.
    + rewrite !forallb_app, !optional_pair by (assumption || reflexivity).
      cbn [forallb]. now rewrite !queryPair_named.
    + reflexivity.
  - change (afterFirst 0x3F (OUTLOOK_COMPOSE ++ ?x))
      with (joinQuery [(lit "to", [])] ++ x).
    rewrite app_assoc.
    replace (joinQuery [(lit "to", [])] ++ a) with (joinQuery [(lit "to", a)])
      by (cbn [joinQuery]; rewrite <- !app_assoc; reflexivity).
    change (lit "&subject=") with (0x26 :: lit "subject" ++ [0x3D]).
    rewrite built_query by discriminate.
    rewrite URLSearchParams_joinQuery.
    + f_equal. rewrite !map_app.
      rewrite (map_optional _ _ _ subject N1 Fb), (map_optional _ _ _ body N3 Fc).
      unfold formDecodePair; cbn [map fst snd]. now rewrite L5, Fa.
    + rewrite !forallb_app, !optional_pair by (assumption || reflexivity).
      cbn [forallb]. now rewrite !queryPair_named.
    + destruct (nonEmpty subject), (nonEmpty body); reflexivity.
Qed.

Lemma X9_witness :
  URL.URLSearchParams
    (afterFirst 0x3F
       (lit "https://mail.google.com/mail/?view=cm&fs=1&to=a%40b.c&su=x%26body%3Dy"))
  = Ok ([(lit "view", lit "cm"); (lit "fs", lit "1"); (lit "to", lit "a@b.c")]
        ++ [(lit "su", lit "x&body=y")] ++ []).
Proof.
  exact (proj1 (X9_webmail_links_read_back
                  {| classList := []; ariaHidden := lit "true"; gmailHref := None;
                     outlookHref := None; mailtoHref := None; toText := DEFAULT_TO |}
                  _ (lit "a@b.c") (lit "x&body=y") [] _ _
                  eq_refl eq_refl eq_refl eq_refl eq_refl eq_refl)).
Defined.

(** X10. [enc] on well-formed strings: the result holds only unreserved
    characters and '%', it is empty exactly when the argument is, two
    arguments with the same result are the same, and an argument of
    unreserved characters is returned as it is. *)
Theorem X10_enc_alphabet (a b ea : jsstring) :
  wellFormed a = true -> wellFormed b = true -> enc a = Ok ea ->
  forallb (fun c => JS.uriUnreserved c || (c =? 0x25)) ea = true
  /\ nonEmpty ea = nonEmpty a
  /\ (enc b = Ok ea -> b = a)
  /\ (forallb JS.uriUnreserved a = true -> ea = a).
Proof.
  intros Wa Wb Ea. rewrite enc_eq in *. repeat split.
  - exact (Encode_safe a ea Wa Ea).
  - now apply Encode_nonEmpty.
  - intros Eb. apply Decode_Encode in Ea, Eb; try assumption. congruence.
  - intros U. clear Wa Wb b. revert ea Ea.
    induction a as [| c a IH]; cbn [JS.Encode]; intros ea Ea; [congruence |].
    cbn [forallb] in U. apply andb_true_iff in U as [Uc Ua]. rewrite Uc in Ea.
    destruct (JS.Encode a) as [r |]; [| discriminate]. cbn [bind] in Ea.
    injection Ea as <-. f_equal. now apply IH.
Qed.

Lemma X10_witness :
  forallb (fun c => JS.uriUnreserved c || (c =? 0x25)) (lit "a%26b%3Dc%20d") = true
  /\ nonEmpty (lit "a%26b%3Dc%20d") = nonEmpty (lit "a&b=c d").
Proof.
  destruct (X10_enc_alphabet (lit "a&b=c d") [] (lit "a%26b%3Dc%20d")
              eq_refl eq_refl eq_refl) as (H1 & H2 & _).
  split; assumption.
Defined.

(** * Further properties of the dialog *)

Lemma classListAdd_idem (c : jsstring) (l : list jsstring) :
  classListAdd c (classListAdd c l) = classListAdd c l.
Proof.
  unfold classListAdd at 1. now rewrite classListAdd_present.
Qed.

(** [ensureModal] returns exactly on the pages that can hold the dialog,
    and then the dialog is there. *)
Lemma ensureModal_some (doc d1 : document) :
  ensureModal doc = Ok d1 ->
  exists m, d1 = {| hasBody := hasBody doc; wtEmailModal := Some m |}
            /\ (forall m0, wtEmailModal doc = Some m0 -> m = m0)
            /\ (wtEmailModal doc = None ->
                existsb (eqs (lit "is-open")) (classList m) = false
                /\ ariaHidden m = lit "true").
Proof.
  unfold ensureModal. destruct doc as [b [m |]]; cbn [wtEmailModal hasBody].
  - intros [= <-]. exists m. split; [reflexivity |].
    split; [now intros m0 [= <-] | discriminate].
  - destruct b; [| discriminate]. intros [= <-]. eexists. split; [reflexivity |].
    split; [discriminate | now split].
Qed.

Lemma ensureModal_render (doc : document) :
  canRender doc = true -> exists d1, ensureModal doc = Ok d1.
Proof.
  unfold canRender, ensureModal. destruct doc as [b [m |]]; cbn [wtEmailModal hasBody].
  - now eexists.
  - rewrite orb_false_r. intros ->. now eexists.
Qed.

Lemma ensureModal_throws (doc : document) :
  canRender doc = false -> ensureModal doc = Throw TypeError.
Proof.
  unfold canRender, ensureModal. destruct doc as [b [m |]]; cbn [wtEmailModal hasBody].
  - now rewrite orb_true_r.
  - rewrite orb_false_r. now intros ->.
Qed.

(** What a successful [openModal] leaves. *)
Lemma openModal_inv (p : option payload) (doc doc' : document) :
  openModal p doc = Ok doc' ->
  exists m0 els' m,
    ensureModal doc = Ok {| hasBody := hasBody doc; wtEmailModal := Some m0 |}
    /\ buildLinks m0 (to (requestOf p)) (subject (requestOf p)) (body (requestOf p))
       = Ok els'
    /\ m = setAriaHidden (lit "false") (setClassList (classListAdd (lit "is-open")) els')
    /\ doc' = {| hasBody := hasBody doc; wtEmailModal := Some m |}.
Proof.
  unfold openModal, getEls. rewrite field_to, field_subject, field_body.
  destruct (ensureModal doc) as [d1 |] eqn:E; [| discriminate].
  destruct (ensureModal_some doc d1 E) as (m0 & -> & _). cbn [bind wtEmailModal hasBody].
  destruct (buildLinks m0 _ _ _) as [els' |] eqn:B; [| discriminate].
  cbn [bind]. intros [= <-]. now eexists m0, els', _.
Qed.

Lemma openModal_state (p : option payload) (doc doc' : document) :
  openModal p doc = Ok doc' -> stateOf doc' = OPEN /\ ariaConsistent doc'.
Proof.
  intros H. destruct (openModal_inv p doc doc' H) as (m0 & els' & m & _ & _ & -> & ->).
  unfold stateOf, ariaConsistent;
    cbn [wtEmailModal setAriaHidden setClassList classList ariaHidden].
  now rewrite classListAdd_present.
Qed.

Lemma closeModal_state (doc doc' : document) :
  closeModal doc = Ok doc' ->
  stateOf doc' = CLOSED /\ (ariaConsistent doc -> ariaConsistent doc').
Proof.
  unfold closeModal, getEls. destruct doc as [b [m |]]; cbn [wtEmailModal];
    intros [= <-]; [| now split].
  unfold stateOf, ariaConsistent;
    cbn [wtEmailModal setAriaHidden setClassList classList ariaHidden].
  now rewrite classListRemove_absent.
Qed.

Lemma closest_none (sel : element -> bool) (path : list element) :
  existsb sel path = false -> closest sel path = None.
Proof.
  unfold closest. induction path as [| e path IH]; [reflexivity |].
  cbn [existsb find]. intros H. apply orb_false_iff in H as [He Hp].
  now rewrite He, IH.
Qed.

Lemma closest_some (sel : element -> bool) (path : list element) :
  existsb sel path = true -> exists e, closest sel path = Some e /\ sel e = true.
Proof.
  unfold closest. induction path as [| e path IH]; [discriminate |].
  cbn [existsb find]. destruct (sel e) eqn:E; [now exists e |]. exact IH.
Qed.

Lemma onClick_state (path : list element) (doc doc' : document) :
  after (onClick path doc) = Ok doc' ->
  stateOf doc' = (if intercepted path then OPEN else stateOf doc)
  /\ (ariaConsistent doc -> ariaConsistent doc').
Proof.
  unfold onClick, intercepted.
  destruct (existsb isTrigger path) eqn:T.
  - destruct (closest_some _ _ T) as (t & -> & _). cbn [after orb].
    intros H. destruct (openModal_state _ _ _ H). now split.
  - rewrite (closest_none _ _ T). cbn [orb].
    destruct (existsb isMailtoAnchor path) eqn:M.
    + destruct (closest_some _ _ M) as (a & -> & _). cbn [after].
      unfold onMailtoClick. destruct (parseMailto _); [| discriminate].
      cbn [bind]. intros H. destruct (openModal_state _ _ _ H). now split.
    + rewrite (closest_none _ _ M). cbn [after]. intros [= <-]. now split.
Qed.

Lemma ensureModal_state (doc d1 : document) :
  ensureModal doc = Ok d1 ->
  stateOf d1 = stateOf doc /\ (ariaConsistent doc -> ariaConsistent d1).
Proof.
  unfold ensureModal. destruct doc as [b [m |]]; cbn [wtEmailModal hasBody].
  - intros [= <-]. now split.
  - destruct b; [| discriminate]. intros [= <-]. now split.
Qed.

Lemma dispatch_state (l : bool) (ev : event) (doc doc' : document) :
  dispatch l ev doc = Ok doc' ->
  stateOf doc' = snd (nextState ev (l, stateOf doc))
  /\ (ariaConsistent doc -> ariaConsistent doc').
Proof.
  destruct ev as [| p | | key | c path]; cbn [dispatch nextState snd].
  - apply ensureModal_state.
  - intros H. destruct (openModal_state _ _ _ H). now split.
  - apply closeModal_state.
  - destruct l; cbn [andb]; [| intros [= <-]; now split].
    unfold onKeydown. destruct (eqs key (lit "Escape")).
    + apply closeModal_state.
    + intros [= <-]. now split.
  - destruct c, l; try (cbn [bind]; apply onClick_state).
    all: destruct (closeModal doc) as [d |] eqn:C; [| discriminate];
      cbn [bind]; intros H;
      destruct (closeModal_state _ _ C) as [S1 A1];
      destruct (onClick_state _ _ _ H) as [S2 A2];
      rewrite S2, S1; split; [now destruct (intercepted path) | auto].
Qed.

(** X11. Over any sequence of events (page loaded, API open and close,
    key pressed, click on the backdrop, the close button or elsewhere)
    that runs without an error, the dialog's state is the one the
    two-state machine [nextState] computes from the events alone: the API
    and the click handler of the document act from the start, Escape, the
    backdrop and the close button only once DOMContentLoaded has added
    their listeners; and aria-hidden stays the opposite of the class
    "is-open". *)
Theorem X11_dialog_follows_the_two_state_machine
  (evs : list event) (l l' : bool) (doc doc' : document) :
  ariaConsistent doc -> run evs l doc = Ok (l', doc') ->
  (l', stateOf doc') = fold_left (fun st ev => nextState ev st) evs (l, stateOf doc)
  /\ ariaConsistent doc'.
Proof.
  revert l doc; induction evs as [| ev evs IH]; intros l doc A H.
  - injection H as <- <-. now split.
  - cbn [run] in H. destruct (dispatch l ev doc) as [d |] eqn:D; [| discriminate].
    cbn [bind] in H. destruct (dispatch_state _ _ _ _ D) as [S1 A1].
    cbn [fold_left].
    replace (nextState ev (l, stateOf doc)) with (listensAfter ev l, stateOf d)
      by (rewrite S1; reflexivity).
    apply IH; auto.
Qed.

Lemma X11_witness :
  exists doc',
    run [ApiOpen None; Keydown (lit "Escape"); Loaded; Keydown (lit "Enter");
         Click Backdrop []] false {| hasBody := true; wtEmailModal := None |} = Ok (true, doc')
    /\ (true, stateOf doc')
       = fold_left (fun st ev => nextState ev st)
           [ApiOpen None; Keydown (lit "Escape"); Loaded; Keydown (lit "Enter");
            Click Backdrop []] (false, CLOSED)
    /\ ariaConsistent doc'.
Proof.
  eexists. split; [vm_compute; reflexivity |].
  exact (X11_dialog_follows_the_two_state_machine
           [ApiOpen None; Keydown (lit "Escape"); Loaded; Keydown (lit "Enter");
            Click Backdrop []] false true {| hasBody := true; wtEmailModal := None |} _ I eq_refl).
Defined.

Lemma buildLinks_over (els1 els2 : modal) (to subject body : jsstring) :
  classList els1 = classList els2 -> ariaHidden els1 = ariaHidden els2 ->
  buildLinks els1 to subject body = buildLinks els2 to subject body.
Proof.
  intros H1 H2. unfold buildLinks. now rewrite H1, H2.
Qed.

Lemma openModal_again (p1 p2 : option payload) (doc d1 : document) :
  openModal p1 doc = Ok d1 -> openModal p2 d1 = openModal p2 doc.
Proof.
  intros H. destruct (openModal_inv p1 doc d1 H) as (m0 & els1 & m & E0 & B1 & -> & ->).
  destruct (buildLinks_inv _ _ _ _ _ B1) as (_ & _ & _ & _ & _ & _ & _ & _ & _ & _ & C1 & A1).
  unfold openModal, getEls. rewrite E0. cbn [bind ensureModal wtEmailModal hasBody].
  unfold buildLinks.
  destruct (enc (field p2 p_to DEFAULT_TO)) as [a |]; [| reflexivity].
  destruct (enc (field p2 p_subject [])) as [b |]; [| reflexivity].
  destruct (enc (field p2 p_body [])) as [c |]; [| reflexivity].
  cbn [bind]. unfold setAriaHidden, setClassList;
    cbn [classList ariaHidden gmailHref outlookHref mailtoHref toText].
  now rewrite C1, classListAdd_idem.
Qed.

(** X12. [openModal] keeps nothing of an earlier opening: opening with a
    second request after a first gives the document that opening with the
    second alone gives, and throws when that throws. *)
Theorem X12_a_later_open_replaces_the_earlier (p1 p2 : option payload)
  (doc d1 : document) :
  openModal p1 doc = Ok d1 -> openModal p2 d1 = openModal p2 doc.
Proof. apply openModal_again. Qed.

Lemma X12_witness :
  openModal None
    {| hasBody := true; wtEmailModal :=
         Some {| classList := [lit "wt-email-modal"; lit "is-open"];
                 ariaHidden := lit "false";
                 gmailHref := Some
                   (lit "https://mail.google.com/mail/?view=cm&fs=1&to=a%40b.c&su=Hi");
                 outlookHref := Some
                   (lit "https://outlook.office.com/mail/deeplink/compose?to=a%40b.c&subject=Hi");
                 mailtoHref := Some (lit "mailto:a@b.c?subject=Hi");
                 toText := lit "a@b.c" |} |}
  = openModal None {| hasBody := true; wtEmailModal := None |}.
Proof.
  exact (X12_a_later_open_replaces_the_earlier
           (Some {| p_to := Some (lit "a@b.c"); p_subject := Some (lit "Hi");
                    p_body := None |})
           None {| hasBody := true; wtEmailModal := None |} _ eq_refl).
Defined.

(** * The click handler *)

Lemma closest_sel (sel : element -> bool) (path : list element) (e : element) :
  closest sel path = Some e -> sel e = true.
Proof. unfold closest. intros H. now apply find_some in H. Qed.

Lemma startsWith_split (p s : jsstring) :
  JS.startsWith s p = true -> exists rest, s = p ++ rest.
Proof.
  revert s; induction p as [| x p IH]; intros s H; [now exists s |].
  destruct s as [| c s]; [discriminate |]. cbn [JS.startsWith] in H.
  apply andb_true_iff in H as [Hc Hs]. apply N.eqb_eq in Hc. subst c.
  destruct (IH s Hs) as (rest & ->). now exists rest.
Qed.

Lemma isMailtoAnchor_href (a : element) :
  isMailtoAnchor a = true -> exists rest, hrefAttr a = Some (lit "mailto:" ++ rest).
Proof.
  unfold isMailtoAnchor. intros H. apply andb_true_iff in H as [_ H].
  destruct (hrefAttr a) as [h |]; [| discriminate].
  destruct (startsWith_split _ _ H) as (rest & ->). now exists rest.
Qed.

(** On an href that starts with "mailto:" the decomposer finds a recipient. *)
Lemma mailto_recipient (rest : jsstring) (r : EmailRequest) :
  parseMailto (VString (lit "mailto:" ++ rest)) = Ok r -> to r <> [].
Proof.
  intros H.
  rewrite (parseMailto_rest _ (lit "mailto:") (JS.trimEnd rest)) in H
    by (reflexivity || now apply scheme_trim).
  cbv zeta in H. destruct (JS.decodeURIComponent _) as [d |]; [| discriminate].
  cbn [bind] in H. injection H as <-. apply DEFAULT_TO_nonEmpty.
Qed.

Lemma requestOf_payloadOf (r : EmailRequest) :
  to r <> [] -> requestOf (Some (payloadOf r)) = r.
Proof. destruct r as [[| c t] s b]; [contradiction | reflexivity]. Qed.

Lemma openModal_shows (p : option payload) (doc doc' : document) :
  openModal p doc = Ok doc' ->
  exists m, wtEmailModal doc' = Some m /\ toText m = to (requestOf p)
            /\ stateOf doc' = OPEN.
Proof.
  intros H. destruct (openModal_state _ _ _ H) as [S _].
  destruct (openModal_inv p doc doc' H) as (m0 & els' & m & _ & B & -> & ->).
  destruct (buildLinks_inv _ _ _ _ _ B) as (_ & _ & _ & _ & _ & _ & _ & _ & _ & T & _).
  exists (setAriaHidden (lit "false")
            (setClassList (classListAdd (lit "is-open")) els')).
  now repeat split.
Qed.

Lemma openModal_total (p : option payload) (doc : document) :
  canRender doc = true ->
  wellFormed (to (requestOf p)) = true ->
  wellFormed (subject (requestOf p)) = true ->
  wellFormed (body (requestOf p)) = true ->
  exists doc', openModal p doc = Ok doc'.
Proof.
  intros R W1 W2 W3. unfold openModal, getEls.
  rewrite field_to, field_subject, field_body.
  destruct (ensureModal_render doc R) as (d1 & E). rewrite E.
  destruct (ensureModal_some doc d1 E) as (m0 & -> & _).
  cbn [bind wtEmailModal hasBody].
  destruct (buildLinks_total m0 _ _ _ W1 W2 W3) as (els' & ->).
  cbn [bind]. now eexists.
Qed.

(** X13. A click on or inside an element with data-wt-email-trigger has
    its default action prevented and, on a page that can hold the dialog,
    opens the dialog with the recipient of data-email, or the default
    recipient when the attribute is missing or empty; a "mailto:" link on
    the same path is not looked at. *)
Theorem X13_trigger_click_opens_from_its_attributes
  (path : list element) (t : element) (doc : document) :
  closest isTrigger path = Some t ->
  canRender doc = true ->
  wellFormed (orDefault (dataEmail t) DEFAULT_TO) = true ->
  wellFormed (orDefault (dataSubject t) []) = true ->
  wellFormed (orDefault (dataBody t) []) = true ->
  defaultPrevented (onClick path doc) = true
  /\ exists doc' m,
       after (onClick path doc) = Ok doc'
       /\ wtEmailModal doc' = Some m
       /\ toText m = match dataEmail t with
                     | Some (c :: s) => c :: s
                     | _ => lit "support@WestTechHA.com"
                     end
       /\ stateOf doc' = OPEN.
Proof.
  intros C Rn W1 W2 W3. unfold onClick. rewrite C. cbn [defaultPrevented after].
  split; [reflexivity |].
  set (p := Some {| p_to := Some (orDefault (dataEmail t) DEFAULT_TO);
                    p_subject := Some (orDefault (dataSubject t) []);
                    p_body := Some (orDefault (dataBody t) []) |}).
  assert (requestOf p
          = {| to := orDefault (dataEmail t) DEFAULT_TO;
               subject := orDefault (dataSubject t) [];
               body := orDefault (dataBody t) [] |}) as R.
  { unfold p, requestOf; cbn [p_to p_subject p_body]. f_equal.
    destruct (dataEmail t) as [[| c s] |]; reflexivity. }
  destruct (openModal_total p doc) as (doc' & H);
    try (rewrite R; assumption); try assumption.
  destruct (openModal_shows p doc doc' H) as (m & M & T & S).
  exists doc', m. repeat split; try assumption.
  rewrite T, R; cbn [to]. now destruct (dataEmail t) as [[| c s] |].
Qed.

Lemma X13_witness :
  defaultPrevented
    (onClick
       [ {| isAnchor := true; hrefAttr := Some (lit "mailto:%"); isTrigger := false;
            dataEmail := None; dataSubject := None; dataBody := None |};
         {| isAnchor := false; hrefAttr := None; isTrigger := true;
            dataEmail := Some []; dataSubject := Some (lit "Quote");
            dataBody := None |} ]
       {| hasBody := true; wtEmailModal := None |}) = true.
Proof.
  exact (proj1 (X13_trigger_click_opens_from_its_attributes
                  [ {| isAnchor := true; hrefAttr := Some (lit "mailto:%");
                       isTrigger := false; dataEmail := None; dataSubject := None;
                       dataBody := None |};
                    {| isAnchor := false; hrefAttr := None; isTrigger := true;
                       dataEmail := Some []; dataSubject := Some (lit "Quote");
                       dataBody := None |} ]
                  {| isAnchor := false; hrefAttr := None; isTrigger := true;
                     dataEmail := Some []; dataSubject := Some (lit "Quote");
                     dataBody := None |}
                  {| hasBody := true; wtEmailModal := None |}
                  eq_refl eq_refl eq_refl eq_refl eq_refl)).
Defined.

(** X14. A click on or inside an a[href^="mailto:"], with no trigger on
    the path, has its default action prevented; when the handler returns,
    the dialog is open and shows the recipient [parseMailto] read from the
    href, which is never empty. *)
Theorem X14_mailto_click_always_shows_a_recipient
  (path : list element) (a : element) (doc doc' : document) :
  existsb isTrigger path = false ->
  closest isMailtoAnchor path = Some a ->
  after (onClick path doc) = Ok doc' ->
  defaultPrevented (onClick path doc) = true
  /\ exists h r m,
       hrefAttr a = Some h /\ parseMailto (VString h) = Ok r
       /\ to r <> []
       /\ wtEmailModal doc' = Some m /\ toText m = to r
       /\ stateOf doc' = OPEN.
Proof.
  intros T C. unfold onClick. rewrite (closest_none _ _ T), C.
  cbn [after defaultPrevented]. intros H. split; [reflexivity |].
  destruct (isMailtoAnchor_href a (closest_sel _ _ _ C)) as (rest & E).
  rewrite E in *. unfold onMailtoClick in H.
  destruct (parseMailto (VString (lit "mailto:" ++ rest))) as [r |] eqn:P;
    [| discriminate].
  cbn [bind] in H. pose proof (mailto_recipient rest r P) as Hr.
  destruct (openModal_shows _ _ _ H) as (m & M & Tm & S).
  rewrite requestOf_payloadOf in Tm by assumption.
  exists (lit "mailto:" ++ rest), r, m. now repeat split.
Qed.

Lemma X14_witness :
  defaultPrevented
    (onClick
       [ {| isAnchor := true; hrefAttr := Some (lit "mailto:?subject=Hi");
            isTrigger := false; dataEmail := None; dataSubject := None;
            dataBody := None |} ]
       {| hasBody := true; wtEmailModal := None |}) = true.
Proof.
  pose (a := {| isAnchor := true; hrefAttr := Some (lit "mailto:?subject=Hi");
                isTrigger := false; dataEmail := None; dataSubject := None;
                dataBody := None |}).
  destruct (after (onClick [a] {| hasBody := true; wtEmailModal := None |})) as [d |] eqn:E;
    [| discriminate].
  exact (proj1 (X14_mailto_click_always_shows_a_recipient
                  [a] a {| hasBody := true; wtEmailModal := None |} d eq_refl eq_refl E)).
Defined.

(** X15. A click on or inside an a[href^="mailto:"], with no trigger on
    the path, whose address holds a malformed escape: the default action
    is already prevented when [decodeURIComponent] throws, and the error
    is thrown out of the click handler, whatever the page. *)
Theorem X15_click_on_a_bad_escape_is_swallowed
  (path : list element) (a : element) (doc : document) (A Q : jsstring) (e : exn) :
  existsb isTrigger path = false ->
  closest isMailtoAnchor path = Some a ->
  noUnit 0x3F A = true -> JS.decodeURIComponent A = Throw e ->
  (hrefAttr a = Some (lit "mailto:" ++ A ++ 0x3F :: Q) ->
   onClick path doc = {| defaultPrevented := true; after := Throw e |})
  /\ (hrefAttr a = Some (lit "mailto:" ++ A) ->
      onClick path doc = {| defaultPrevented := true; after := Throw e |}).
Proof.
  intros T C HA HD. unfold onClick. rewrite (closest_none _ _ T), C.
  split; intros ->; unfold onMailtoClick.
  - now rewrite parseMailto_any_query, HD.
  - now rewrite parseMailto_any_address, HD.
Qed.

Lemma X15_witness :
  onClick
    [ {| isAnchor := true; hrefAttr := Some (lit "mailto:100%off@example.com ");
         isTrigger := false; dataEmail := None; dataSubject := None;
         dataBody := None |} ]
    {| hasBody := true; wtEmailModal := None |}
  = {| defaultPrevented := true; after := Throw URIError |}.
Proof.
  pose (a := {| isAnchor := true;
                hrefAttr := Some (lit "mailto:100%off@example.com ");
                isTrigger := false; dataEmail := None; dataSubject := None;
                dataBody := None |}).
  exact (proj2 (X15_click_on_a_bad_escape_is_swallowed
                  [a] a {| hasBody := true; wtEmailModal := None |}
                  (lit "100%off@example.com ") [] URIError
                  eq_refl eq_refl eq_refl eq_refl) eq_refl).
Defined.

Lemma openModal_by_request (p1 p2 : option payload) (doc : document) :
  requestOf p1 = requestOf p2 -> openModal p1 doc = openModal p2 doc.
Proof.
  intros H. unfold openModal. rewrite !field_to, !field_subject, !field_body.
  now rewrite H.
Qed.

Lemma requestOf_recipient (p : option payload) : to (requestOf p) <> [].
Proof. destruct p as [[[[| c s] |] ? ?] |]; discriminate. Qed.

(** X16. The dialog's own "Use Default Mail App" link is an
    a[href^="mailto:"] too: a click on it is taken by the global click
    handler, which prevents the default action and opens the dialog again
    from the href; for a well-formed subject and body and a recipient
    that is trimmed and holds neither '?' nor '%' this leaves the
    document exactly as it was. *)
Theorem X16_own_mailto_link_is_intercepted
  (p : option payload) (doc doc' : document) (m : modal) (h : jsstring)
  (e : element) (ancestors : list element) :
  openModal p doc = Ok doc' ->
  wtEmailModal doc' = Some m -> mailtoHref m = Some h ->
  isAnchor e = true -> hrefAttr e = Some h ->
  existsb isTrigger (e :: ancestors) = false ->
  defaultPrevented (onClick (e :: ancestors) doc') = true
  /\ after (onClick (e :: ancestors) doc') = onMailtoClick (VString h) doc'
  /\ (wellFormed (subject (requestOf p)) = true ->
      wellFormed (body (requestOf p)) = true ->
      JS.trim (to (requestOf p)) = to (requestOf p) ->
      noUnit 0x3F (to (requestOf p)) = true ->
      noUnit 0x25 (to (requestOf p)) = true ->
      after (onClick (e :: ancestors) doc') = Ok doc').
Proof.
  intros H M Hh Ha He T.
  destruct (openModal_inv p doc doc' H) as (m0 & els' & m' & E0 & B & Em & Ed).
  subst doc'. cbn [wtEmailModal] in M. injection M as <-. subst m'.
  cbn [setAriaHidden setClassList mailtoHref] in Hh.
  destruct (buildLinks_inv _ _ _ _ _ B) as (a & b & c & _ & _ & _ & _ & _ & M' & _).
  assert (isMailtoAnchor e = true) as Hm.
  { unfold isMailtoAnchor. rewrite Ha, He. rewrite M' in Hh.
    match type of Hh with
    | Some ?x = Some h =>
        assert (h = x) as -> by (injection Hh; intros E; now rewrite <- E)
    end.
    reflexivity. }
  assert (onClick (e :: ancestors)
            {| hasBody := hasBody doc;
               wtEmailModal :=
                 Some (setAriaHidden (lit "false")
                         (setClassList (classListAdd (lit "is-open")) els')) |}
          = {| defaultPrevented := true;
               after := onMailtoClick (VString h)
                          {| hasBody := hasBody doc;
                             wtEmailModal :=
                               Some (setAriaHidden (lit "false")
                                       (setClassList (classListAdd (lit "is-open"))
                                          els')) |} |}) as Hc.
  { unfold onClick. rewrite (closest_none _ _ T).
    unfold closest; cbn [find]. now rewrite Hm, He. }
  rewrite Hc. cbn [defaultPrevented after]. repeat split.
  intros W2 W3 HT HQ HP. unfold onMailtoClick.
  rewrite (mailto_link_round_trip m0 els' _ _ _ h W2 W3
             (requestOf_recipient p) HT HQ HP B Hh).
  cbn [bind].
  rewrite (openModal_again p _ doc _ H).
  rewrite <- H. apply openModal_by_request.
  rewrite requestOf_payloadOf by (cbn [to]; apply requestOf_recipient).
  now destruct (requestOf p).
Qed.

Lemma X16_witness :
  let m :=
    {| classList := [lit "wt-email-modal"; lit "is-open"];
       ariaHidden := lit "false";
       gmailHref := Some
         (lit "https://mail.google.com/mail/?view=cm&fs=1&to=support%40WestTechHA.com");
       outlookHref := Some
         (lit "https://outlook.office.com/mail/deeplink/compose?to=support%40WestTechHA.com");
       mailtoHref := Some (lit "mailto:support@WestTechHA.com");
       toText := lit "support@WestTechHA.com" |} in
  let e :=
    {| isAnchor := true; hrefAttr := Some (lit "mailto:support@WestTechHA.com");
       isTrigger := false; dataEmail := None; dataSubject := None;
       dataBody := None |} in
  openModal None {| hasBody := true; wtEmailModal := None |}
  = Ok {| hasBody := true; wtEmailModal := Some m |}
  /\ defaultPrevented (onClick [e] {| hasBody := true; wtEmailModal := Some m |}) = true
  /\ after (onClick [e] {| hasBody := true; wtEmailModal := Some m |})
     = Ok {| hasBody := true; wtEmailModal := Some m |}.
Proof.
  intros m e. split; [reflexivity |].
  destruct (X16_own_mailto_link_is_intercepted
              None {| hasBody := true; wtEmailModal := None |}
              {| hasBody := true; wtEmailModal := Some m |} m
              (lit "mailto:support@WestTechHA.com") e []
              eq_refl eq_refl eq_refl eq_refl eq_refl eq_refl) as (H1 & _ & H3).
  split; [exact H1 |]. exact (H3 eq_refl eq_refl eq_refl eq_refl eq_refl).
Defined.

(** * The copy button and the toast *)

Lemma copyEmail_shown (p : option payload) (doc doc' : document) :
  openModal p doc = Ok doc' -> copyEmail doc' = to (requestOf p).
Proof.
  intros H. destruct (openModal_shows p doc doc' H) as (m & M & T & _).
  unfold copyEmail, getEls. now rewrite M, T, orElse_nil.
Qed.

(** X17. After [openModal], the copy button hands over the recipient that
    was shown, which is never empty: to the clipboard when writing
    succeeds, with nothing prompted, and to one window.prompt when it
    fails, with clipboard, toast and timers left alone. *)
Theorem X17_copy_hands_over_the_recipient_shown
  (p : option payload) (doc doc' : document) (pg : page) :
  openModal p doc = Ok doc' ->
  let email := copyEmail doc' in
  email = to (requestOf p) /\ email <> []
  /\ clipboard (copySettled true email pg) = Some email
  /\ prompts (copySettled true email pg) = prompts pg
  /\ prompts (copySettled false email pg)
     = prompts pg ++ [(lit "Copy this email address:", email)]
  /\ clipboard (copySettled false email pg) = clipboard pg
  /\ wtEmailToast (copySettled false email pg) = wtEmailToast pg
  /\ pendingTimers (copySettled false email pg) = pendingTimers pg.
Proof.
  intros H email. unfold email. rewrite (copyEmail_shown p doc doc' H).
  split; [reflexivity |]. split; [apply requestOf_recipient |].
  unfold copySettled, showToast; cbn [dom wtEmailToast].
  destruct (getEls (dom pg)), (wtEmailToast pg); now repeat split.
Qed.

Lemma X17_witness :
  copyEmail
    {| hasBody := true; wtEmailModal :=
         Some {| classList := [lit "wt-email-modal"; lit "is-open"];
                 ariaHidden := lit "false";
                 gmailHref := Some
                   (lit "https://mail.google.com/mail/?view=cm&fs=1&to=support%40WestTechHA.com");
                 outlookHref := Some
                   (lit "https://outlook.office.com/mail/deeplink/compose?to=support%40WestTechHA.com");
                 mailtoHref := Some (lit "mailto:support@WestTechHA.com");
                 toText := lit "support@WestTechHA.com" |} |}
  = lit "support@WestTechHA.com".
Proof.
  exact (proj1 (X17_copy_hands_over_the_recipient_shown
                  (Some {| p_to := Some []; p_subject := None; p_body := None |})
                  {| hasBody := true; wtEmailModal := None |} _
                  {| dom := {| hasBody := true; wtEmailModal := None |};
                     wtEmailToast := None;
                     pendingTimers := 0; clipboard := None; prompts := [] |}
                  eq_refl)).
Defined.

(** X18. [showToast] never cancels a timer: after two calls the toast
    shows the second message and two timers are pending, and when the
    first of them fires the second toast is hidden although its own timer
    still runs. *)
Theorem X18_an_earlier_timer_hides_a_later_toast
  (pg : page) (m : modal) (t : toastEl) (msg1 msg2 : jsstring) :
  getEls (dom pg) = Some m -> wtEmailToast pg = Some t ->
  let shown := showToast msg2 (showToast msg1 pg) in
  (exists t2, wtEmailToast shown = Some t2 /\ toastText t2 = msg2
              /\ existsb (eqs (lit "show")) (toastClassList t2) = true)
  /\ pendingTimers shown = S (S (pendingTimers pg))
  /\ (exists t3, wtEmailToast (timerFires shown) = Some t3 /\ toastText t3 = msg2
                 /\ existsb (eqs (lit "show")) (toastClassList t3) = false)
  /\ pendingTimers (timerFires shown) = S (pendingTimers pg).
Proof.
  intros G T shown. unfold shown, showToast, timerFires.
  rewrite G, T; cbn [dom wtEmailToast pendingTimers]. rewrite G.
  cbn [dom wtEmailToast pendingTimers toastText toastClassList].
  repeat split.
  - eexists; repeat split. cbn [toastClassList]. apply classListAdd_present.
  - eexists; repeat split. cbn [toastClassList]. apply classListRemove_absent.
Qed.

Lemma X18_witness :
  pendingTimers
    (timerFires
       (showToast (lit "Copied")
          (showToast (lit "Copied")
             {| dom := {| hasBody := true;
                       wtEmailModal :=
                         Some {| classList := [lit "wt-email-modal"];
                                 ariaHidden := lit "true"; gmailHref := None;
                                 outlookHref := None; mailtoHref := None;
                                 toText := DEFAULT_TO |} |};
                wtEmailToast := Some {| toastText := [];
                                        toastClassList := [lit "wt-email-toast"] |};
                pendingTimers := 0; clipboard := None; prompts := [] |}))) = 1%nat.
Proof.
  exact (proj2 (proj2 (proj2
           (X18_an_earlier_timer_hides_a_later_toast
              {| dom := {| hasBody := true;
                       wtEmailModal :=
                         Some {| classList := [lit "wt-email-modal"];
                                 ariaHidden := lit "true"; gmailHref := None;
                                 outlookHref := None; mailtoHref := None;
                                 toText := DEFAULT_TO |} |};
                 wtEmailToast := Some {| toastText := [];
                                         toastClassList := [lit "wt-email-toast"] |};
                 pendingTimers := 0; clipboard := None; prompts := [] |}
              _ _ (lit "Copied") (lit "Copied") eq_refl eq_refl)))).
Defined.

(** * The query string, whatever its code units *)

Lemma ascii_not_surrogate (c : N) :
  c < 0x80 -> JS.isHighSurrogate c = false /\ JS.isLowSurrogate c = false.
Proof.
  intros H. unfold JS.isHighSurrogate, JS.isLowSurrogate, JS.between.
  split; decide_cmp; reflexivity.
Qed.

Lemma scalarValues_ascii_cons (c : N) (b : jsstring) :
  c < 0x80 -> URL.scalarValues (c :: b) = c :: URL.scalarValues b.
Proof.
  intros H. destruct (ascii_not_surrogate c H) as [H1 H2].
  cbn [URL.scalarValues]. now rewrite H1, H2.
Qed.

(** An ASCII code unit between two texts keeps their conversions apart. *)
Lemma scalarValues_app_upto (n : nat) (a b : jsstring) (c : N) :
  c < 0x80 -> (length a <= n)%nat ->
  URL.scalarValues (a ++ c :: b)
  = URL.scalarValues a ++ c :: URL.scalarValues b.
Proof.
  intros Hc. destruct (ascii_not_surrogate c Hc) as [C1 C2].
  revert a; induction n as [| n IH]; intros [| x a] Hn; cbn [length] in Hn;
    try lia; try (now apply scalarValues_ascii_cons).
  cbn [app]. cbn [URL.scalarValues]. destruct (JS.isHighSurrogate x).
  - destruct a as [| d a]; cbn [app].
    + rewrite C2. rewrite scalarValues_ascii_cons by assumption. reflexivity.
    + destruct (JS.isLowSurrogate d).
      * cbn [app]. f_equal. apply IH. cbn [length] in Hn. lia.
      * cbn [app]. f_equal. apply (IH (d :: a)). lia.
  - destruct (JS.isLowSurrogate x); cbn [app]; f_equal; apply IH; lia.
Qed.

Lemma utf8Encode_app_ascii (a b : jsstring) (c : N) :
  c < 0x80 ->
  URL.utf8Encode (a ++ c :: b) = URL.utf8Encode a ++ c :: URL.utf8Encode b.
Proof.
  intros Hc. unfold URL.utf8Encode.
  rewrite (scalarValues_app_upto (length a)) by (assumption || lia).
  rewrite flat_map_app. cbn [flat_map]. unfold JS.utf8 at 2.
  apply N.ltb_lt in Hc. now rewrite Hc.
Qed.

(** The bytes of a code point hold an ASCII byte only when it is that
    code point. *)
Lemma utf8_noUnit (cp x : N) :
  x < 0x80 -> (cp =? x) = false -> noUnit x (JS.utf8 cp) = true.
Proof.
  intros Hx Hc. apply N.eqb_neq in Hc. unfold JS.utf8, noUnit.
  destruct (N.ltb_spec cp 0x80); [| destruct (N.ltb_spec cp 0x800);
    [| destruct (N.ltb_spec cp 0x10000)]]; cbn [forallb];
    repeat match goal with
           | |- context [?a =? x] =>
               replace (a =? x) with false by (symmetry; apply N.eqb_neq; dlia)
           end; reflexivity.
Qed.

Lemma utf8Encode_noUnit_upto (n : nat) (a : jsstring) (x : N) :
  x < 0x80 -> (length a <= n)%nat ->
  noUnit x a = true -> noUnit x (URL.utf8Encode a) = true.
Proof.
  intros Hx. unfold URL.utf8Encode.
  assert ((0xFFFD =? x) = false) as HF by (apply N.eqb_neq; lia).
  revert a; induction n as [| n IH]; intros [| c a] Hn H; cbn [length] in Hn;
    try lia; try reflexivity.
  unfold noUnit in H; cbn [forallb] in H. apply andb_true_iff in H as [Hc Ha].
  apply negb_true_iff in Hc. fold (noUnit x a) in Ha.
  cbn [URL.scalarValues]. destruct (JS.isHighSurrogate c) eqn:Hh.
  - destruct a as [| d a].
    + cbn [flat_map]. rewrite app_nil_r. now apply utf8_noUnit.
    + destruct (JS.isLowSurrogate d) eqn:Hl.
      * cbn [flat_map]. rewrite noUnit_app. rewrite utf8_noUnit; try assumption.
        -- cbn [andb]. apply IH; [cbn [length] in Hn; lia |].
           unfold noUnit in Ha; cbn [forallb] in Ha.
           now apply andb_true_iff in Ha as [_ Ha].
        -- apply N.eqb_neq. unfold JS.pairToCodePoint. lia.
      * cbn [flat_map]. rewrite noUnit_app, utf8_noUnit by assumption.
        cbn [andb]. apply (IH (d :: a)); [lia | assumption].
  - destruct (JS.isLowSurrogate c); cbn [flat_map];
      rewrite noUnit_app, utf8_noUnit by assumption; cbn [andb];
      (apply IH; [lia | assumption]).
Qed.

Lemma utf8Encode_noUnit (a : jsstring) (x : N) :
  x < 0x80 -> noUnit x a = true -> noUnit x (URL.utf8Encode a) = true.
Proof. intros Hx. now apply (utf8Encode_noUnit_upto (length a)). Qed.

Lemma utf8Encode_joinQuery (kvs : list (jsstring * jsstring)) :
  URL.utf8Encode (joinQuery kvs) = joinQuery (map bytesPair kvs).
Proof.
  induction kvs as [| [k v] r IH]; [reflexivity |].
  destruct r as [| p r].
  - cbn [joinQuery map]. unfold bytesPair; cbn [fst snd].
    now apply utf8Encode_app_ascii.
  - rewrite joinQuery_cons. cbn [map]. unfold bytesPair at 1; cbn [fst snd].
    destruct (bytesPair p) as [pk pv] eqn:Ep. rewrite joinQuery_cons.
    rewrite utf8Encode_app_ascii, utf8Encode_app_ascii, IH by lia.
    cbn [map]. now rewrite Ep.
Qed.

Lemma delimited_parts (k v : jsstring) :
  delimited (k, v) = true ->
  noUnit 0x26 k = true /\ noUnit 0x3D k = true /\ noUnit 0x26 v = true.
Proof.
  unfold delimited; cbn [fst snd]; intros H.
  apply andb_true_iff in H as [H H3]. apply andb_true_iff in H as [H1 H2].
  now repeat split.
Qed.

Lemma delimited_intro (k v : jsstring) :
  noUnit 0x26 k = true -> noUnit 0x3D k = true -> noUnit 0x26 v = true ->
  delimited (k, v) = true.
Proof. intros H1 H2 H3. unfold delimited; cbn [fst snd]. now rewrite H1, H2, H3. Qed.

Lemma delimited_bytes (kv : jsstring * jsstring) :
  delimited kv = true -> delimited (bytesPair kv) = true.
Proof.
  destruct kv as [k v]. intros H. destruct (delimited_parts k v H) as (H1 & H2 & H3).
  unfold bytesPair; cbn [fst snd].
  apply delimited_intro; apply utf8Encode_noUnit; (assumption || lia).
Qed.

(** The parser splits the bytes of "n1=v1&n2=v2&..." back into its
    pairs. *)
Lemma parseBytes_pairs (kvs : list (list N * list N)) :
  forallb delimited kvs = true ->
  URL.parseBytes (joinQuery kvs) = map formDecodePair kvs.
Proof.
  unfold URL.parseBytes.
  induction kvs as [| [k v] r IH]; [reflexivity |].
  cbn [forallb]; intros H. apply andb_true_iff in H as [Hp Hr].
  destruct (delimited_parts k v Hp) as (A1 & A2 & A3).
  assert (noUnit 0x26 (k ++ 0x3D :: v) = true) as S2.
  { rewrite noUnit_app, A1. unfold noUnit; cbn [forallb andb].
    exact A3. }
  specialize (IH Hr). destruct r as [| p r].
  - cbn [joinQuery map]. rewrite split_single by assumption.
    cbn [flat_map]. rewrite parseSegment by assumption. reflexivity.
  - rewrite joinQuery_cons.
    replace (k ++ 0x3D :: v ++ 0x26 :: joinQuery (p :: r))
      with ((k ++ 0x3D :: v) ++ 0x26 :: joinQuery (p :: r))
      by (now rewrite <- app_assoc).
    rewrite split_app by assumption. cbn [flat_map map].
    rewrite parseSegment, IH by assumption. reflexivity.
Qed.

Lemma formDecodePair_bytes (kv : jsstring * jsstring) :
  formDecodePair (bytesPair kv) = formValuePair kv.
Proof. reflexivity. Qed.

(** The parameters [parseMailto] sees for the query "n1=v1&n2=v2&...". *)
Lemma URLSearchParams_pairs (kvs : list (jsstring * jsstring)) :
  forallb delimited kvs = true ->
  JS.startsWith (joinQuery kvs) [0x3F] = false ->
  URL.URLSearchParams (joinQuery kvs) = Ok (map formValuePair kvs).
Proof.
  intros H Hq. unfold URL.URLSearchParams. f_equal.
  assert (URL.stripQuestionMark (joinQuery kvs) = joinQuery kvs) as ->.
  { destruct (joinQuery kvs) as [| c t]; [reflexivity |].
    cbn [JS.startsWith] in Hq. rewrite andb_true_r in Hq.
    unfold URL.stripQuestionMark. now rewrite Hq. }
  rewrite utf8Encode_joinQuery, parseBytes_pairs.
  - rewrite map_map. apply map_ext. intros kv. apply formDecodePair_bytes.
  - rewrite forallb_forall in *. intros bkv Hin. apply in_map_iff in Hin.
    destruct Hin as (kv & <- & Hin). apply delimited_bytes. now apply H.
Qed.

Lemma queryFields_pairs (kvs : list (jsstring * jsstring)) :
  forallb delimited kvs = true ->
  JS.startsWith (joinQuery kvs) [0x3F] = false ->
  queryFields (joinQuery kvs)
  = let params := map formValuePair kvs in
    (orDefault (URL.get params (lit "subject"))
       (orDefault (URL.get params (lit "su")) []),
     orDefault (URL.get params (lit "body")) []).
Proof.
  intros Hq Hs. destruct kvs as [| kv r]; [reflexivity |].
  unfold queryFields.
  pose proof (joinQuery_nonEmpty (kv :: r)) as Hj.
  rewrite URLSearchParams_pairs by assumption.
  destruct (joinQuery (kv :: r)); [now contradiction Hj | reflexivity].
Qed.

(** "mailto:" ++ A ++ "?" ++ "n1=v1&n2=v2&...", the list of pairs may be
    empty. *)
Lemma parseMailto_delimited (A : jsstring) (kvs : list (jsstring * jsstring)) :
  noUnit 0x3F A = true ->
  forallb delimited kvs = true ->
  JS.startsWith (joinQuery kvs) [0x3F] = false ->
  endsClean (joinQuery kvs) = true ->
  parseMailto (VString (lit "mailto:" ++ A ++ 0x3F :: joinQuery kvs))
  = let* d := JS.decodeURIComponent A in
    let params := map formValuePair kvs in
    Ok {| to := orElse (JS.trim d) DEFAULT_TO;
          subject := orDefault (URL.get params (lit "subject"))
                       (orDefault (URL.get params (lit "su")) []);
          body := orDefault (URL.get params (lit "body")) [] |}.
Proof.
  intros HA HD HS HE. rewrite parseMailto_any_query by assumption.
  rewrite trimEnd_clean by assumption.
  destruct (JS.decodeURIComponent A) as [d |]; [| reflexivity].
  cbn [bind]. unfold requestFrom. now rewrite queryFields_pairs.
Qed.

(** The white space that [trim] drops at the end of a link is at the end
    of the last value. *)
Lemma trimEnd_value (X v : jsstring) :
  JS.trimEnd (X ++ 0x3D :: v) = X ++ 0x3D :: JS.trimEnd v.
Proof.
  replace (X ++ 0x3D :: v) with ((X ++ [0x3D]) ++ v) by now rewrite <- app_assoc.
  rewrite trimEnd_keep; [now rewrite <- app_assoc | now destruct X |].
  now apply endsClean_snoc.
Qed.

Lemma trimEnd_joinQuery (kvs : list (jsstring * jsstring)) (k v : jsstring) :
  JS.trimEnd (joinQuery (kvs ++ [(k, v)])) = joinQuery (kvs ++ [(k, JS.trimEnd v)]).
Proof.
  destruct kvs as [| kv r].
  - cbn [app joinQuery]. apply trimEnd_value.
  - rewrite !joinQuery_app_pair by discriminate.
    replace (joinQuery (kv :: r) ++ 0x26 :: k ++ 0x3D :: v)
      with ((joinQuery (kv :: r) ++ 0x26 :: k) ++ 0x3D :: v)
      by (now rewrite <- app_assoc).
    rewrite trimEnd_value. now rewrite <- app_assoc.
Qed.

Lemma noUnit_trimEnd (c : N) (v : jsstring) :
  noUnit c v = true -> noUnit c (JS.trimEnd v) = true.
Proof.
  intros H. destruct (trimEnd_prefix v) as (w & E & _). rewrite E in H.
  rewrite noUnit_app in H. now apply andb_true_iff in H as [H _].
Qed.

(** "mailto:" ++ A ++ "?" ++ "n1=v1&...&n=v": the last value loses its
    white space at the end. *)
Lemma parseMailto_last (A : jsstring) (kvs : list (jsstring * jsstring))
  (k v : jsstring) :
  noUnit 0x3F A = true ->
  forallb delimited (kvs ++ [(k, v)]) = true ->
  JS.startsWith (joinQuery (kvs ++ [(k, JS.trimEnd v)])) [0x3F] = false ->
  parseMailto (VString (lit "mailto:" ++ A ++ 0x3F :: joinQuery (kvs ++ [(k, v)])))
  = let* d := JS.decodeURIComponent A in
    let params := map formValuePair (kvs ++ [(k, JS.trimEnd v)]) in
    Ok {| to := orElse (JS.trim d) DEFAULT_TO;
          subject := orDefault (URL.get params (lit "subject"))
                       (orDefault (URL.get params (lit "su")) []);
          body := orDefault (URL.get params (lit "body")) [] |}.
Proof.
  intros HA HD HS. rewrite parseMailto_any_query by assumption.
  rewrite trimEnd_joinQuery.
  destruct (JS.decodeURIComponent A) as [d |]; [| reflexivity].
  cbn [bind]. unfold requestFrom. rewrite queryFields_pairs; [reflexivity | | assumption].
  rewrite forallb_app in *. apply andb_true_iff in HD as [H1 H2].
  rewrite H1. cbn [forallb andb] in *. rewrite andb_true_r in *.
  destruct (delimited_parts k v H2) as (D1 & D2 & D3).
  apply delimited_intro; try assumption. now apply noUnit_trimEnd.
Qed.

(** ** What a value decodes to *)

Lemma formValue_ascii (v : jsstring) : isAscii v = true -> formValue v = formDecode v.
Proof. intros H. unfold formValue, formDecode. now rewrite utf8Encode_ascii. Qed.

(** URLSearchParams gives back what encodeURIComponent was given. *)
Lemma formValue_Encode (s e : jsstring) :
  wellFormed s = true -> JS.Encode s = Ok e -> formValue e = s.
Proof.
  intros H He. rewrite formValue_ascii.
  - now apply formDecode_Encode.
  - apply safe_isAscii. now apply (Encode_safe s).
Qed.

(** Well-formed text without '+' and '%' is read as it is written. *)
Lemma formValue_plain (v : jsstring) :
  wellFormed v = true -> noUnit 0x2B v = true -> noUnit 0x25 v = true ->
  formValue v = v.
Proof.
  intros W H1 H2. unfold formValue, URL.decodeComponent, URL.utf8Decode.
  rewrite plusToSpace_id by (apply utf8Encode_noUnit; (assumption || lia)).
  rewrite percentDecode_plain by (apply utf8Encode_noUnit; (assumption || lia)).
  destruct (wellFormed_scalars v W) as [F E]. unfold URL.utf8Encode.
  now rewrite decode_scalars.
Qed.


Lemma formValue_names :
  formValue (lit "subject") = lit "subject"
  /\ formValue (lit "su") = lit "su"
  /\ formValue (lit "body") = lit "body".
Proof. now vm_compute. Qed.

Lemma wellFormed_trimEnd (v : jsstring) :
  wellFormed v = true -> wellFormed (JS.trimEnd v) = true.
Proof.
  intros H. destruct (trimEnd_prefix v) as (w & E & W). rewrite E in H.
  eapply wellFormed_app_l; [exact H |]. now apply whiteSpace_startsLow.
Qed.

(** * Pairs of the query that are not read *)

Lemma tidyPair_parts (kv : jsstring * jsstring) :
  tidyPair kv = true ->
  delimited kv = true /\ JS.startsWith (fst kv) [0x3F] = false
  /\ endsClean (snd kv) = true.
Proof.
  unfold tidyPair. intros H. apply andb_true_iff in H as [H H3].
  apply andb_true_iff in H as [H1 H2]. apply negb_true_iff in H2.
  now repeat split.
Qed.

Lemma tidy_delimited (kvs : list (jsstring * jsstring)) :
  forallb tidyPair kvs = true -> forallb delimited kvs = true.
Proof. apply forallb_impl. intros kv H. now apply tidyPair_parts in H. Qed.

Lemma tidy_last (kvs : list (jsstring * jsstring)) :
  forallb tidyPair kvs = true -> endsClean (snd (last kvs ([], []))) = true.
Proof.
  induction kvs as [| kv [| kv' r] IH]; [reflexivity | |]; cbn [forallb];
    intros H; apply andb_true_iff in H as [H1 H2].
  - now apply tidyPair_parts in H1.
  - change (last (kv :: kv' :: r) ([], []))
      with (last (kv' :: r) ([] : jsstring, [] : jsstring)).
    now apply IH.
Qed.

Lemma tidy_start (kvs : list (jsstring * jsstring)) :
  forallb tidyPair kvs = true -> JS.startsWith (joinQuery kvs) [0x3F] = false.
Proof.
  destruct kvs as [| [k v] r]; [reflexivity |]. cbn [forallb]. intros H.
  apply andb_true_iff in H as [H _]. apply tidyPair_parts in H as (_ & H & _).
  cbn [fst] in H.
  assert (forall x, JS.startsWith (k ++ 0x3D :: x) [0x3F] = false) as Hk.
  { intros x. destruct k as [| c k]; [reflexivity | exact H]. }
  destruct r as [| p r]; [apply Hk |]. rewrite joinQuery_cons, <- app_assoc.
  apply Hk.
Qed.

Lemma tidy_clean (kvs : list (jsstring * jsstring)) :
  forallb tidyPair kvs = true -> endsClean (joinQuery kvs) = true.
Proof.
  intros H. destruct kvs as [| kv r]; [reflexivity |].
  change (joinQuery (kv :: r)) with ([] ++ joinQuery (kv :: r)).
  apply endsClean_joinQuery; [discriminate | now apply tidy_last].
Qed.

(** "mailto:" ++ A ++ "?" ++ "n1=v1&n2=v2&...", the list of pairs may be
    empty. *)
Lemma parseMailto_pairs (A : jsstring) (kvs : list (jsstring * jsstring)) :
  noUnit 0x3F A = true -> forallb tidyPair kvs = true ->
  parseMailto (VString (lit "mailto:" ++ A ++ 0x3F :: joinQuery kvs))
  = let* d := JS.decodeURIComponent A in
    let params := map formValuePair kvs in
    Ok {| to := orElse (JS.trim d) DEFAULT_TO;
          subject := orDefault (URL.get params (lit "subject"))
                       (orDefault (URL.get params (lit "su")) []);
          body := orDefault (URL.get params (lit "body")) [] |}.
Proof.
  intros HA HT. apply parseMailto_delimited; try assumption.
  - now apply tidy_delimited.
  - now apply tidy_start.
  - now apply tidy_clean.
Qed.

Lemma get_skip (l1 l2 : list (jsstring * jsstring)) (n w name : jsstring) :
  eqs n name = false \/ existsb (fun kv => eqs (fst kv) n) l1 = true ->
  URL.get (l1 ++ (n, w) :: l2) name = URL.get (l1 ++ l2) name.
Proof.
  induction l1 as [| [k x] l1 IH]; intros H.
  - destruct H as [H | H]; [| discriminate]. cbn [app URL.get]. now rewrite H.
  - cbn [app URL.get]. destruct (eqs k name) eqn:E; [reflexivity |].
    apply IH. destruct H as [H | H]; [now left |].
    cbn [existsb fst] in H. apply orb_true_iff in H as [H | H]; [| now right].
    left. apply eqs_eq in H. now subst.
Qed.

(** X19. In a link "mailto:A?n1=v1&n2=v2&..." whose address holds no '?',
    whose names hold no '&' and no '=' and do not start with '?', and
    whose values hold no '&' and do not end in white space, a pair is not
    read by [parseMailto] when its name decodes to none of "subject", "su"
    and "body", or when an earlier pair has a name that decodes to the
    same: the link with the pair and the link without it give the same
    result, request or error. *)
Theorem X19_unknown_and_repeated_keys_are_ignored
  (A k v : jsstring) (kvs1 kvs2 : list (jsstring * jsstring)) :
  noUnit 0x3F A = true ->
  forallb tidyPair (kvs1 ++ (k, v) :: kvs2) = true ->
  knownName (formValue k) = false
  \/ existsb (fun kv => eqs (formValue (fst kv)) (formValue k)) kvs1 = true ->
  parseMailto
    (VString (lit "mailto:" ++ A ++ 0x3F :: joinQuery (kvs1 ++ (k, v) :: kvs2)))
  = parseMailto (VString (lit "mailto:" ++ A ++ 0x3F :: joinQuery (kvs1 ++ kvs2))).
Proof.
  intros HA HT HI.
  assert (forallb tidyPair (kvs1 ++ kvs2) = true) as HT'.
  { rewrite forallb_app in *. cbn [forallb] in HT.
    apply andb_true_iff in HT as [H1 H2]. apply andb_true_iff in H2 as [_ H2].
    now rewrite H1, H2. }
  rewrite !parseMailto_pairs by assumption.
  destruct (JS.decodeURIComponent A) as [d |]; [| reflexivity].
  cbn [bind]. cbv zeta.
  rewrite !map_app. cbn [map]. unfold formValuePair at 2 5 8; cbn [fst snd].
  assert (forall name, knownName name = true ->
            URL.get (map formValuePair kvs1
                     ++ (formValue k, formValue v) :: map formValuePair kvs2) name
            = URL.get (map formValuePair kvs1 ++ map formValuePair kvs2) name)
    as Hg.
  { intros name Hn. apply get_skip. destruct HI as [HI | HI].
    - left. apply not_true_iff_false. intros E. apply eqs_eq in E. congruence.
    - right. rewrite existsb_exists in *. destruct HI as (kv & Hin & E).
      exists (formValuePair kv). split; [now apply in_map | exact E]. }
  now rewrite !Hg by reflexivity.
Qed.

Lemma X19_witness :
  parseMailto (VString (lit "mailto:a@b.c?subject=One&cc=x@y.z&subject=Two&Body=no"))
  = parseMailto (VString (lit "mailto:a@b.c?subject=One&cc=x@y.z&Body=no")).
Proof.
  exact (X19_unknown_and_repeated_keys_are_ignored
           (lit "a@b.c") (lit "subject") (lit "Two")
           [(lit "subject", lit "One"); (lit "cc", lit "x@y.z")]
           [(lit "Body", lit "no")]
           eq_refl eq_refl (or_intror eq_refl)).
Defined.

(** * The decomposer on "mailto:A?subject=S&body=B": claims C3 and C4 *)

(** Evaluates the look-ups of [URL.get] among literal names. *)
Ltac lookupValue :=
  unfold formValuePair; cbn [app map fst snd URL.get];
  rewrite ?(proj1 formValue_names), ?(proj1 (proj2 formValue_names)),
    ?(proj2 (proj2 formValue_names));
  repeat match goal with
         | |- context [eqs (lit ?a) (lit ?b)] =>
             let v := eval vm_compute in (eqs (lit a) (lit b)) in
             change (eqs (lit a) (lit b)) with v
         end;
  cbn [orDefault]; rewrite ?orElse_nil.

Ltac delimitedPairs :=
  cbn [app forallb]; unfold delimited; cbn [fst snd];
  repeat match goal with
         | H : noUnit _ _ = true |- _ => rewrite H
         end;
  reflexivity.

(** "mailto:A?subject=S&body=B" *)
Lemma parseMailto_subject_body_any (A S B : jsstring) :
  noUnit 0x3F A = true -> noUnit 0x26 S = true -> noUnit 0x26 B = true ->
  parseMailto (VString (lit "mailto:" ++ A ++ lit "?subject=" ++ S ++ lit "&body=" ++ B))
  = let* d := JS.decodeURIComponent A in
    Ok {| to := orElse (JS.trim d) DEFAULT_TO;
          subject := formValue S; body := formValue (JS.trimEnd B) |}.
Proof.
  intros HA HS HB. rewrite href_subject_body.
  change [(lit "subject", S); (lit "body", B)]
    with ([(lit "subject", S)] ++ [(lit "body", B)]).
  rewrite parseMailto_last; [| assumption | delimitedPairs | reflexivity].
  destruct (JS.decodeURIComponent A) as [d |]; [| reflexivity].
  cbn [bind]. cbv zeta. lookupValue. reflexivity.
Qed.

(** "mailto:A?su=U&body=B" *)
Lemma parseMailto_su_body_any (A U B : jsstring) :
  noUnit 0x3F A = true -> noUnit 0x26 U = true -> noUnit 0x26 B = true ->
  parseMailto (VString (lit "mailto:" ++ A ++ lit "?su=" ++ U ++ lit "&body=" ++ B))
  = let* d := JS.decodeURIComponent A in
    Ok {| to := orElse (JS.trim d) DEFAULT_TO;
          subject := formValue U; body := formValue (JS.trimEnd B) |}.
Proof.
  intros HA HU HB. rewrite href_su_body.
  change [(lit "su", U); (lit "body", B)]
    with ([(lit "su", U)] ++ [(lit "body", B)]).
  rewrite parseMailto_last; [| assumption | delimitedPairs | reflexivity].
  destruct (JS.decodeURIComponent A) as [d |]; [| reflexivity].
  cbn [bind]. cbv zeta. lookupValue. reflexivity.
Qed.

(** "mailto:A?subject=S&su=U&body=B" *)
Lemma parseMailto_subject_su_body_any (A S U B : jsstring) :
  noUnit 0x3F A = true ->
  noUnit 0x26 S = true -> noUnit 0x26 U = true -> noUnit 0x26 B = true ->
  parseMailto
    (VString (lit "mailto:" ++ A ++ lit "?subject=" ++ S ++ lit "&su=" ++ U
              ++ lit "&body=" ++ B))
  = let* d := JS.decodeURIComponent A in
    Ok {| to := orElse (JS.trim d) DEFAULT_TO;
          subject := if nonEmpty (formValue S) then formValue S else formValue U;
          body := formValue (JS.trimEnd B) |}.
Proof.
  intros HA HS HU HB. rewrite href_subject_su_body.
  change [(lit "subject", S); (lit "su", U); (lit "body", B)]
    with ([(lit "subject", S); (lit "su", U)] ++ [(lit "body", B)]).
  rewrite parseMailto_last; [| assumption | delimitedPairs | reflexivity].
  destruct (JS.decodeURIComponent A) as [d |]; [| reflexivity].
  cbn [bind]. cbv zeta. lookupValue. now rewrite (orElse_if (formValue S)).
Qed.

(** The encoding written by [encodeURIComponent] holds no '&' and does
    not end in white space. *)
Lemma Encode_value (s e : jsstring) :
  wellFormed s = true -> JS.Encode s = Ok e ->
  noUnit 0x26 e = true /\ JS.trimEnd e = e.
Proof.
  intros H He. destruct (Encode_queryValue s e H He) as [Q C].
  unfold queryValue in Q. apply andb_true_iff in Q as [_ Q].
  split; [exact Q | now apply trimEnd_clean].
Qed.

(** Claim C3, amended: for every input "mailto:A?subject=S&body=B" whose
    address part [A] holds no '?' and decodes, to [d], and whose values [S]
    and [B] hold no '&', [parseMailto] returns as recipient [d] without the
    white space around it, or the default address when nothing is left (so
    [d] itself when it is not empty and has no white space around it), and
    as subject and body [S] and [B], the latter without the white space
    that [trim] drops at the end of the link, read the way URLSearchParams
    reads a value: every '+' becomes a space, then the escapes are decoded
    as UTF-8.  That gives back exactly [s] when [S] is
    [encodeURIComponent s], and [S] itself when [S] is well-formed and
    holds neither '+' nor '%'.  The key "su" is used as the subject when
    "subject" is absent, and when "subject" is present with an empty
    value; a "subject" with a non-empty value wins over "su". *)
Theorem C3_decomposition (A d S B U : jsstring) :
  noUnit 0x3F A = true -> JS.decodeURIComponent A = Ok d ->
  noUnit 0x26 S = true -> noUnit 0x26 B = true -> noUnit 0x26 U = true ->
  parseMailto
    (VString (lit "mailto:" ++ A ++ lit "?subject=" ++ S ++ lit "&body=" ++ B))
  = Ok {| to := orElse (JS.trim d) DEFAULT_TO;
          subject := formValue S; body := formValue (JS.trimEnd B) |}
  /\ (d <> [] -> JS.trim d = d -> orElse (JS.trim d) DEFAULT_TO = d)
  /\ (forall s, wellFormed s = true ->
                JS.encodeURIComponent s = Ok S -> formValue S = s)
  /\ (forall b, wellFormed b = true ->
                JS.encodeURIComponent b = Ok B -> formValue (JS.trimEnd B) = b)
  /\ (wellFormed S = true -> noUnit 0x2B S = true -> noUnit 0x25 S = true ->
      formValue S = S)
  /\ (wellFormed B = true -> noUnit 0x2B B = true -> noUnit 0x25 B = true ->
      formValue (JS.trimEnd B) = JS.trimEnd B)
  /\ parseMailto
       (VString (lit "mailto:" ++ A ++ lit "?su=" ++ U ++ lit "&body=" ++ B))
     = Ok {| to := orElse (JS.trim d) DEFAULT_TO;
             subject := formValue U; body := formValue (JS.trimEnd B) |}
  /\ parseMailto
       (VString (lit "mailto:" ++ A ++ lit "?subject=" ++ S ++ lit "&su=" ++ U
                 ++ lit "&body=" ++ B))
     = Ok {| to := orElse (JS.trim d) DEFAULT_TO;
             subject := if nonEmpty (formValue S) then formValue S
                        else formValue U;
             body := formValue (JS.trimEnd B) |}.
Proof.
  intros HA HD HS HB HU.
  rewrite parseMailto_subject_body_any, parseMailto_su_body_any,
    parseMailto_subject_su_body_any, HD by assumption.
  cbn [bind]. repeat split.
  - intros Hd HT. rewrite HT. destruct d; [contradiction | reflexivity].
  - intros s. apply formValue_Encode.
  - intros b Wb Eb. destruct (Encode_value b B Wb Eb) as [_ ->].
    now apply formValue_Encode.
  - apply formValue_plain.
  - intros W H1 H2.
    apply formValue_plain; [now apply wellFormed_trimEnd | |];
      now apply noUnit_trimEnd.
Qed.

Lemma C3_witness :
  parseMailto
    (VString (lit "mailto:sales%40example.com?subject=Hi%20there&body=Hello "))
  = Ok {| to := lit "sales@example.com"; subject := lit "Hi there";
          body := lit "Hello" |}
  /\ parseMailto
       (VString (lit "mailto:sales%40example.com?subject=Hi%20there&su=Hey&body=Hello "))
     = Ok {| to := lit "sales@example.com"; subject := lit "Hi there";
             body := lit "Hello" |}.
Proof.
  pose proof (C3_decomposition
                (lit "sales%40example.com") (lit "sales@example.com")
                (lit "Hi%20there") (lit "Hello ") (lit "Hey")
                eq_refl eq_refl eq_refl eq_refl eq_refl)
    as (H1 & _ & _ & _ & _ & _ & _ & H3).
  split; [exact H1 | exact H3].
Defined.





(** * The order of the parameters: claim C7 *)

(** The three links as lists of parameters. *)
Lemma buildLinks_queries (els els' : modal) (to subject body : jsstring) :
  buildLinks els to subject body = Ok els' ->
  exists toEnc suEnc bodyEnc,
    JS.encodeURIComponent to = Ok toEnc
    /\ JS.encodeURIComponent subject = Ok suEnc
    /\ JS.encodeURIComponent body = Ok bodyEnc
    /\ gmailHref els' = Some
         (lit "https://mail.google.com/mail/?"
          ++ joinQuery ([(lit "view", lit "cm"); (lit "fs", lit "1");
                         (lit "to", toEnc)]
                        ++ (if nonEmpty subject then [(lit "su", suEnc)] else [])
                        ++ (if nonEmpty body then [(lit "body", bodyEnc)] else [])))
    /\ outlookHref els' = Some
         (lit "https://outlook.office.com/mail/deeplink/compose?"
          ++ joinQuery ([(lit "to", toEnc)]
                        ++ (if nonEmpty subject then [(lit "subject", suEnc)] else [])
                        ++ (if nonEmpty body then [(lit "body", bodyEnc)] else [])))
    /\ mailtoHref els' = Some
         (lit "mailto:" ++ to
          ++ (if nonEmpty subject || nonEmpty body then [0x3F] else [])
          ++ joinQuery ((if nonEmpty subject then [(lit "subject", suEnc)] else [])
                        ++ (if nonEmpty body then [(lit "body", bodyEnc)] else []))).
Proof.
  intros B.
  destruct (buildLinks_inv _ _ _ _ _ B) as (a & b & c & Ea & Eb & Ec & G & O & M & _).
  exists a, b, c. rewrite enc_eq in Ea, Eb, Ec.
  split; [exact Ea |]. split; [exact Eb |]. split; [exact Ec |].
  split; [| split].
  - rewrite G. f_equal.
    change GMAIL_COMPOSE
      with (lit "https://mail.google.com/mail/?"
            ++ joinQuery [(lit "view", lit "cm"); (lit "fs", lit "1"); (lit "to", [])]).
    rewrite <- !app_assoc. f_equal. rewrite !app_assoc.
    replace (joinQuery [(lit "view", lit "cm"); (lit "fs", lit "1"); (lit "to", [])]
             ++ a)
      with (joinQuery [(lit "view", lit "cm"); (lit "fs", lit "1"); (lit "to", a)])
      by (cbn [joinQuery]; rewrite <- !app_assoc; reflexivity).
    rewrite <- !app_assoc.
    change (lit "&su=") with (0x26 :: lit "su" ++ [0x3D]).
    now rewrite built_query by discriminate.
  - rewrite O. f_equal.
    change OUTLOOK_COMPOSE
      with (lit "https://outlook.office.com/mail/deeplink/compose?"
            ++ joinQuery [(lit "to", [])]).
    rewrite <- !app_assoc. f_equal. rewrite !app_assoc.
    replace (joinQuery [(lit "to", [])] ++ a) with (joinQuery [(lit "to", a)])
      by (cbn [joinQuery]; rewrite <- !app_assoc; reflexivity).
    rewrite <- !app_assoc.
    change (lit "&subject=") with (0x26 :: lit "subject" ++ [0x3D]).
    now rewrite built_query by discriminate.
  - rewrite M. do 3 f_equal.
    destruct (nonEmpty subject), (nonEmpty body);
      cbn [orb andb app joinQuery]; rewrite ?app_nil_r, <- ?app_assoc;
      reflexivity.
Qed.

(** Claim C7: [parseMailto] and [buildLinks] are functions of their
    arguments.  [parseMailto] takes nothing but the string, so two runs
    agree, and a click on one "mailto:" link writes the same links and the
    same recipient whatever the page held before.  The links [buildLinks]
    writes depend on the address, subject and body only, not on what the
    dialog held before, so two runs write the same links and a second run
    changes nothing.  The parameters come in one order: each link is its
    endpoint followed by name=value pairs joined by '&', the pairs being
    those of the list view, fs, to, su, body for Gmail, of to, subject,
    body for Outlook and of subject, body for the native link, in that
    order, where su or subject is left out exactly when the subject is
    empty and body exactly when the body is empty; and no value holds a
    '&', a '=' or a '?' that could be read as another parameter. *)
Theorem C7_deterministic (x : value) (els1 els2 : modal)
  (to subject body : jsstring) :
  (forall r1 r2, parseMailto x = r1 -> parseMailto x = r2 -> r1 = r2)
  /\ (forall doc1 doc2 d1 d2 m1 m2,
        onMailtoClick x doc1 = Ok d1 -> onMailtoClick x doc2 = Ok d2 ->
        wtEmailModal d1 = Some m1 -> wtEmailModal d2 = Some m2 ->
        gmailHref m1 = gmailHref m2 /\ outlookHref m1 = outlookHref m2
        /\ mailtoHref m1 = mailtoHref m2 /\ toText m1 = toText m2)
  /\ (forall m1 m2,
        buildLinks els1 to subject body = Ok m1 ->
        buildLinks els2 to subject body = Ok m2 ->
        gmailHref m1 = gmailHref m2 /\ outlookHref m1 = outlookHref m2
        /\ mailtoHref m1 = mailtoHref m2 /\ toText m1 = toText m2)
  /\ (forall m1, buildLinks els1 to subject body = Ok m1 ->
                 buildLinks m1 to subject body = Ok m1)
  /\ (forall m1, buildLinks els1 to subject body = Ok m1 ->
        exists toEnc suEnc bodyEnc,
          JS.encodeURIComponent to = Ok toEnc
          /\ JS.encodeURIComponent subject = Ok suEnc
          /\ JS.encodeURIComponent body = Ok bodyEnc
          /\ gmailHref m1 = Some
               (lit "https://mail.google.com/mail/?"
                ++ joinQuery
                     ([(lit "view", lit "cm"); (lit "fs", lit "1");
                       (lit "to", toEnc)]
                      ++ (if nonEmpty subject then [(lit "su", suEnc)] else [])
                      ++ (if nonEmpty body then [(lit "body", bodyEnc)] else [])))
          /\ outlookHref m1 = Some
               (lit "https://outlook.office.com/mail/deeplink/compose?"
                ++ joinQuery
                     ([(lit "to", toEnc)]
                      ++ (if nonEmpty subject then [(lit "subject", suEnc)] else [])
                      ++ (if nonEmpty body then [(lit "body", bodyEnc)] else [])))
          /\ mailtoHref m1 = Some
               (lit "mailto:" ++ to
                ++ (if nonEmpty subject || nonEmpty body then [0x3F] else [])
                ++ joinQuery
                     ((if nonEmpty subject then [(lit "subject", suEnc)] else [])
                      ++ (if nonEmpty body then [(lit "body", bodyEnc)] else [])))
          /\ (wellFormed to = true -> wellFormed subject = true ->
              wellFormed body = true ->
              forallb safeUnit toEnc = true /\ forallb safeUnit suEnc = true
              /\ forallb safeUnit bodyEnc = true
              /\ safeUnit 0x26 = false /\ safeUnit 0x3D = false
              /\ safeUnit 0x3F = false)).
Proof.
  assert (forall e1 e2 m1 m2,
            buildLinks e1 to subject body = Ok m1 ->
            buildLinks e2 to subject body = Ok m2 ->
            gmailHref m1 = gmailHref m2 /\ outlookHref m1 = outlookHref m2
            /\ mailtoHref m1 = mailtoHref m2 /\ toText m1 = toText m2) as Hb.
  { intros e1 e2 m1 m2 H H0.
    destruct (buildLinks_inv _ _ _ _ _ H)
      as (a & b & c & Ea & Eb & Ec & G & O & M & T & _).
    destruct (buildLinks_inv _ _ _ _ _ H0)
      as (a' & b' & c' & Ea' & Eb' & Ec' & G' & O' & M' & T' & _).
    rewrite Ea in Ea'; rewrite Eb in Eb'; rewrite Ec in Ec'.
    injection Ea' as <-; injection Eb' as <-; injection Ec' as <-.
    rewrite G, G', O, O', M, M', T, T'. now repeat split. }
  split; [| split; [| split; [| split]]].
  - congruence.
  - intros doc1 doc2 d1 d2 m1 m2 H1 H2 M1 M2. unfold onMailtoClick in H1, H2.
    destruct (parseMailto x) as [r |]; [| discriminate]. cbn [bind] in H1, H2.
    destruct (openModal_inv _ _ _ H1) as (e1 & l1 & n1 & _ & B1 & -> & ->).
    destruct (openModal_inv _ _ _ H2) as (e2 & l2 & n2 & _ & B2 & -> & ->).
    cbn [wtEmailModal] in M1, M2. injection M1 as <-. injection M2 as <-.
    destruct (buildLinks_inv _ _ _ _ _ B1)
      as (a & b & c & Ea & Eb & Ec & G & O & M & T & _).
    destruct (buildLinks_inv _ _ _ _ _ B2)
      as (a' & b' & c' & Ea' & Eb' & Ec' & G' & O' & M' & T' & _).
    rewrite Ea in Ea'; rewrite Eb in Eb'; rewrite Ec in Ec'.
    injection Ea' as <-; injection Eb' as <-; injection Ec' as <-.
    cbn [setAriaHidden setClassList gmailHref outlookHref mailtoHref toText].
    rewrite G, G', O, O', M, M', T, T'. now repeat split.
  - apply Hb.
  - intros m1 B. unfold buildLinks in *.
    destruct (enc to) as [a |]; [| discriminate].
    destruct (enc subject) as [b |]; [| discriminate].
    destruct (enc body) as [c |]; [| discriminate].
    cbn [bind] in *. injection B as <-. reflexivity.
  - intros m1 B.
    destruct (buildLinks_queries _ _ _ _ _ B) as (a & b & c & Ea & Eb & Ec & G & O & M).
    exists a, b, c. repeat split; try assumption.
    + now apply (Encode_safe to).
    + now apply (Encode_safe subject).
    + now apply (Encode_safe body).
Qed.

Lemma C7_witness :
  let m1 :=
    {| classList := []; ariaHidden := lit "true";
       gmailHref := Some
         (lit "https://mail.google.com/mail/?view=cm&fs=1&to=a%40b.c&su=Hi");
       outlookHref := Some
         (lit "https://outlook.office.com/mail/deeplink/compose?to=a%40b.c&subject=Hi");
       mailtoHref := Some (lit "mailto:a@b.c?subject=Hi");
       toText := lit "a@b.c" |} in
  buildLinks {| classList := []; ariaHidden := lit "true"; gmailHref := None;
                outlookHref := None; mailtoHref := None; toText := DEFAULT_TO |}
    (lit "a@b.c") (lit "Hi") [] = Ok m1
  /\ buildLinks m1 (lit "a@b.c") (lit "Hi") [] = Ok m1.
Proof.
  intros m1. split; [reflexivity |].
  exact (proj1 (proj2 (proj2 (proj2
           (C7_deterministic VNull
              {| classList := []; ariaHidden := lit "true"; gmailHref := None;
                 outlookHref := None; mailtoHref := None; toText := DEFAULT_TO |}
              m1 (lit "a@b.c") (lit "Hi") [])))) m1 eq_refl).
Defined.

(** * Opening with a partial request: claim C9 *)

(** Claim C9: [openModal] takes a request in which anything may be
    missing, the request itself included.  The links are built from the
    request with its gaps filled: the default address
    "support@WestTechHA.com" for an absent or empty recipient, the empty
    string for an absent subject or body; the dialog then shows that
    recipient and is open.  The call returns whenever the strings are
    well-formed and the page can hold the dialog, that is when the dialog
    is there already or the page has a body to append it to; on a page
    with neither, [document.body] is null and the call throws a
    TypeError, whatever the request. *)
Theorem C9_open_fills_in_defaults (p : option payload) (doc : document) :
  (forall doc', openModal p doc = Ok doc' ->
     exists m els els',
       wtEmailModal doc' = Some m
       /\ buildLinks els (to (requestOf p)) (subject (requestOf p))
            (body (requestOf p)) = Ok els'
       /\ gmailHref m = gmailHref els' /\ outlookHref m = outlookHref els'
       /\ mailtoHref m = mailtoHref els'
       /\ toText m = to (requestOf p)
       /\ stateOf doc' = OPEN /\ ariaHidden m = lit "false")
  /\ (canRender doc = true ->
      wellFormed (to (requestOf p)) = true ->
      wellFormed (subject (requestOf p)) = true ->
      wellFormed (body (requestOf p)) = true ->
      exists doc', openModal p doc = Ok doc')
  /\ (canRender doc = false -> openModal p doc = Throw TypeError)
  /\ (forall c s, to (requestOf (Some {| p_to := Some (c :: s);
                                         p_subject := None; p_body := None |}))
                  = c :: s)
  /\ requestOf (Some {| p_to := Some []; p_subject := None; p_body := None |})
     = {| to := lit "support@WestTechHA.com"; subject := []; body := [] |}
  /\ requestOf (Some {| p_to := None; p_subject := None; p_body := None |})
     = {| to := lit "support@WestTechHA.com"; subject := []; body := [] |}
  /\ requestOf None
     = {| to := lit "support@WestTechHA.com"; subject := []; body := [] |}.
Proof.
  split; [| split; [| split; [| now repeat split]]].
  - intros doc' H.
    destruct (openModal_state _ _ _ H) as [S _].
    destruct (openModal_inv p doc doc' H) as (m0 & els' & m & _ & B & -> & ->).
    destruct (buildLinks_inv _ _ _ _ _ B) as (_ & _ & _ & _ & _ & _ & _ & _ & _ & T & _).
    eexists _, m0, els'. split; [reflexivity |]. split; [exact B |].
    now repeat split.
  - apply openModal_total.
  - intros R. unfold openModal. now rewrite ensureModal_throws.
Qed.

Lemma C9_witness :
  exists doc',
    openModal (Some {| p_to := None; p_subject := Some (lit "Quote"); p_body := None |})
      {| hasBody := true; wtEmailModal := None |} = Ok doc'.
Proof.
  exact (proj1 (proj2 (C9_open_fills_in_defaults
                         (Some {| p_to := None; p_subject := Some (lit "Quote");
                                  p_body := None |})
                         {| hasBody := true; wtEmailModal := None |}))
           eq_refl eq_refl eq_refl eq_refl).
Defined.
